(** * ObjectView: C-like structs over an ArrayBuffer (lib/object-view.js)

    A shallow embedding of [ObjectView] and of the platform objects it is
    built on (ArrayBuffer, DataView, Uint8Array, the Encoding API), followed
    by the properties of schema resolution, of the write path and of the
    read path.

    Conventions of the embedding.
    - An ArrayBuffer is a [list Z] of bytes; a view is a window
      (byteOffset, byteLength) into a buffer that lives in a heap.
    - A JavaScript Number is its IEEE-754 binary64 bit pattern, a BigInt is
      an integer, a string is its list of code points (an isolated
      surrogate is a code point in the surrogate range).
    - A plain object is a finite map from property names to values; objects
      have no prototype chain, and an object is never used as an array-like.
    - A class (ObjectView subclass) is a tree: a class referenced by a field
      is stored in the field.  In-place mutation of the static members of a
      class is state passing: a function returns the class it mutated.
    - A field descriptor's [size] is an integer, 0 when the property is
      absent (the code only tests it for truthiness before resolution).
    - A [type] slot holds a string token or an ObjectView class, as in the
      typedef ObjectViewFieldType. *)

From stdpp Require Import gmap strings list.
From Stdlib Require Import ZArith Lia.

#[local] Open Scope Z_scope.
#[local] Set Warnings "-register-all".

(** ** Errors and the two effect shapes of the code *)

Inductive error :=
| TypeError (msg : string)
| RangeError (msg : string)
| SyntaxError (msg : string).

(** A computation that reads: it returns or throws. *)
Definition res (A : Type) : Type := error + A.

Definition rmap {A B} (f : A → B) (r : res A) : res B :=
  match r with inl e => inl e | inr x => inr (f x) end.

Definition rbind {A B} (r : res A) (k : A → res B) : res B :=
  match r with inl e => inl e | inr x => k x end.

(** A procedure that writes into the buffer: the buffer after the call
    (also when it throws half way) and the exception, if any. *)
Definition proc : Type := list Z → list Z * option error.

Definition skip : proc := λ b, (b, None).
Definition throw (e : error) : proc := λ b, (b, Some e).
Definition seq (p q : proc) : proc :=
  λ b, match p b with
       | (b1, None) => q b1
       | (b1, Some e) => (b1, Some e)
       end.

(** Evaluate an expression that may throw, then go on with its value. *)
Definition eval {A} (r : res A) (k : A → proc) : proc :=
  match r with inl e => throw e | inr x => k x end.

(** [for (x of l) body(x)], stopping at the first exception. *)
Fixpoint for_each {A} (body : A → proc) (l : list A) : proc :=
  match l with
  | [] => skip
  | x :: l' => seq (body x) (for_each body l')
  end.

(** Reading loop: collects results, stops at the first exception. *)
Fixpoint collect {A B} (body : A → res B) (l : list A) : res (list B) :=
  match l with
  | [] => inr []
  | x :: l' =>
      match body x with
      | inl e => inl e
      | inr y => match collect body l' with
                 | inl e => inl e
                 | inr ys => inr (y :: ys)
                 end
      end
  end.

(** The indices [0, 1, ..., n-1] of a counting loop. *)
Definition indices (n : Z) : list Z := seqZ 0 n.

(** ** Bytes of fixed-width integers *)

Fixpoint le_bytes (n : nat) (z : Z) : list Z :=
  match n with
  | O => []
  | S n' => z mod 256 :: le_bytes n' (z / 256)
  end.

Fixpoint le_value (bs : list Z) : Z :=
  match bs with
  | [] => 0
  | b :: bs' => b + 256 * le_value bs'
  end.

(** DataView byte order: big-endian unless [littleEndian] is set. *)
Definition int_bytes (w : nat) (littleEndian : bool) (z : Z) : list Z :=
  if littleEndian then le_bytes w z else reverse (le_bytes w z).

Definition bytes_int (littleEndian : bool) (bs : list Z) : Z :=
  le_value (if littleEndian then bs else reverse bs).

Definition to_signed (w : nat) (u : Z) : Z :=
  if u <? 2 ^ (8 * Z.of_nat w - 1) then u else u - 2 ^ (8 * Z.of_nat w).

(** ** Numbers: binary64 bit patterns *)

Module Number.

Definition NaN : Z := 0x7FF8000000000000.

Definition sign (d : Z) : Z := (d / 2 ^ 63) mod 2.
Definition expo (d : Z) : Z := (d / 2 ^ 52) mod 2048.
Definition frac (d : Z) : Z := d mod 2 ^ 52.

(** The integer part, as the modular conversions ToInt8 ... ToUint32 use
    it: NaN and the infinities give 0, the fraction is dropped. *)
Definition trunc (d : Z) : Z :=
  let e := expo d in
  if (e =? 2047) || (e =? 0) then 0
  else
    let m := 2 ^ 52 + frac d in
    let mag := if 1075 <=? e then m * 2 ^ (e - 1075) else m / 2 ^ (1075 - e) in
    if sign d =? 1 then - mag else mag.

(** The Number of an integer; exact below 2^53 in magnitude, which covers
    every result of an integer getter. *)
Definition of_Z (z : Z) : Z :=
  if z =? 0 then 0
  else
    let a := Z.abs z in
    let k := Z.log2 a in
    let m := if k <=? 52 then a * 2 ^ (52 - k) else a / 2 ^ (k - 52) in
    (if z <? 0 then 2 ^ 63 else 0) + (k + 1023) * 2 ^ 52 + (m - 2 ^ 52).

(** binary64 to binary32, round to nearest, ties to even (setFloat32). *)
Definition to_f32 (d : Z) : Z :=
  let s := sign d in
  let e := expo d in
  let f := frac d in
  if e =? 2047 then (if f =? 0 then s * 2 ^ 31 + 0x7F800000 else 0x7FC00000)
  else
    let m := if e =? 0 then f else 2 ^ 52 + f in
    let E := Z.max e 1 - 1075 in
    let q := Z.max (E + 29) (-149) in
    let sh := q - E in
    let lo := m mod 2 ^ sh in
    let hi := m / 2 ^ sh in
    let up := (2 ^ (sh - 1) <? lo) || ((2 ^ (sh - 1) =? lo) && Z.odd hi) in
    let r := (q + 149) * 2 ^ 23 + hi + (if up then 1 else 0) in
    s * 2 ^ 31 + Z.min r 0x7F800000.

(** binary32 to binary64, exact (getFloat32). *)
Definition of_f32 (b : Z) : Z :=
  let s := (b / 2 ^ 31) mod 2 in
  let e := (b / 2 ^ 23) mod 256 in
  let f := b mod 2 ^ 23 in
  if e =? 255 then (if f =? 0 then s * 2 ^ 63 + 0x7FF0000000000000 else NaN)
  else if e =? 0 then
    (if f =? 0 then s * 2 ^ 63
     else let k := Z.log2 f in
          s * 2 ^ 63 + (k - 149 + 1023) * 2 ^ 52 + (f * 2 ^ (52 - k) - 2 ^ 52))
  else s * 2 ^ 63 + (e - 127 + 1023) * 2 ^ 52 + f * 2 ^ 29.

(** Reading eight bytes as a Number: every NaN pattern is the one NaN. *)
Definition of_f64 (b : Z) : Z :=
  if (expo b =? 2047) && negb (frac b =? 0) then NaN else b.

End Number.

(** ** UTF-8 (the Encoding API) *)

(** TextEncoder: an isolated surrogate is encoded as U+FFFD. *)
Definition utf8_cp (c : Z) : list Z :=
  if c <? 0x80 then [c]
  else if c <? 0x800 then [0xC0 + c / 64; 0x80 + c mod 64]
  else if c <? 0x10000 then
    if (0xD800 <=? c) && (c <? 0xE000) then [0xEF; 0xBF; 0xBD]
    else [0xE0 + c / 4096; 0x80 + (c / 64) mod 64; 0x80 + c mod 64]
  else [0xF0 + c / 262144; 0x80 + (c / 4096) mod 64; 0x80 + (c / 64) mod 64;
        0x80 + c mod 64].

Definition utf8_encode (s : list Z) : list Z := s ≫= utf8_cp.

(** TextDecoder: the decoder of the Encoding Standard.  The state of a
    sequence under way is (code point so far, bytes still needed, lower
    and upper boundary of the next byte). *)
Definition utf8_state : Type := option (Z * nat * Z * Z).

Definition utf8_lead (b : Z) : list Z * utf8_state :=
  if b <=? 0x7F then ([b], None)
  else if (0xC2 <=? b) && (b <=? 0xDF) then ([], Some (b - 0xC0, 1%nat, 0x80, 0xBF))
  else if (0xE0 <=? b) && (b <=? 0xEF) then
    ([], Some (b - 0xE0, 2%nat, if b =? 0xE0 then 0xA0 else 0x80,
                              if b =? 0xED then 0x9F else 0xBF))
  else if (0xF0 <=? b) && (b <=? 0xF4) then
    ([], Some (b - 0xF0, 3%nat, if b =? 0xF0 then 0x90 else 0x80,
                              if b =? 0xF4 then 0x8F else 0xBF))
  else ([0xFFFD], None).

Fixpoint utf8_run (st : utf8_state) (bs : list Z) : list Z :=
  match bs with
  | [] => match st with None => [] | Some _ => [0xFFFD] end
  | b :: rest =>
      match st with
      | None => let '(out, st') := utf8_lead b in out ++ utf8_run st' rest
      | Some (cp, n, lo, hi) =>
          if (lo <=? b) && (b <=? hi) then
            let cp' := cp * 64 + (b - 0x80) in
            match n with
            | S (S n') => utf8_run (Some (cp', S n', 0x80, 0xBF)) rest
            | _ => cp' :: utf8_run None rest
            end
          else
            let '(out, st') := utf8_lead b in
            0xFFFD :: out ++ utf8_run st' rest
      end
  end.

(** A leading byte order mark is not part of the decoded text. *)
Definition utf8_decode (bs : list Z) : list Z :=
  match utf8_run None bs with
  | 0xFEFF :: s => s
  | s => s
  end.

(** ** JavaScript values *)

Inductive value :=
| VUndef
| VNum (d : Z)
| VBig (z : Z)
| VStr (s : list Z)
| VArr (l : list value)
| VObj (m : gmap string value).

(** The conversions between strings and numbers are the platform's parser
    and printer; the embedding is parametric in them. *)
Class Platform := {
  StringToNumber : list Z → Z;
  StringToBigInt : list Z → option Z;
  ToString : value → list Z;
}.

Section ObjectView.

Context `{Platform}.

Definition ToNumber (v : value) : res Z :=
  match v with
  | VNum d => inr d
  | VUndef => inr Number.NaN
  | VBig _ => inl (TypeError "Cannot convert a BigInt value to a number")
  | VStr s => inr (StringToNumber s)
  | _ => inr (StringToNumber (ToString v))
  end.

Definition ToBigInt (v : value) : res Z :=
  match v with
  | VBig z => inr z
  | VUndef | VNum _ => inl (TypeError "Cannot convert value to a BigInt")
  | VStr s =>
      match StringToBigInt s with
      | Some z => inr z
      | None => inl (SyntaxError "Cannot convert string to a BigInt")
      end
  | _ =>
      match StringToBigInt (ToString v) with
      | Some z => inr z
      | None => inl (SyntaxError "Cannot convert string to a BigInt")
      end
  end.

Definition utf16 (s : list Z) : list Z :=
  s ≫= λ c, if c <? 0x10000 then [c]
            else [0xD800 + (c - 0x10000) / 1024; 0xDC00 + (c - 0x10000) mod 1024].

(** [value.length]; [None] is [undefined]. *)
Definition js_length (v : value) : res (option Z) :=
  match v with
  | VUndef => inl (TypeError "Cannot read property 'length' of undefined")
  | VArr l => inr (Some (Z.of_nat (length l)))
  | VStr s => inr (Some (Z.of_nat (length (utf16 s))))
  | _ => inr None
  end.

(** [value[i]] for an integer [i]. *)
Definition js_index (v : value) (i : Z) : res value :=
  match v with
  | VUndef => inl (TypeError "Cannot read property of undefined")
  | VArr l => inr (default VUndef (l !! Z.to_nat i))
  | VStr s => inr (from_option (λ u, VStr [u]) VUndef (utf16 s !! Z.to_nat i))
  | _ => inr VUndef
  end.

(** [value[name]] for a field name. *)
Definition js_prop (v : value) (name : string) : res value :=
  match v with
  | VUndef => inl (TypeError "Cannot read property of undefined")
  | VObj m => inr (default VUndef (m !! name))
  | _ => inr VUndef
  end.

Definition Reflect_has (v : value) (name : string) : res bool :=
  match v with
  | VObj m => inr (bool_decide (is_Some (m !! name)))
  | VArr _ => inr false
  | _ => inl (TypeError "Reflect.has called on non-object")
  end.

(** The bound of the copying loops:
    [max = (size < value.length ? size : value.length)], then [i < max]. *)
Definition loop_max (size : Z) (length : option Z) : Z :=
  match length with
  | Some n => if size <? n then size else n
  | None => 0
  end.

(** ** Numeric kinds and the DataView accessors *)

Inductive numkind :=
| Int8 | Uint8 | Int16 | Uint16 | Int32 | Uint32
| Float32 | Float64 | BigInt64 | BigUint64.

#[global] Instance numkind_eq_dec : EqDecision numkind.
Proof. solve_decision. Defined.

Definition numkind_of (tok : string) : option numkind :=
  if String.eqb tok "int8" then Some Int8
  else if String.eqb tok "uint8" then Some Uint8
  else if String.eqb tok "int16" then Some Int16
  else if String.eqb tok "uint16" then Some Uint16
  else if String.eqb tok "int32" then Some Int32
  else if String.eqb tok "uint32" then Some Uint32
  else if String.eqb tok "float32" then Some Float32
  else if String.eqb tok "float64" then Some Float64
  else if String.eqb tok "bigint64" then Some BigInt64
  else if String.eqb tok "biguint64" then Some BigUint64
  else None.

Definition token_of (k : numkind) : string :=
  match k with
  | Int8 => "int8" | Uint8 => "uint8" | Int16 => "int16" | Uint16 => "uint16"
  | Int32 => "int32" | Uint32 => "uint32" | Float32 => "float32"
  | Float64 => "float64" | BigInt64 => "bigint64" | BigUint64 => "biguint64"
  end.

(** The table [fieldSizes]. *)
Definition fieldSizes (k : numkind) : Z :=
  match k with
  | Int8 | Uint8 => 1
  | Int16 | Uint16 => 2
  | Int32 | Uint32 | Float32 => 4
  | Float64 | BigInt64 | BigUint64 => 8
  end.

Definition width (k : numkind) : nat := Z.to_nat (fieldSizes k).

(** The bytes a DataView setter of kind [k] stores for [v]. *)
Definition number_bytes (k : numkind) (littleEndian : bool) (v : value) : res (list Z) :=
  match k with
  | Float32 =>
      match ToNumber v with
      | inl e => inl e
      | inr d => inr (int_bytes 4 littleEndian (Number.to_f32 d))
      end
  | Float64 =>
      match ToNumber v with
      | inl e => inl e
      | inr d => inr (int_bytes 8 littleEndian d)
      end
  | BigInt64 | BigUint64 =>
      match ToBigInt v with
      | inl e => inl e
      | inr z => inr (int_bytes 8 littleEndian z)
      end
  | _ =>
      match ToNumber v with
      | inl e => inl e
      | inr d => inr (int_bytes (width k) littleEndian (Number.trunc d))
      end
  end.

(** The value a DataView getter of kind [k] returns for the bytes [bs]. *)
Definition bytes_number (k : numkind) (littleEndian : bool) (bs : list Z) : value :=
  let u := bytes_int littleEndian bs in
  match k with
  | Int8 | Int16 | Int32 => VNum (Number.of_Z (to_signed (width k) u))
  | Uint8 | Uint16 | Uint32 => VNum (Number.of_Z u)
  | Float32 => VNum (Number.of_f32 u)
  | Float64 => VNum (Number.of_f64 u)
  | BigInt64 => VBig (to_signed 8 u)
  | BigUint64 => VBig u
  end.

(** A position computed by the code is a Number: [None] is NaN, which is
    what [offset + start] gives while [start] is still undefined. *)
Definition pos : Type := option Z.

Definition padd (p : pos) (d : Z) : pos := (λ x, x + d) <$> p.
Definition padd2 (p q : pos) : pos :=
  match p, q with Some x, Some y => Some (x + y) | _, _ => None end.

(** ToIndex of a position (NaN gives 0; a negative index is rejected by the
    callers). *)
Definition ToIndex (p : pos) : Z := default 0 p.

(** The window of a DataView ([this] of an ObjectView method). *)
Record DataView := { byteOffset : Z; byteLength : Z }.

Definition slice (b : list Z) (i : Z) (n : Z) : list Z :=
  take (Z.to_nat n) (drop (Z.to_nat i) b).

Definition write_at (b : list Z) (i : Z) (bs : list Z) : list Z :=
  take (Z.to_nat i) b ++ bs ++ drop (Z.to_nat i + length bs) b.

Definition out_of_bounds : error := RangeError "Offset is outside the bounds of the DataView".

Definition getNumber (k : numkind) (this : DataView) (position : pos)
    (littleEndian : bool) (b : list Z) : res value :=
  let i := ToIndex position in
  if (i <? 0) || (byteLength this <? i + fieldSizes k) then inl out_of_bounds
  else inr (bytes_number k littleEndian (slice b (byteOffset this + i) (fieldSizes k))).

Definition setNumber (k : numkind) (this : DataView) (position : pos)
    (v : value) (littleEndian : bool) : proc :=
  let i := ToIndex position in
  if i <? 0 then throw out_of_bounds
  else match number_bytes k littleEndian v with
       | inl e => throw e
       | inr bs =>
           if byteLength this <? i + fieldSizes k then throw out_of_bounds
           else λ b, (write_at b (byteOffset this + i) bs, None)
       end.

(** [x << k] on 32-bit integers. *)
Definition wrap32 (z : Z) : Z := (z + 2 ^ 31) mod 2 ^ 32 - 2 ^ 31.
Definition shl32 (x k : Z) : Z := wrap32 (Z.shiftl (wrap32 x) (k mod 32)).

(** ** Windows of typed arrays *)

Definition bad_length : error := RangeError "Invalid typed array length".
Definition source_too_large : error := RangeError "Source is too large".

(** [new Uint8Array(buffer, byteOffset, length)], and the same check of
    [new DataView(buffer, byteOffset, byteLength)]: the window (offset,
    length), or a RangeError when it does not lie inside the buffer.  An
    undefined length extends the window to the end of the buffer. *)
Definition new_window (b : list Z) (off : pos) (length : option Z) : res (Z * Z) :=
  let o := ToIndex off in
  let n := Z.of_nat (List.length b) in
  if o <? 0 then inl bad_length
  else match length with
       | None => if n <? o then inl bad_length else inr (o, n - o)
       | Some l => if (l <? 0) || (n <? o + l) then inl bad_length else inr (o, l)
       end.

(** [array.fill(0)] *)
Definition fill0 (a : Z * Z) : proc :=
  λ b, (write_at b (fst a) (replicate (Z.to_nat (snd a)) 0), None).

(** [array.set(source, offset)] *)
Definition array_set (a : Z * Z) (source : list Z) (offset : Z) : proc :=
  if (offset <? 0) || (snd a <? Z.of_nat (List.length source) + offset)
  then throw source_too_large
  else λ b, (write_at b (fst a + offset) source, None).

(** ** StringView *)

(** The longest prefix of [s] whose encoding fits in [n] bytes. *)
Fixpoint utf8_fit (n : Z) (s : list Z) : list Z :=
  match s with
  | [] => []
  | c :: s' =>
      let bs := utf8_cp c in
      if Z.of_nat (List.length bs) <=? n
      then bs ++ utf8_fit (n - Z.of_nat (List.length bs)) s'
      else []
  end.

(** Modelled from the spec: the string [StringView.fromString] encodes;
    [undefined] is encoded as the empty string, as TextEncoder does. *)
Definition string_of (v : value) : list Z :=
  match v with
  | VStr s => s
  | VUndef => []
  | _ => ToString v
  end.

(** Modelled from the spec: [StringView.fromString(string, size)] of
    lib/string-view.js, which is not among the sources.  Without a size it
    is the UTF-8 encoding of the string (README: the encoding of a five
    character string with one astral character has 8 bytes); with a size
    it is "a fixed-length, zero-padded UTF-8 encoding", truncated to the
    declared byte length on a code-point boundary. *)
Definition fromString (v : value) (size : option Z) : list Z :=
  match size with
  | None => utf8_encode (string_of v)
  | Some n =>
      let bs := utf8_fit n (string_of v) in
      bs ++ replicate (Z.to_nat n - List.length bs) 0
  end.

(** The bytes of a C-like string: up to the first zero. *)
Fixpoint until_zero (bs : list Z) : list Z :=
  match bs with
  | [] => []
  | b :: bs' => if b =? 0 then [] else b :: until_zero bs'
  end.

(** Modelled from the spec: [StringView.prototype.toString] of
    lib/string-view.js, which is not among the sources: the bytes of the
    window "decoded on read" as a C-like string, that is up to the zero
    padding. *)
Definition toString (bs : list Z) : value := VStr (utf8_decode (until_zero bs)).

(** ** Classes, schemas and field descriptors *)

(** A class carries its static members [schema], [fields], [objectLength]
    and [isInitialized].  A field descriptor carries the declared
    properties and the ones resolution adds.  [ctor] is the class stored
    in [field.ctor]: a typed-array view class, an array view class or an
    object view class. *)
Inductive klass :=
| Klass (schema : schema_t) (fields : option (list string))
        (objectLength : Z) (isInitialized : bool)
with schema_t :=
| SNil
| SCons (name : string) (f : field) (rest : schema_t)
with field :=
| Field (type : ftype) (size : Z) (littleEndian : bool) (length : option Z)
        (start : option Z) (ctor : ctor_t) (stringLength : option Z)
with ftype :=
| TyTok (tok : string)
| TyClass (c : klass)
with ctor_t :=
| NoCtor
| TypedArrayView (k : numkind) (littleEndian : bool)
| ArrayView (elem : klass)
| ObjectViewClass (c : klass).

Scheme klass_mut := Induction for klass Sort Prop
  with schema_mut := Induction for schema_t Sort Prop
  with field_mut := Induction for field Sort Prop
  with ftype_mut := Induction for ftype Sort Prop
  with ctor_mut := Induction for ctor_t Sort Prop.

Definition schema (c : klass) : schema_t := let 'Klass s _ _ _ := c in s.
Definition fields (c : klass) : option (list string) := let 'Klass _ fs _ _ := c in fs.
Definition objectLength (c : klass) : Z := let 'Klass _ _ n _ := c in n.
Definition isInitialized (c : klass) : bool := let 'Klass _ _ _ i := c in i.

Definition field_type (f : field) : ftype := let 'Field t _ _ _ _ _ _ := f in t.
Definition field_size (f : field) : Z := let 'Field _ n _ _ _ _ _ := f in n.
Definition field_littleEndian (f : field) : bool := let 'Field _ _ le _ _ _ _ := f in le.
Definition field_length (f : field) : option Z := let 'Field _ _ _ l _ _ _ := f in l.
Definition field_start (f : field) : option Z := let 'Field _ _ _ _ s _ _ := f in s.
Definition field_ctor (f : field) : ctor_t := let 'Field _ _ _ _ _ c _ := f in c.
Definition field_stringLength (f : field) : option Z := let 'Field _ _ _ _ _ _ sl := f in sl.

(** [Object.keys(schema)] *)
Fixpoint keys (s : schema_t) : list string :=
  match s with
  | SNil => []
  | SCons name _ rest => name :: keys rest
  end.

(** [schema[name]] *)
Fixpoint lookup_field (s : schema_t) (name : string) : option field :=
  match s with
  | SNil => None
  | SCons n f rest => if String.eqb n name then Some f else lookup_field rest name
  end.

(** The descriptors in declaration order. *)
Fixpoint descriptors (s : schema_t) : list field :=
  match s with
  | SNil => []
  | SCons _ f rest => f :: descriptors rest
  end.

(** A declared descriptor: [{ type, size, littleEndian, length }]. *)
Definition declare (t : ftype) (size : Z) (littleEndian : bool) (length : option Z) : field :=
  Field t size littleEndian length None NoCtor None.

(** A declared class: [class C extends ObjectView {}; C.schema = s]. *)
Definition class_of (s : schema_t) : klass := Klass s None 0 false.

Definition dquote : string := String (Ascii.Ascii false true false false false true false false) EmptyString.

(** [TypeError(`Type "${type}" is not a valid type.`)] *)
Definition invalid_type (tok : string) : error :=
  TypeError ("Type " +:+ dquote +:+ tok +:+ dquote +:+ " is not a valid type.").

(** Modelled from the spec: the static [getLength(size)] of a class made
    by TypedArrayViewMixin (lib/typed-array-view.js is not among the
    sources): "getLength(size) on each returns size * stride". *)
Definition TypedArrayView_getLength (k : numkind) (size : Z) : Z := size * fieldSizes k.

(** Modelled from the spec: the static [getLength(size)] of a class made
    by ArrayViewMixin (lib/array-view.js is not among the sources), with
    the byte length of the element class as the stride. *)
Definition ArrayView_getLength (elem : klass) (size : Z) : Z := size * objectLength elem.

(** Modelled from the spec: the static [getLength(size, stringLength)] of
    StringArrayView (lib/string-array-view.js is not among the sources),
    with the byte length of one string as the stride. *)
Definition StringArrayView_getLength (size : Z) (length : option Z) : Z :=
  size * default 0 length.

(** [getLength] and the body of [initialize].  [initialize_schema] is the
    loop over the fields from a given [lastOffset]; [initialize_field] is
    one iteration up to [lastOffset += field.length] and returns the
    mutated descriptor and [field.length].  The length of a string field
    is the declared one; a string descriptor that declares none is outside
    the embedding (its offset arithmetic would give NaN).

    Modelled from the spec: [ArrayViewMixin(type)] of lib/array-view.js,
    not among the sources, makes the array class "per element-schema": it
    resolves the element class when needed and exposes its [fields],
    [schema] and [objectLength]. *)
Fixpoint getLength (this : klass) : klass * res Z :=
  match this with
  | Klass schema fields objectLength isInitialized =>
      if isInitialized then (this, inr objectLength)
      else
        match initialize_schema schema 0 with
        | (schema', inl e) => (Klass schema' fields objectLength false, inl e)
        | (schema', inr lastOffset) =>
            (Klass schema' (Some (keys schema)) lastOffset true, inr lastOffset)
        end
  end
with initialize_schema (s : schema_t) (lastOffset : Z) : schema_t * res Z :=
  match s with
  | SNil => (SNil, inr lastOffset)
  | SCons name fd rest =>
      match initialize_field fd lastOffset with
      | (field', inl e) => (SCons name field' rest, inl e)
      | (field', inr length) =>
          let '(rest', r) := initialize_schema rest (lastOffset + length) in
          (SCons name field' rest', r)
      end
  end
with initialize_field (fd : field) (lastOffset : Z) : field * res Z :=
  match fd with
  | Field type size littleEndian length _ ctor stringLength =>
      let start := Some lastOffset in
      match type with
      | TyTok tok =>
          match numkind_of tok with
          | Some k =>
              if negb (size =? 0) then
                let n := TypedArrayView_getLength k size in
                (Field (TyTok "typedarray") size littleEndian (Some n) start
                       (TypedArrayView k littleEndian) stringLength, inr n)
              else
                (Field type size littleEndian (Some (fieldSizes k)) start ctor
                       stringLength, inr (fieldSizes k))
          | None =>
              if String.eqb tok "string" then
                if negb (size =? 0) then
                  let n := StringArrayView_getLength size length in
                  (Field (TyTok "stringarray") size littleEndian (Some n) start
                         ctor length, inr n)
                else
                  (Field type size littleEndian length start ctor stringLength,
                   inr (default 0 length))
              else
                (Field type size littleEndian length start ctor stringLength,
                 inl (invalid_type tok))
          end
      | TyClass c =>
          if negb (size =? 0) then
            match getLength c with
            | (_, inl e) =>
                (Field (TyTok "array") size littleEndian length start ctor
                       stringLength, inl e)
            | (c', inr _) =>
                let n := ArrayView_getLength c' size in
                (Field (TyTok "array") size littleEndian (Some n) start
                       (ArrayView c') stringLength, inr n)
            end
          else
            match getLength c with
            | (c', inl e) =>
                (Field (TyTok "object") size littleEndian length start
                       (ObjectViewClass c') stringLength, inl e)
            | (c', inr n) =>
                (Field (TyTok "object") size littleEndian (Some n) start
                       (ObjectViewClass c') stringLength, inr n)
            end
      end
  end.

(** [static initialize()] *)
Definition initialize (this : klass) : klass * option error :=
  match initialize_schema (schema this) 0 with
  | (schema', inl e) =>
      (Klass schema' (fields this) (objectLength this) (isInitialized this), Some e)
  | (schema', inr lastOffset) =>
      (Klass schema' (Some (keys (schema this))) lastOffset true, None)
  end.

(** ** The read path *)

Definition not_a_class : error := TypeError "Cannot read property of undefined".
Definition invalid_array_length : error := RangeError "Invalid array length".

(** [new Array(size)] followed by the loop [for (i = 0; i < size; i++)]. *)
Definition new_Array {A} (size : Z) (body : Z → res A) : res (list A) :=
  if size <? 0 then inl invalid_array_length else collect body (indices size).

(** The statics [offset] of a typed-array view class: log2 of the width. *)
Definition offset_of (k : numkind) : Z := Z.log2 (fieldSizes k).

Definition getTypedArray (this : DataView) (b : list Z) (position : pos)
    (ctor : ctor_t) (size : Z) : res (list value) :=
  new_Array size (λ i,
    match ctor with
    | TypedArrayView k littleEndian =>
        getNumber k this (padd position (shl32 i (offset_of k))) littleEndian b
    | _ => inl (TypeError "this[typeGetter] is not a function")
    end).

Definition getStringArray (this : DataView) (b : list Z) (position : pos)
    (size : Z) (length stringLength : option Z) : res (list value) :=
  new_Array size (λ i,
    match new_window b (padd2 (padd position (byteOffset this)) ((λ n, i * n) <$> stringLength))
                     stringLength with
    | inl e => inl e
    | inr (o, n) => inr (toString (slice b o n))
    end).

Definition getString (this : DataView) (b : list Z) (position : pos)
    (length : option Z) : res value :=
  match new_window b (padd position (byteOffset this)) length with
  | inl e => inl e
  | inr (o, n) => inr (toString (slice b o n))
  end.

Fixpoint getObject (this : DataView) (b : list Z) (s : schema_t) (offset : pos)
    (result : gmap string value) {struct s} : res (gmap string value) :=
  match s with
  | SNil => inr result
  | SCons name fd rest =>
      match getField this b fd offset with
      | inl e => inl e
      | inr v => getObject this b rest offset (<[name := v]> result)
      end
  end
with getField (this : DataView) (b : list Z) (fd : field) (offset : pos)
    {struct fd} : res value :=
  match fd with
  | Field type size littleEndian length start ctor stringLength =>
      let position := padd2 offset start in
      let default_case :=
        match ctor with
        | ObjectViewClass (Klass s _ _ _) | ArrayView (Klass s _ _ _) =>
            match getObject this b s position ∅ with
            | inl e => inl e
            | inr m => inr (VObj m)
            end
        | _ => inl not_a_class
        end in
      match type with
      | TyTok tok =>
          match numkind_of tok with
          | Some k => getNumber k this position littleEndian b
          | None =>
              if String.eqb tok "string" then getString this b position length
              else if String.eqb tok "typedarray" then
                rmap VArr (getTypedArray this b position ctor size)
              else if String.eqb tok "stringarray" then
                rmap VArr (getStringArray this b position size length stringLength)
              else if String.eqb tok "array" then
                (* getArray(position, Ctor, size) *)
                match ctor with
                | ArrayView (Klass s _ n _) | ObjectViewClass (Klass s _ n _) =>
                    rmap VArr (new_Array size (λ i,
                      match getObject this b s (padd position (i * n)) ∅ with
                      | inl e => inl e
                      | inr m => inr (VObj m)
                      end))
                | _ => inl not_a_class
                end
              else default_case
          end
      | TyClass _ => default_case
      end
  end.

(** [getArray(position, ctor, size)] *)
Definition getArray (this : DataView) (b : list Z) (position : pos)
    (ctor : ctor_t) (size : Z) : res (list value) :=
  match ctor with
  | ArrayView c | ObjectViewClass c =>
      new_Array size (λ i,
        rmap VObj (getObject this b (schema c) (padd position (i * objectLength c)) ∅))
  | _ => inl not_a_class
  end.

(** ** The write path *)

(** [setString(position, value, length)] *)
Definition setString (this : DataView) (position : pos) (v : value)
    (length : option Z) : proc :=
  λ b, eval (new_window b (padd position (byteOffset this)) length) (λ array,
         seq (fill0 array) (array_set array (fromString v None) 0)) b.

(** [setStringArray(position, value, size, length, stringLength)] *)
Definition setStringArray (this : DataView) (position : pos) (v : value)
    (size : Z) (length stringLength : option Z) : proc :=
  λ b, eval (new_window b (padd position (byteOffset this)) length) (λ array,
         seq (fill0 array)
           (eval (js_length v) (λ n,
              for_each (λ i,
                eval (js_index v i) (λ vi,
                  array_set array (fromString vi stringLength)
                            (ToIndex ((λ n, i * n) <$> stringLength))))
                (indices (loop_max size n))))) b.

(** [setTypedArray(position, value, ctor, size)] *)
Definition setTypedArray (this : DataView) (position : pos) (v : value)
    (ctor : ctor_t) (size : Z) : proc :=
  eval (js_length v) (λ n,
    for_each (λ i,
      match ctor with
      | TypedArrayView k littleEndian =>
          eval (js_index v i) (λ vi,
            setNumber k this (padd position (shl32 i (offset_of k))) vi littleEndian)
      | _ => throw (TypeError "this[typeSetter] is not a function")
      end)
      (indices (loop_max size n))).

(** [setValue(field, value, schema, offset)] looks the descriptor up and
    dispatches on its type ([setField]); [setArray] and [setObject] walk
    the statics of the class in [ctor]. *)
Fixpoint setValue (this : DataView) (field : string) (v : value) (s : schema_t)
    (offset : pos) {struct s} : proc :=
  match s with
  | SNil => throw (TypeError "Cannot destructure property of undefined")
  | SCons name fd rest =>
      if String.eqb name field then setField this fd v offset
      else setValue this field v rest offset
  end
with setField (this : DataView) (fd : field) (v : value) (offset : pos)
    {struct fd} : proc :=
  match fd with
  | Field type size littleEndian length start ctor stringLength =>
      let position := padd2 offset start in
      match type with
      | TyTok tok =>
          match numkind_of tok with
          | Some k => setNumber k this position v littleEndian
          | None =>
              if String.eqb tok "string" then setString this position v length
              else if String.eqb tok "typedarray" then
                setTypedArray this position v ctor size
              else if String.eqb tok "array" then setArray this position v ctor size
              else if String.eqb tok "stringarray" then
                setStringArray this position v size length stringLength
              else setObject this position v ctor
          end
      | TyClass _ => setObject this position v ctor
      end
  end
with setArray (this : DataView) (position : pos) (v : value) (ctor : ctor_t)
    (size : Z) {struct ctor} : proc :=
  match ctor with
  | ArrayView (Klass schema fields objectLength _)
  | ObjectViewClass (Klass schema fields objectLength _) =>
      eval (js_length v) (λ n,
        for_each (λ i,
          match fields with
          | None => throw (TypeError "Cannot read property 'length' of undefined")
          | Some names =>
              for_each (λ name,
                eval (rbind (js_index v i) (λ vi, js_prop vi name)) (λ x,
                  setValue this name x schema (padd position (i * objectLength))))
                names
          end)
          (indices (loop_max size n)))
  | _ => throw not_a_class
  end
with setObject (this : DataView) (position : pos) (v : value) (ctor : ctor_t)
    {struct ctor} : proc :=
  match ctor with
  | ObjectViewClass (Klass schema fields _ _)
  | ArrayView (Klass schema fields _ _) =>
      match fields with
      | None => throw (TypeError "Cannot read property 'length' of undefined")
      | Some names =>
          for_each (λ name,
            eval (Reflect_has v name) (λ present,
              if present : bool
              then eval (js_prop v name) (λ x, setValue this name x schema position)
              else skip))
            names
      end
  | _ => throw not_a_class
  end.

(** ** Instances: views in a heap of buffers *)

Record ObjectView := {
  buffer : nat;
  window : DataView;
  constructor : klass;
}.

(** The class of a view made by [get]. *)
Inductive view_class :=
| StringView
| StringArrayView (stringLength : option Z)
| CtorView (c : ctor_t).

Record View := {
  view_class_of : view_class;
  view_buffer : nat;
  view_byteOffset : Z;
  view_length : Z;
}.

Inductive got :=
| GotValue (v : value)
| GotView (w : View).

(** [getView(position, length, Ctor = StringView)] *)
Definition getView (this : ObjectView) (b : list Z) (position : pos)
    (length : option Z) (ctor : ctor_t) : res View :=
  match new_window b (padd position (byteOffset (window this))) length with
  | inl e => inl e
  | inr (o, n) =>
      inr {| view_class_of := match ctor with NoCtor => StringView | c => CtorView c end;
             view_buffer := buffer this; view_byteOffset := o; view_length := n |}
  end.

(** [get(field)] *)
Definition get (this : ObjectView) (field : string) (heap : list (list Z)) : res got :=
  match lookup_field (schema (constructor this)) field, heap !! buffer this with
  | Some (Field type size littleEndian length start ctor stringLength), Some b =>
      match type with
      | TyTok tok =>
          match numkind_of tok with
          | Some k => rmap GotValue (getNumber k (window this) start littleEndian b)
          | None =>
              if String.eqb tok "stringarray" then
                match new_window b (padd start (byteOffset (window this))) length with
                | inl e => inl e
                | inr (o, n) =>
                    inr (GotView {| view_class_of := StringArrayView stringLength;
                                    view_buffer := buffer this;
                                    view_byteOffset := o; view_length := n |})
                end
              else rmap GotView (getView this b start length ctor)
          end
      | TyClass _ => rmap GotView (getView this b start length ctor)
      end
  | _, _ => inl (TypeError "Cannot destructure property of undefined")
  end.

(** Running a procedure of a view on the buffer the view refers to. *)
Definition on_buffer (this : ObjectView) (p : proc) (heap : list (list Z))
  : list (list Z) * option error :=
  match heap !! buffer this with
  | Some b => let '(b', r) := p b in (<[buffer this := b']> heap, r)
  | None => (heap, Some (TypeError "detached buffer"))
  end.

(** [set(field, value)] *)
Definition set (this : ObjectView) (field : string) (v : value) : proc :=
  setValue (window this) field v (schema (constructor this)) (Some 0).

(** [setView(field, value)]: the bytes of the view [value] are copied
    over the window of [this], from the index [start] of the field.  The
    source is read before the copy ([TypedArray.prototype.set] clones a
    source that shares the buffer of the target). *)
Definition setView (this : ObjectView) (field : string) (value : View)
    (heap : list (list Z)) : list (list Z) * option error :=
  match lookup_field (schema (constructor this)) field with
  | None => (heap, Some (TypeError "Cannot destructure property of undefined"))
  | Some fd =>
      match heap !! buffer this, heap !! view_buffer value with
      | Some b, Some bv =>
          match new_window b (Some (byteOffset (window this)))
                           (Some (byteLength (window this))) with
          | inl e => (heap, Some e)
          | inr target =>
              match new_window bv (Some (view_byteOffset value))
                               (Some (view_length value)) with
              | inl e => (heap, Some e)
              | inr (o, n) =>
                  let '(b', r) :=
                    array_set target (slice bv o n) (ToIndex (field_start fd)) b in
                  (<[buffer this := b']> heap, r)
              end
          end
      | _, _ => (heap, Some (TypeError "detached buffer"))
      end
  end.

(** [toObject()] *)
Definition toObject (this : ObjectView) (b : list Z) : res value :=
  rmap VObj (getObject (window this) b (schema (constructor this)) (Some 0) ∅).

(** [static from(object, view)]: the class after the call, the heap after
    the call, and the view or the exception. *)
Definition from (this : klass) (object : value) (view : option ObjectView)
    (heap : list (list Z)) : klass * list (list Z) * res ObjectView :=
  match view with
  | Some objectView =>
      let '(heap', r) :=
        on_buffer objectView
          (setObject (window objectView) (Some 0) object
                     (ObjectViewClass (constructor objectView))) heap in
      (this, heap', match r with Some e => inl e | None => inr objectView end)
  | None =>
      match getLength this with
      | (this', inl e) => (this', heap, inl e)
      | (this', inr n) =>
          if n <? 0 then (this', heap, inl (RangeError "Invalid array buffer length"))
          else
            let objectView :=
              {| buffer := List.length heap;
                 window := {| byteOffset := 0; byteLength := n |};
                 constructor := this' |} in
            let '(heap', r) :=
              on_buffer objectView
                (setObject (window objectView) (Some 0) object
                           (ObjectViewClass (constructor objectView)))
                (heap ++ [replicate (Z.to_nat n) 0]) in
            (this', heap', match r with Some e => inl e | None => inr objectView end)
      end
  end.

End ObjectView.

(** * The vocabulary of the properties

    Layouts, footprints of procedures on a buffer, resolved classes and
    their entries, and the values a schema holds exactly. *)

Section Properties.

Context `{Platform}.





(** A token that [initialize] does not recognise. *)
Definition unrecognized (tok : string) : Prop :=
  numkind_of tok = None ∧ tok ≠ "string".

Definition fails_invalid {A B} (r : A * res B) : Prop :=
  ∀ e, r.2 = inl e → ∃ tok, e = invalid_type tok.

(** [frame b b' lo n]: [b'] is [b] except, possibly, on the [n] bytes
    from [lo]. *)
Definition frame (b b' : list Z) (lo n : Z) : Prop :=
  length b' = length b ∧
  ∀ j, (Z.of_nat j < lo ∨ lo + n ≤ Z.of_nat j) → b' !! j = b !! j.

(** [touches p L lo n]: on a buffer of [L] bytes the procedure [p],
    whether it returns or throws, changes at most the [n] bytes from
    [lo]. *)
Definition touches (p : proc) (L : nat) (lo n : Z) : Prop :=
  ∀ b b' r, length b = L → p b = (b', r) → frame b b' lo n.

(** [agree_on keep b b']: the buffers have the same length and the same
    bytes at the indices in [keep]; [respects p L keep]: the procedure
    never changes a byte at an index in [keep]. *)
Definition agree_on (keep : nat → Prop) (b b' : list Z) : Prop :=
  length b' = length b ∧ ∀ j, keep j → b' !! j = b !! j.

Definition respects (p : proc) (L : nat) (keep : nat → Prop) : Prop :=
  ∀ b b' r, length b = L → p b = (b', r) → agree_on keep b b'.

Definition region (lo n : Z) : nat → Prop := λ j, lo ≤ Z.of_nat j < lo + n.

(** The window of a DataView lies inside a buffer of [L] bytes. *)
Definition view_ok (this : DataView) (L : nat) : Prop :=
  0 ≤ byteOffset this ∧ 0 ≤ byteLength this ∧
  byteOffset this + byteLength this ≤ Z.of_nat L.

(** [resolved c]: the class is in the state [getLength] leaves it in.  It
    is initialized, [fields] lists the names of the schema, the names are
    distinct, and the descriptors are laid out from 0 to [objectLength]:
    [resolved_field f off] is the byte length of the descriptor [f] when
    it is a resolved descriptor that starts at [off]. *)
Fixpoint resolved (c : klass) : bool :=
  match c with
  | Klass s fs n init =>
      init && bool_decide (fs = Some (keys s)) && bool_decide (NoDup (keys s))
      && resolved_schema s 0 n
  end
with resolved_schema (s : schema_t) (off total : Z) : bool :=
  match s with
  | SNil => total =? off
  | SCons _ f rest =>
      match resolved_field f off with
      | Some len => resolved_schema rest (off + len) total
      | None => false
      end
  end
with resolved_field (f : field) (off : Z) : option Z :=
  match f with
  | Field type size _ length start ctor stringLength =>
      if bool_decide (start = Some off) then
        match type with
        | TyTok tok =>
            match numkind_of tok with
            | Some k =>
                if bool_decide (length = Some (fieldSizes k)) then Some (fieldSizes k)
                else None
            | None =>
                if String.eqb tok "string" then
                  match length with
                  | Some l => if 0 <=? l then Some l else None
                  | None => None
                  end
                else if String.eqb tok "typedarray" then
                  match ctor with
                  | TypedArrayView k _ =>
                      let n := size * fieldSizes k in
                      if (0 <? size) && (n <? 2 ^ 31) && bool_decide (length = Some n)
                      then Some n else None
                  | _ => None
                  end
                else if String.eqb tok "stringarray" then
                  match stringLength with
                  | Some l =>
                      if (0 <=? l) && (0 <? size) && bool_decide (length = Some (size * l))
                      then Some (size * l) else None
                  | None => None
                  end
                else if String.eqb tok "array" then
                  match ctor with
                  | ArrayView c =>
                      if resolved c && (0 <? size)
                         && bool_decide (length = Some (size * objectLength c))
                      then Some (size * objectLength c) else None
                  | _ => None
                  end
                else if String.eqb tok "object" then
                  match ctor with
                  | ObjectViewClass c =>
                      if resolved c && bool_decide (length = Some (objectLength c))
                      then Some (objectLength c) else None
                  | _ => None
                  end
                else None
            end
        | TyClass _ => None
        end
      else None
  end.

(** The shapes of a resolved descriptor. *)
Inductive resolved_shape (off : Z) : field → Z → Prop :=
| shape_number tok k size le ctor sl :
    numkind_of tok = Some k →
    resolved_shape off
      (Field (TyTok tok) size le (Some (fieldSizes k)) (Some off) ctor sl)
      (fieldSizes k)
| shape_string size le l ctor sl :
    0 ≤ l →
    resolved_shape off (Field (TyTok "string") size le (Some l) (Some off) ctor sl) l
| shape_typedarray size le k le' sl :
    0 < size → size * fieldSizes k < 2 ^ 31 →
    resolved_shape off
      (Field (TyTok "typedarray") size le (Some (size * fieldSizes k)) (Some off)
             (TypedArrayView k le') sl)
      (size * fieldSizes k)
| shape_stringarray size le ctor l :
    0 ≤ l → 0 < size →
    resolved_shape off
      (Field (TyTok "stringarray") size le (Some (size * l)) (Some off) ctor (Some l))
      (size * l)
| shape_array size le c sl :
    resolved c = true → 0 < size →
    resolved_shape off
      (Field (TyTok "array") size le (Some (size * objectLength c)) (Some off)
             (ArrayView c) sl)
      (size * objectLength c)
| shape_object size le c sl :
    resolved c = true →
    resolved_shape off
      (Field (TyTok "object") size le (Some (objectLength c)) (Some off)
             (ObjectViewClass c) sl)
      (objectLength c).

(** The entries (name, descriptor, start, byte length) of a resolved
    schema. *)
Inductive entry_of : schema_t → Z → string → field → Z → Z → Prop :=
| entry_here name f rest off len :
    resolved_field f off = Some len →
    entry_of (SCons name f rest) off name f off len
| entry_later name0 f0 rest off0 len0 name f off len :
    resolved_field f0 off0 = Some len0 →
    entry_of rest (off0 + len0) name f off len →
    entry_of (SCons name0 f0 rest) off0 name f off len.

(** A class as a program declares it: distinct field names; a numeric
    field with a size that keeps the byte length of its typed array below
    2^31; a string field with its byte length; a nested class that is
    itself as declared, or that an earlier use has resolved. *)
Fixpoint declared (c : klass) : bool :=
  match c with
  | Klass s fs n init =>
      if init then resolved (Klass s fs n init)
      else bool_decide (NoDup (keys s)) && declared_schema s
  end
with declared_schema (s : schema_t) : bool :=
  match s with
  | SNil => true
  | SCons _ f rest => declared_field f && declared_schema rest
  end
with declared_field (f : field) : bool :=
  match f with
  | Field type size _ length _ _ _ =>
      (0 <=? size) &&
      match type with
      | TyTok tok =>
          match numkind_of tok with
          | Some k => size * fieldSizes k <? 2 ^ 31
          | None =>
              String.eqb tok "string" &&
              match length with Some l => 0 <=? l | None => false end
          end
      | TyClass c => declared c
      end
  end.

(** Writing a resolved descriptor changes at most the bytes of the field. *)
Definition field_touches (f : field) : Prop :=
  ∀ off len this x v L,
    resolved_field f off = Some len → view_ok this L →
    touches (setField this f v (Some x)) L (byteOffset this + x + off) len.

Definition fields_touch (c : klass) : Prop :=
  ∀ f, f ∈ descriptors (schema c) → field_touches f.

(** The declared size and the stride of an array-typed descriptor: a
    typed array of numbers or an array of structs. *)
Definition array_stride (f : field) : option (Z * Z) :=
  match field_type f, field_ctor f with
  | TyTok tok, TypedArrayView k _ =>
      if String.eqb tok "typedarray" then Some (field_size f, fieldSizes k) else None
  | TyTok tok, ArrayView c =>
      if String.eqb tok "array" then Some (field_size f, objectLength c) else None
  | _, _ => None
  end.

(** The inner loop of [setArray]: every field of the element class is
    written from the element [e], at [position]. *)
Definition setElement (this : DataView) (c : klass) (e : value) (position : pos) : proc :=
  for_each (λ name, eval (js_prop e name) (λ y, setValue this name y (schema c) position))
           (keys (schema c)).


Definition is_int_kind (k : numkind) : bool :=
  match k with
  | Int8 | Uint8 | Int16 | Uint16 | Int32 | Uint32 => true
  | _ => false
  end.

(** A Unicode scalar value: a code point that is not a surrogate. *)
Definition is_scalar (c : Z) : Prop :=
  0 ≤ c < 0xD800 ∨ 0xE000 ≤ c ≤ 0x10FFFF.

(** A string that survives the trip through a field: scalar values, no
    U+0000 (the padding), no leading byte order mark. *)
Definition plain_string (s : list Z) : Prop :=
  Forall is_scalar s ∧ Forall (λ c, c ≠ 0) s ∧ head s ≠ Some 0xFEFF.

(** The bytes a view shows: its window of the buffer. *)
Definition view_bytes (w : View) (heap : list (list Z)) : list Z :=
  match heap !! view_buffer w with
  | Some b => slice b (view_byteOffset w) (view_length w)
  | None => []
  end.

(** Modelled from the spec: a store through a view, whose classes
    (lib/string-view.js, lib/array-view.js, lib/typed-array-view.js) are
    not among the sources.  A view is "a window, never an owner of the
    underlying buffer": every setter of a view (a DataView setter, an
    element store of a Uint8Array) stores bytes [bs] at [byteOffset + i]
    of the buffer of the view. *)
Definition view_write (w : View) (i : Z) (bs : list Z) (heap : list (list Z))
  : list (list Z) :=
  match heap !! view_buffer w with
  | Some b => <[view_buffer w := write_at b (view_byteOffset w + i) bs]> heap
  | None => heap
  end.

(** A composite field: not a number. *)
Definition composite (f : field) : bool :=
  match field_type f with
  | TyTok tok => match numkind_of tok with Some _ => false | None => true end
  | TyClass _ => true
  end.

(** A value a numeric field of kind [k] holds exactly: reading the bytes
    the setter stores gives the value back. *)
Definition number_fits (k : numkind) (le : bool) (v : value) : Prop :=
  ∃ bs, number_bytes k le v = inr bs ∧ bytes_number k le bs = v.

(** A string a field of [len] bytes holds exactly. *)
Definition string_fits (len : Z) (v : value) : Prop :=
  ∃ s, v = VStr s ∧ plain_string s ∧ Z.of_nat (length (utf8_encode s)) ≤ len.

(** [full_class c m]: the object [m] has exactly the fields of the
    resolved class [c], and every field has the exact shape of its
    descriptor: a number or a string the field holds exactly, an array of
    exactly the declared size, a nested object of the nested class. *)
Fixpoint full_class (c : klass) (m : gmap string value) : Prop :=
  match c with
  | Klass s _ _ _ => full_schema s m ∧ ∀ name, is_Some (m !! name) → name ∈ keys s
  end
with full_schema (s : schema_t) (m : gmap string value) : Prop :=
  match s with
  | SNil => True
  | SCons name f rest =>
      (∃ v, m !! name = Some v ∧ full_field f v) ∧ full_schema rest m
  end
with full_field (f : field) (v : value) : Prop :=
  match f with
  | Field type size le length _ ctor stringLength =>
      match type with
      | TyTok tok =>
          match numkind_of tok with
          | Some k => number_fits k le v
          | None =>
              if String.eqb tok "string" then string_fits (default 0 length) v
              else if String.eqb tok "typedarray" then
                match ctor with
                | TypedArrayView k le' =>
                    ∃ l, v = VArr l ∧ Z.of_nat (List.length l) = size ∧
                         Forall (number_fits k le') l
                | _ => False
                end
              else if String.eqb tok "stringarray" then
                ∃ l, v = VArr l ∧ Z.of_nat (List.length l) = size ∧
                     Forall (string_fits (default 0 stringLength)) l
              else if String.eqb tok "array" then
                match ctor with
                | ArrayView c =>
                    ∃ l, v = VArr l ∧ Z.of_nat (List.length l) = size ∧
                         Forall (λ e, ∃ m, e = VObj m ∧ full_class c m) l
                | _ => False
                end
              else if String.eqb tok "object" then
                match ctor with
                | ObjectViewClass c => ∃ m, v = VObj m ∧ full_class c m
                | _ => False
                end
              else False
          end
      | TyClass _ => False
      end
  end.

(** What was written at [lo .. lo + len) reads back as [v], whatever the
    rest of the buffer becomes. *)
Definition reads_back {A} (read : list Z → res A) (v : A) (lo len : Z) (b : list Z) : Prop :=
  ∀ b', agree_on (region lo len) b b' → read b' = inr v.

(** The result of writing a value and what reading it back needs. *)
Definition written {A} (write : proc) (read : list Z → res A) (v : A)
    (lo len : Z) (b : list Z) : Prop :=
  ∃ b', write b = (b', None) ∧ frame b b' lo len ∧ reads_back read v lo len b'.

(** The integers of a kind: the range of the getter. *)
Definition in_range (k : numkind) (z : Z) : Prop :=
  match k with
  | Int8 => -2 ^ 7 ≤ z < 2 ^ 7
  | Uint8 => 0 ≤ z < 2 ^ 8
  | Int16 => -2 ^ 15 ≤ z < 2 ^ 15
  | Uint16 => 0 ≤ z < 2 ^ 16
  | Int32 => -2 ^ 31 ≤ z < 2 ^ 31
  | Uint32 => 0 ≤ z < 2 ^ 32
  | BigInt64 => -2 ^ 63 ≤ z < 2 ^ 63
  | BigUint64 => 0 ≤ z < 2 ^ 64
  | Float32 | Float64 => False
  end.

(** Every field of the class written from [m], absent fields as
    [undefined]. *)
Definition write_fields (this : DataView) (c : klass) (m : gmap string value)
    (position : pos) : proc :=
  for_each (λ name, setValue this name (default VUndef (m !! name)) (schema c) position)
           (keys (schema c)).

Definition field_round_trips (f : field) : Prop :=
  ∀ off len this x v b,
    resolved_field f off = Some len → view_ok this (length b) →
    0 ≤ x + off → x + off + len ≤ byteLength this →
    full_field f v →
    written (setField this f v (Some x)) (λ b, getField this b f (Some x)) v
            (byteOffset this + x + off) len b.

Definition class_round_trips (c : klass) : Prop :=
  ∀ this x m b,
    resolved c = true → view_ok this (length b) →
    0 ≤ x → x + objectLength c ≤ byteLength this →
    full_class c m →
    written (write_fields this c m (Some x))
            (λ b, getObject this b (schema c) (Some x) ∅) m
            (byteOffset this + x) (objectLength c) b.

(** Reading a resolved descriptor from a view that contains it returns,
    and what it returns depends on the bytes of the field only. *)
Definition field_reads (f : field) : Prop :=
  ∀ off len this x b,
    resolved_field f off = Some len → view_ok this (length b) →
    0 ≤ x + off → x + off + len ≤ byteLength this →
    ∃ v, reads_back (λ b, getField this b f (Some x)) v
                    (byteOffset this + x + off) len b.

(** Reading a struct returns an object with the keys of the schema, each
    holding what reading its field returns. *)
Definition class_reads (c : klass) : Prop :=
  ∀ this x b,
    resolved c = true → view_ok this (length b) →
    0 ≤ x → x + objectLength c ≤ byteLength this →
    ∃ m, reads_back (λ b, getObject this b (schema c) (Some x) ∅) m
                    (byteOffset this + x) (objectLength c) b ∧
         (∀ name, is_Some (m !! name) ↔ name ∈ keys (schema c)) ∧
         (∀ name f off len,
            entry_of (schema c) 0 name f off len →
            ∃ v, m !! name = Some v ∧
                 reads_back (λ b, getField this b f (Some x)) v
                            (byteOffset this + x + off) len b).

(** The value of an integer field: a BigInt for the 64-bit kinds, a Number
    for the others. *)
Definition int_value (k : numkind) (z : Z) : value :=
  match k with
  | BigInt64 | BigUint64 => VBig z
  | _ => VNum (Number.of_Z z)
  end.


(** A field that holds an array: a typed array, an array of structs or an
    array of strings. *)
Definition array_field (f : field) : bool :=
  match field_type f with
  | TyTok tok =>
      String.eqb tok "typedarray" || String.eqb tok "array" || String.eqb tok "stringarray"
  | TyClass _ => false
  end.

End Properties.

(** * Example classes and objects *)

(** The examples convert no string to a number and no number to a string:
    the instance answers every conversion as for a string that denotes no
    number. *)
#[local] Instance no_numerals : Platform :=
  {| StringToNumber _ := Number.NaN; StringToBigInt _ := None; ToString _ := [] |}.

(** [class Person extends ObjectView {}
     Person.schema = { id: { type: 'uint32' }, name: { type: 'string', length: 10 } }] *)
Definition Person : klass :=
  class_of (SCons "id" (declare (TyTok "uint32") 0 false None)
           (SCons "name" (declare (TyTok "string") 0 false (Some 10)) SNil)).

(** [Pet.schema = { age: { type: 'uint8' }, legs: { type: 'uint8' } }] *)
Definition Pet : klass :=
  class_of (SCons "age" (declare (TyTok "uint8") 0 false None)
           (SCons "legs" (declare (TyTok "uint8") 0 false None) SNil)).

(** [House.schema = { owner: { type: Person }, rooms: { type: 'uint8', size: 3 },
                      pets: { type: Pet, size: 2 },
                      tags: { type: 'string', size: 2, length: 4 } }] *)
Definition House : klass :=
  class_of (SCons "owner" (declare (TyClass Person) 0 false None)
           (SCons "rooms" (declare (TyTok "uint8") 3 false None)
           (SCons "pets" (declare (TyClass Pet) 2 false None)
           (SCons "tags" (declare (TyTok "string") 2 false (Some 4)) SNil)))).

(** [Bad.schema = { a: { type: 'uint8' }, b: { type: 'bogus' }, c: { type: 'uint8' } }] *)
Definition Bad : klass :=
  class_of (SCons "a" (declare (TyTok "uint8") 0 false None)
           (SCons "b" (declare (TyTok "bogus") 0 false None)
           (SCons "c" (declare (TyTok "uint8") 0 false None) SNil))).

(** The class as the first [getLength] leaves it. *)
Definition resolve (c : klass) : klass := (getLength c).1.

(** The Number of an integer literal. *)
Definition num (z : Z) : value := VNum (Number.of_Z z).

(** [{ id: 1, name: 'Arthur' }] *)
Definition arthur : gmap string value :=
  {[ "id" := num 1; "name" := VStr [65; 114; 116; 104; 117; 114] ]}.

(** [{ owner: arthur, rooms: [9, 12, 7],
       pets: [{ age: 3, legs: 4 }, { age: 1, legs: 2 }], tags: ['ab', 'c'] }] *)
Definition home : gmap string value :=
  {[ "owner" := VObj arthur;
     "rooms" := VArr [num 9; num 12; num 7];
     "pets" := VArr [VObj {[ "age" := num 3; "legs" := num 4 ]};
                     VObj {[ "age" := num 1; "legs" := num 2 ]}];
     "tags" := VArr [VStr [97; 98]; VStr [99]] ]}.

(** The bytes of [House.from(home)]. *)
Definition home_bytes : list Z :=
  [0; 0; 0; 1; 65; 114; 116; 104; 117; 114; 0; 0; 0; 0; 9; 12; 7; 3; 4; 1; 2;
   97; 98; 0; 0; 99; 0; 0; 0].

(** A House over the whole of buffer 0, and a Person likewise. *)
Definition house_view : ObjectView :=
  {| buffer := 0; window := {| byteOffset := 0; byteLength := 29 |};
     constructor := resolve House |}.

Definition person_view : ObjectView :=
  {| buffer := 0; window := {| byteOffset := 0; byteLength := 14 |};
     constructor := resolve Person |}.

(** Descriptors of the resolved classes. *)
Definition owner_field : field :=
  Field (TyTok "object") 0 false (Some 14) (Some 0) (ObjectViewClass (resolve Person)) None.
Definition rooms_field : field :=
  Field (TyTok "typedarray") 3 false (Some 3) (Some 14) (TypedArrayView Uint8 false) None.
Definition pets_field : field :=
  Field (TyTok "array") 2 false (Some 4) (Some 17) (ArrayView (resolve Pet)) None.
Definition name_field : field :=
  Field (TyTok "string") 0 false (Some 10) (Some 4) NoCtor None.


(** Further descriptors of the resolved classes. *)
Definition tags_field : field :=
  Field (TyTok "stringarray") 2 false (Some 8) (Some 21) NoCtor (Some 4).
Definition id_field : field :=
  Field (TyTok "uint32") 0 false (Some 4) (Some 0) NoCtor None.

(** The bytes of [Person.from({ id: 2, name: 'Ford' })]. *)
Definition ford_bytes : list Z := [0; 0; 0; 2; 70; 111; 114; 100; 0; 0; 0; 0; 0; 0].

(** A Person over the first 14 bytes of the buffer of a House, a Person
    whose window has 2 bytes only, and a Person over the whole of buffer 1. *)
Definition owner_window : ObjectView :=
  {| buffer := 0; window := {| byteOffset := 0; byteLength := 14 |};
     constructor := resolve Person |}.
Definition short_view : ObjectView :=
  {| buffer := 0; window := {| byteOffset := 0; byteLength := 2 |};
     constructor := resolve Person |}.
Definition ford_view : View :=
  {| view_class_of := CtorView (ObjectViewClass (resolve Person));
     view_buffer := 1; view_byteOffset := 0; view_length := 14 |}.
Definition owner_view : View :=
  {| view_class_of := CtorView (ObjectViewClass (resolve Person));
     view_buffer := 0; view_byteOffset := 0; view_length := 14 |}.

(** * Properties of the embedding *)

Example utf8_encode_smiley :
  utf8_encode [97; 98; 99; 0x1F600; 97] = [97; 98; 99; 240; 159; 152; 128; 97].
Proof. reflexivity. Qed.

Example utf8_decode_smiley :
  utf8_decode [97; 98; 99; 240; 159; 152; 128; 97] = [97; 98; 99; 0x1F600; 97].
Proof. reflexivity. Qed.

Example to_f32_one : Number.to_f32 (Number.of_Z 1) = 0x3F800000.
Proof. reflexivity. Qed.

Example of_f32_one : Number.of_f32 0x3F800000 = Number.of_Z 1.
Proof. reflexivity. Qed.

Example trunc_of_Z : Number.trunc (Number.of_Z (-300)) = -300.
Proof. reflexivity. Qed.

(** * Schema resolution *)

Section Resolution.



Lemma getLength_unfold (k : klass) :
  getLength k =
    if isInitialized k then (k, inr (objectLength k))
    else match initialize k with
         | (k', Some e) => (k', inl e)
         | (k', None) => (k', inr (objectLength k'))
         end.
Proof.
  destruct k as [s fs n i]; simpl. destruct i; [done|].
  unfold initialize; simpl. by destruct (initialize_schema s 0) as [s' [e|m]].
Qed.

Lemma numkind_of_string : numkind_of "string" = None.
Proof. reflexivity. Qed.







(** ** Failure of resolution *)

Lemma initialize_field_errors f off :
  (∀ c, field_type f = TyClass c → fails_invalid (getLength c)) →
  fails_invalid (initialize_field f off).
Proof.
  destruct f as [t sz le l st ct sl]; simpl. intros IH e.
  destruct t as [tok|c].
  - destruct (numkind_of tok).
    + destruct (negb (sz =? 0)); done.
    + destruct (String.eqb tok "string"); [destruct (negb (sz =? 0)); done|].
      simpl. intros [= <-]. eauto.
  - specialize (IH c eq_refl).
    destruct (getLength c) as [c' [e'|n]] eqn:Hc;
      destruct (negb (sz =? 0)); simpl; intros [= <-]; eauto.
Qed.

Lemma initialize_schema_errors s : ∀ off,
  (∀ f c, f ∈ descriptors s → field_type f = TyClass c → fails_invalid (getLength c)) →
  fails_invalid (initialize_schema s off).
Proof.
  induction s as [|name f rest IH]; intros off Hc e; simpl; [done|].
  destruct (initialize_field f off) as [f' [e'|len]] eqn:Hf.
  - simpl. intros [= <-].
    eapply (initialize_field_errors f off); [|by rewrite Hf].
    intros c Ht. eapply Hc; [|done]. simpl. left.
  - destruct (initialize_schema rest (off + len)) as [rest' r] eqn:Hr.
    simpl. intros ->. eapply (IH (off + len)); [|by rewrite Hr].
    intros g c Hg. apply Hc. simpl. by right.
Qed.

Lemma getLength_errors k : fails_invalid (getLength k).
Proof.
  apply (klass_mut
    (λ k, fails_invalid (getLength k))
    (λ s, ∀ f c, f ∈ descriptors s → field_type f = TyClass c → fails_invalid (getLength c))
    (λ f, ∀ c, field_type f = TyClass c → fails_invalid (getLength c))
    (λ t, ∀ c, t = TyClass c → fails_invalid (getLength c))
    (λ _, True)); try done.
  - intros s IH fs n i e. simpl. destruct i; [done|].
    pose proof (initialize_schema_errors s 0 IH) as Hs.
    destruct (initialize_schema s 0) as [s' [e'|m]]; simpl; [|done].
    intros [= <-]. by apply Hs.
  - intros f c Hin. by apply elem_of_nil in Hin.
  - intros name f IHf rest IHr g c Hin. simpl in Hin.
    apply elem_of_cons in Hin as [->|Hin]; eauto.
  - intros c IH c' [= <-]. done.
Qed.

Lemma resolution_errors :
  (∀ k k' e, getLength k = (k', inl e) → ∃ tok, e = invalid_type tok) ∧
  (∀ s off s' e, initialize_schema s off = (s', inl e) → ∃ tok, e = invalid_type tok) ∧
  (∀ f off f' e, initialize_field f off = (f', inl e) → ∃ tok, e = invalid_type tok).
Proof.
  repeat split.
  - intros k k' e Hk. apply (getLength_errors k). by rewrite Hk.
  - intros s off s' e Hs. apply (initialize_schema_errors s off); [|by rewrite Hs].
    intros f c _ _. apply getLength_errors.
  - intros f off f' e Hf. apply (initialize_field_errors f off); [|by rewrite Hf].
    intros c _. apply getLength_errors.
Qed.

Lemma initialize_field_unrecognized f off tok :
  field_type f = TyTok tok → unrecognized tok →
  ∃ f', initialize_field f off = (f', inl (invalid_type tok)).
Proof.
  destruct f as [t sz le l st ct sl]; simpl. intros -> [Hk Hs].
  rewrite Hk. destruct (String.eqb tok "string") eqn:E.
  - apply String.eqb_eq in E. done.
  - eauto.
Qed.

Lemma initialize_schema_unrecognized s : ∀ off f tok,
  f ∈ descriptors s → field_type f = TyTok tok → unrecognized tok →
  ∃ s' tok', initialize_schema s off = (s', inl (invalid_type tok')).
Proof.
  induction s as [|name h rest IH]; intros off f tok; simpl.
  - intros Hin. by apply elem_of_nil in Hin.
  - intros Hin Ht Hu. apply elem_of_cons in Hin as [<-|Hin].
    + destruct (initialize_field_unrecognized f off tok Ht Hu) as [f' ->]. eauto.
    + destruct (initialize_field h off) as [h' [e|len]] eqn:Hh.
      * destruct (proj2 (proj2 resolution_errors) _ _ _ _ Hh) as [tok' ->]. eauto.
      * destruct (IH (off + len) f tok Hin Ht Hu) as (s' & tok' & ->). eauto.
Qed.




(** C5: a schema with a field whose declared type is a token other than
    the numeric kinds and "string" is rejected when the class is resolved:
    [getLength] throws the invalid-type TypeError and the class stays
    unresolved. *)
Theorem getLength_rejects_unrecognized (k : klass) (f : field) (tok : string) :
  isInitialized k = false →
  f ∈ descriptors (schema k) →
  field_type f = TyTok tok →
  unrecognized tok →
  ∃ k' tok', getLength k = (k', inl (invalid_type tok')) ∧ isInitialized k' = false.
Proof.
  destruct k as [s fs m i]; simpl. intros -> Hin Ht Hu.
  destruct (initialize_schema_unrecognized s 0 f tok Hin Ht Hu) as (s' & tok' & ->).
  eauto.
Qed.

End Resolution.

(** * Buffers: writes, slices and frames *)

Section Buffers.

Implicit Types (b bs : list Z) (i n lo : Z) (j : nat).

Lemma length_write_at b i bs :
  0 ≤ i → i + Z.of_nat (length bs) ≤ Z.of_nat (length b) →
  length (write_at b i bs) = length b.
Proof.
  intros Hi Hn. unfold write_at.
  rewrite !length_app, length_take, length_drop. lia.
Qed.

Lemma lookup_write_at_outside b i bs j :
  0 ≤ i →
  i + Z.of_nat (length bs) ≤ Z.of_nat (length b) →
  (Z.of_nat j < i ∨ i + Z.of_nat (length bs) ≤ Z.of_nat j) →
  write_at b i bs !! j = b !! j.
Proof.
  intros Hi Hn Hj. unfold write_at. destruct Hj as [Hj|Hj].
  - rewrite lookup_app_l by (rewrite length_take; lia).
    apply lookup_take_lt. lia.
  - rewrite lookup_app_r by (rewrite length_take; lia).
    rewrite lookup_app_r by (rewrite length_take; lia).
    rewrite lookup_drop, length_take. f_equal. lia.
Qed.

Lemma lookup_write_at_inside b i bs j :
  0 ≤ i →
  i + Z.of_nat (length bs) ≤ Z.of_nat (length b) →
  (j < length bs)%nat →
  write_at b i bs !! (Z.to_nat i + j)%nat = bs !! j.
Proof.
  intros Hi Hn Hj. unfold write_at.
  rewrite lookup_app_r by (rewrite length_take; lia).
  rewrite length_take.
  replace (Z.to_nat i + j - Z.to_nat i `min` length b)%nat with j by lia.
  by apply lookup_app_l.
Qed.

Lemma slice_write_at b i bs :
  0 ≤ i →
  i + Z.of_nat (length bs) ≤ Z.of_nat (length b) →
  slice (write_at b i bs) i (Z.of_nat (length bs)) = bs.
Proof.
  intros Hi Hn. unfold slice, write_at.
  rewrite drop_app_length' by (rewrite length_take; lia).
  rewrite Nat2Z.id. apply take_app_length.
Qed.

Lemma slice_ext b b' i n :
  0 ≤ i →
  (∀ j, i ≤ Z.of_nat j < i + n → b' !! j = b !! j) →
  slice b' i n = slice b i n.
Proof.
  intros Hi Hj. unfold slice. apply list_eq. intros k.
  destruct (decide (k < Z.to_nat n)%nat) as [Hk|Hk].
  - rewrite !lookup_take_lt, !lookup_drop by done. apply Hj. lia.
  - rewrite !lookup_take_ge by lia. done.
Qed.

Lemma length_slice b i n :
  0 ≤ i → 0 ≤ n → i + n ≤ Z.of_nat (length b) →
  Z.of_nat (length (slice b i n)) = n.
Proof.
  intros. unfold slice. rewrite length_take, length_drop. lia.
Qed.

Lemma frame_refl b lo n : frame b b lo n.
Proof. by split. Qed.

Lemma frame_trans b1 b2 b3 lo n :
  frame b1 b2 lo n → frame b2 b3 lo n → frame b1 b3 lo n.
Proof.
  intros [Hl1 H1] [Hl2 H2]. split; [congruence|].
  intros j Hj. rewrite H2, H1; done.
Qed.

Lemma frame_mono b b' lo n lo' n' :
  lo' ≤ lo → lo + n ≤ lo' + n' → frame b b' lo n → frame b b' lo' n'.
Proof.
  intros H1 H2 [Hl H]. split; [done|]. intros j Hj. apply H. lia.
Qed.

Lemma frame_empty b b' lo n : n ≤ 0 → frame b b' lo n → b' = b.
Proof.
  intros Hn [Hl H]. apply list_eq. intros j. apply H. lia.
Qed.

Lemma frame_write_at b i bs :
  0 ≤ i → i + Z.of_nat (length bs) ≤ Z.of_nat (length b) →
  frame b (write_at b i bs) i (Z.of_nat (length bs)).
Proof.
  intros Hi Hn. split; [by apply length_write_at|].
  intros j Hj. by apply lookup_write_at_outside.
Qed.

Lemma frame_write_at_len b i bs n :
  Z.of_nat (length bs) = n → 0 ≤ i → i + n ≤ Z.of_nat (length b) →
  frame b (write_at b i bs) i n.
Proof. intros <- ? ?. by apply frame_write_at. Qed.

Lemma slice_write_at_len b i bs n :
  Z.of_nat (length bs) = n → 0 ≤ i → i + n ≤ Z.of_nat (length b) →
  slice (write_at b i bs) i n = bs.
Proof. intros <- ? ?. by apply slice_write_at. Qed.

Lemma frame_slice b b' lo n i m :
  frame b b' lo n → 0 ≤ i → (i + m ≤ lo ∨ lo + n ≤ i) →
  slice b' i m = slice b i m.
Proof.
  intros [_ H] Hi Hd. apply slice_ext; [done|]. intros j Hj. apply H. lia.
Qed.

Lemma touches_skip L lo n : touches skip L lo n.
Proof. intros b b' r _ [= <- _]. apply frame_refl. Qed.

Lemma touches_throw e L lo n : touches (throw e) L lo n.
Proof. intros b b' r _ [= <- _]. apply frame_refl. Qed.

Lemma touches_seq p q L lo n :
  touches p L lo n → touches q L lo n → touches (seq p q) L lo n.
Proof.
  intros Hp Hq b b' r Hb. unfold seq.
  destruct (p b) as [b1 [e|]] eqn:E.
  - intros [= <- _]. by eapply Hp.
  - intros Hqb. pose proof (Hp _ _ _ Hb E) as F1.
    eapply frame_trans; [done|]. eapply Hq; [|done].
    destruct F1 as [-> _]. done.
Qed.

Lemma touches_eval {A} (x : res A) (k : A → proc) L lo n :
  (∀ a, x = inr a → touches (k a) L lo n) → touches (eval x k) L lo n.
Proof.
  intros Hk. destruct x as [e|a]; simpl; [apply touches_throw|]. by apply Hk.
Qed.

Lemma touches_for_each {A} (body : A → proc) (l : list A) L lo n :
  (∀ x, x ∈ l → touches (body x) L lo n) → touches (for_each body l) L lo n.
Proof.
  induction l as [|x l IH]; intros Hb; simpl; [apply touches_skip|].
  apply touches_seq.
  - apply Hb. left.
  - apply IH. intros y Hy. apply Hb. by right.
Qed.

Lemma touches_mono p L lo n lo' n' :
  lo' ≤ lo → lo + n ≤ lo' + n' → touches p L lo n → touches p L lo' n'.
Proof.
  intros H1 H2 Hp b b' r Hb E. eapply frame_mono; [done..|]. by eapply Hp.
Qed.

(** A procedure that only looks at the length of the buffer before it
    picks what to run. *)
Lemma touches_by_length (f : list Z → proc) L lo n :
  (∀ b, length b = L → touches (f b) L lo n) → touches (λ b, f b b) L lo n.
Proof. intros Hf b b' r Hb E. by eapply Hf. Qed.

Lemma agree_on_refl keep b : agree_on keep b b.
Proof. by split. Qed.

Lemma agree_on_trans keep b1 b2 b3 :
  agree_on keep b1 b2 → agree_on keep b2 b3 → agree_on keep b1 b3.
Proof.
  intros [Hl1 H1] [Hl2 H2]. split; [congruence|].
  intros j Hj. rewrite H2, H1; done.
Qed.

Lemma agree_on_sym keep b1 b2 : agree_on keep b1 b2 → agree_on keep b2 b1.
Proof. intros [Hl H1]. split; [done|]. intros j Hj. by rewrite H1. Qed.

Lemma agree_on_weaken (keep keep' : nat → Prop) b b' :
  (∀ j, keep' j → keep j) → agree_on keep b b' → agree_on keep' b b'.
Proof. intros Hk [Hl H1]. split; [done|]. intros j Hj. apply H1, Hk, Hj. Qed.

Lemma agree_on_slice b b' lo n :
  0 ≤ lo → agree_on (region lo n) b b' → slice b' lo n = slice b lo n.
Proof. intros Hlo [_ H1]. apply slice_ext; [done|]. intros j Hj. by apply H1. Qed.

Lemma frame_agree_on b b' lo n keep :
  (∀ j, keep j → Z.of_nat j < lo ∨ lo + n ≤ Z.of_nat j) →
  frame b b' lo n → agree_on keep b b'.
Proof. intros Hk [Hl H1]. split; [done|]. intros j Hj. apply H1, Hk, Hj. Qed.

Lemma respects_skip L keep : respects skip L keep.
Proof. intros b b' r _ [= <- _]. apply agree_on_refl. Qed.

Lemma respects_throw e L keep : respects (throw e) L keep.
Proof. intros b b' r _ [= <- _]. apply agree_on_refl. Qed.

Lemma respects_seq p q L keep :
  respects p L keep → respects q L keep → respects (seq p q) L keep.
Proof.
  intros Hp Hq b b' r Hb. unfold seq.
  destruct (p b) as [b1 [e|]] eqn:E.
  - intros [= <- _]. by eapply Hp.
  - intros Hqb. pose proof (Hp _ _ _ Hb E) as F1.
    eapply agree_on_trans; [done|]. eapply Hq; [|done].
    destruct F1 as [-> _]. done.
Qed.

Lemma respects_eval {A} (x : res A) (k : A → proc) L keep :
  (∀ a, x = inr a → respects (k a) L keep) → respects (eval x k) L keep.
Proof.
  intros Hk. destruct x as [e|a]; simpl; [apply respects_throw|]. by apply Hk.
Qed.

Lemma respects_for_each {A} (body : A → proc) (l : list A) L keep :
  (∀ x, x ∈ l → respects (body x) L keep) → respects (for_each body l) L keep.
Proof.
  induction l as [|x l IH]; intros Hb; simpl; [apply respects_skip|].
  apply respects_seq.
  - apply Hb. left.
  - apply IH. intros y Hy. apply Hb. by right.
Qed.

Lemma touches_respects p L lo n keep :
  (∀ j, keep j → Z.of_nat j < lo ∨ lo + n ≤ Z.of_nat j) →
  touches p L lo n → respects p L keep.
Proof.
  intros Hk Hp b b' r Hb E. eapply frame_agree_on; [done|]. by eapply Hp.
Qed.

(** A loop that returns has run every iteration: what one iteration
    establishes and the others preserve holds at the end. *)
Lemma for_each_establishes {A} (body : A → proc) (l : list A)
    (I Q : list Z → Prop) (x0 : A) :
  x0 ∈ l →
  (∀ y b b' r, y ∈ l → I b → body y b = (b', r) → I b') →
  (∀ b b', I b → body x0 b = (b', None) → Q b') →
  (∀ y b b', y ∈ l → I b → Q b → body y b = (b', None) → Q b') →
  ∀ b b', I b → for_each body l b = (b', None) → Q b'.
Proof.
  intros Hin HI Hx HQ.
  assert (Hkeep : ∀ l', (∀ y, y ∈ l' → y ∈ l) →
            ∀ b b', I b → Q b → for_each body l' b = (b', None) → Q b').
  { induction l' as [|y l' IH]; intros Hsub b b' Ib Qb; simpl.
    - by intros [= <-].
    - unfold seq. destruct (body y b) as [b1 [e|]] eqn:E; [done|].
      intros Hrest. eapply (IH ltac:(intros z Hz; apply Hsub; by right) b1).
      + eapply HI; [|done..]. apply Hsub. left.
      + eapply HQ; [|done..]. apply Hsub. left.
      + done. }
  assert (Hgo : ∀ l', (∀ y, y ∈ l' → y ∈ l) → x0 ∈ l' →
            ∀ b b', I b → for_each body l' b = (b', None) → Q b').
  { induction l' as [|y l' IH]; intros Hsub Hx0 b b' Ib; simpl.
    - by apply elem_of_nil in Hx0.
    - unfold seq. destruct (body y b) as [b1 [e|]] eqn:E; [done|].
      intros Hrest.
      assert (I b1) as Ib1 by (eapply HI; [|done..]; apply Hsub; left).
      apply elem_of_cons in Hx0 as [<-|Hx0].
      + apply (Hkeep l' ltac:(intros z Hz; apply Hsub; by right) b1 b' Ib1); [|done].
        exact (Hx b b1 Ib E).
      + eapply (IH ltac:(intros z Hz; apply Hsub; by right) Hx0 b1); done. }
  intros b b'. by apply Hgo.
Qed.

End Buffers.

(** * The platform primitives *)

Section Primitives.

Context `{Platform}.

Lemma length_le_bytes n z : length (le_bytes n z) = n.
Proof. revert z. induction n as [|n IH]; intros z; simpl; [done|]. by rewrite IH. Qed.

Lemma length_int_bytes w le z : length (int_bytes w le z) = w.
Proof.
  unfold int_bytes. destruct le; [|rewrite length_reverse]; apply length_le_bytes.
Qed.

Lemma length_number_bytes k le v bs :
  number_bytes k le v = inr bs → Z.of_nat (length bs) = fieldSizes k.
Proof.
  unfold number_bytes.
  destruct k; (destruct (ToNumber v) as [e|d]; [try done|]);
    (destruct (ToBigInt v) as [e'|z]; [try done|]);
    intros [= <-]; rewrite length_int_bytes; reflexivity.
Qed.

Lemma fieldSizes_pos k : 0 < fieldSizes k.
Proof. destruct k; simpl; lia. Qed.

Lemma touches_setNumber k this (p : pos) v le L :
  view_ok this L →
  touches (setNumber k this p v le) L (byteOffset this + ToIndex p) (fieldSizes k).
Proof.
  intros (Ho & Hl & Hb). unfold setNumber.
  destruct (ToIndex p <? 0) eqn:Hi; [apply touches_throw|].
  destruct (number_bytes k le v) as [e|bs] eqn:Hbs; [apply touches_throw|].
  destruct (byteLength this <? ToIndex p + fieldSizes k) eqn:Hw; [apply touches_throw|].
  apply length_number_bytes in Hbs.
  intros b b' r HL [= <- _]. rewrite <- Hbs. apply frame_write_at; lia.
Qed.

Lemma new_window_inv b (off : pos) (len : option Z) o n :
  new_window b off len = inr (o, n) →
  o = ToIndex off ∧ 0 ≤ o ∧ 0 ≤ n ∧ o + n ≤ Z.of_nat (length b) ∧
  (∀ l, len = Some l → n = l).
Proof.
  unfold new_window. destruct (ToIndex off <? 0) eqn:Ho; [done|].
  destruct len as [l|].
  - destruct ((l <? 0) || (Z.of_nat (length b) <? ToIndex off + l)) eqn:Hl; [done|].
    intros [= <- <-]. apply orb_false_iff in Hl as [H1 H2].
    repeat split; try lia. by intros ? [= <-].
  - destruct (Z.of_nat (length b) <? ToIndex off) eqn:Hl; [done|].
    intros [= <- <-]. repeat split; try lia. done.
Qed.

Lemma new_window_length b b' off len :
  length b' = length b → new_window b' off len = new_window b off len.
Proof. intros Hl. unfold new_window. by rewrite Hl. Qed.

Lemma touches_fill0 o n L :
  0 ≤ o → 0 ≤ n → o + n ≤ Z.of_nat L → touches (fill0 (o, n)) L o n.
Proof.
  intros Ho Hn Hb b b' r HL [= <- _]. simpl.
  replace n with (Z.of_nat (length (replicate (Z.to_nat n) 0))) at 2
    by (rewrite length_replicate; lia).
  apply frame_write_at; [done|]. rewrite length_replicate. lia.
Qed.

Lemma touches_array_set o n src off L :
  0 ≤ o → 0 ≤ n → o + n ≤ Z.of_nat L → touches (array_set (o, n) src off) L o n.
Proof.
  intros Ho Hn Hb. unfold array_set. simpl.
  destruct ((off <? 0) || (n <? Z.of_nat (length src) + off)) eqn:Hc;
    [apply touches_throw|].
  apply orb_false_iff in Hc as [H1 H2].
  intros b b' r HL [= <- _].
  eapply frame_mono; [| |apply frame_write_at]; lia.
Qed.

Lemma touches_in_window (b0 : list Z) (off : pos) (len : option Z) (k : Z * Z → proc) L lo n :
  length b0 = L →
  (∀ o m, new_window b0 off len = inr (o, m) → touches (k (o, m)) L lo n) →
  touches (eval (new_window b0 off len) k) L lo n.
Proof.
  intros HL Hk. apply touches_eval. intros [o m] Hw. by apply Hk.
Qed.

Lemma touches_setString this x v l L :
  touches (setString this (Some x) v (Some l)) L (byteOffset this + x) l.
Proof.
  unfold setString. apply touches_by_length. intros b HL.
  apply touches_in_window; [done|]. intros o m Hw.
  apply new_window_inv in Hw as (Ho & ? & ? & ? & Hm). specialize (Hm l eq_refl).
  simpl in Ho. subst o m. rewrite HL in *.
  replace (byteOffset this + x) with (x + byteOffset this) by lia.
  apply touches_seq; [by apply touches_fill0|by apply touches_array_set].
Qed.

Lemma touches_setStringArray this x v size l sl L :
  touches (setStringArray this (Some x) v size (Some l) sl) L (byteOffset this + x) l.
Proof.
  unfold setStringArray. apply touches_by_length. intros b HL.
  apply touches_in_window; [done|]. intros o m Hw.
  apply new_window_inv in Hw as (Ho & ? & ? & ? & Hm). specialize (Hm l eq_refl).
  simpl in Ho. subst o m. rewrite HL in *.
  replace (byteOffset this + x) with (x + byteOffset this) by lia.
  apply touches_seq; [by apply touches_fill0|].
  apply touches_eval. intros n _. apply touches_for_each. intros i _.
  apply touches_eval. intros vi _. by apply touches_array_set.
Qed.

Lemma wrap32_small z : - 2 ^ 31 ≤ z < 2 ^ 31 → wrap32 z = z.
Proof. intros Hz. unfold wrap32. rewrite Z.mod_small; lia. Qed.

Lemma shl32_mul i k :
  0 ≤ i → 0 ≤ k < 32 → i * 2 ^ k < 2 ^ 31 → shl32 i k = i * 2 ^ k.
Proof.
  intros Hi Hk Hb. unfold shl32.
  assert (i < 2 ^ 31) by (assert (1 ≤ 2 ^ k) by (apply Z.pow_le_mono_r with (b := 0); lia); nia).
  rewrite (wrap32_small i) by lia.
  rewrite Z.mod_small by lia. rewrite Z.shiftl_mul_pow2 by lia.
  apply wrap32_small. nia.
Qed.

Lemma offset_of_width k : 2 ^ offset_of k = fieldSizes k ∧ 0 ≤ offset_of k < 32.
Proof. destruct k; vm_compute; intuition congruence. Qed.

Lemma shl32_index i k size :
  0 ≤ i < size → size * fieldSizes k < 2 ^ 31 →
  shl32 i (offset_of k) = i * fieldSizes k.
Proof.
  intros Hi Hs. destruct (offset_of_width k) as [Hw Ho].
  rewrite shl32_mul; [by rewrite Hw|lia|done|]. rewrite Hw.
  pose proof (fieldSizes_pos k). nia.
Qed.

Lemma loop_max_min size n : loop_max size (Some n) = Z.min size n.
Proof. unfold loop_max. destruct (size <? n) eqn:E; lia. Qed.

Lemma elem_of_indices i n : i ∈ indices n ↔ 0 ≤ i < n.
Proof. unfold indices. rewrite elem_of_seqZ. lia. Qed.

(** [setTypedArray] changes at most the slots it copies. *)
Lemma touches_setTypedArray this x v k le size n L :
  view_ok this L →
  size * fieldSizes k < 2 ^ 31 →
  js_length v = inr n →
  touches (setTypedArray this (Some x) v (TypedArrayView k le) size) L
          (byteOffset this + x) (Z.max 0 (loop_max size n) * fieldSizes k).
Proof.
  intros Hv Hs Hn. unfold setTypedArray. rewrite Hn. simpl.
  apply touches_for_each. intros i Hi. apply elem_of_indices in Hi.
  apply touches_eval. intros vi _.
  assert (loop_max size n ≤ size) as Hle.
  { destruct n as [m|]; [rewrite loop_max_min; lia|simpl in Hi; lia]. }
  pose proof (fieldSizes_pos k).
  eapply touches_mono; [| |by apply touches_setNumber]; simpl;
    rewrite (shl32_index i k size) by lia; nia.
Qed.

End Primitives.

(** * Resolved classes *)

Lemma resolved_field_shape f off len :
  resolved_field f off = Some len → resolved_shape off f len.
Proof.
  destruct f as [t sz le l st ct sl]; simpl.
  case_bool_decide as Hst; [subst st|done].
  destruct t as [tok|c]; [|done].
  destruct (numkind_of tok) as [k|] eqn:Hk.
  { case_bool_decide as Hl; [|done]. intros [= <-]. subst l. by constructor. }
  destruct (String.eqb tok "string") eqn:E1.
  { apply String.eqb_eq in E1 as ->. destruct l as [l|]; [|done].
    destruct (0 <=? l) eqn:Hl; [|done]. intros [= <-]. constructor. lia. }
  destruct (String.eqb tok "typedarray") eqn:E2.
  { apply String.eqb_eq in E2 as ->. destruct ct as [|k le'| |]; try done.
    destruct (0 <? sz) eqn:H1; [|done]. destruct (sz * fieldSizes k <? 2 ^ 31) eqn:H2; [|done].
    simpl. case_bool_decide as Hl; [|done]. intros [= <-]. subst l. constructor; lia. }
  destruct (String.eqb tok "stringarray") eqn:E3.
  { apply String.eqb_eq in E3 as ->. destruct sl as [l'|]; [|done].
    destruct (0 <=? l') eqn:H1; [|done]. destruct (0 <? sz) eqn:H2; [|done].
    simpl. case_bool_decide as Hl; [|done]. intros [= <-]. subst l. constructor; lia. }
  destruct (String.eqb tok "array") eqn:E4.
  { apply String.eqb_eq in E4 as ->. destruct ct as [| |c|]; try done.
    destruct (resolved c) eqn:H1; [|done]. destruct (0 <? sz) eqn:H2; [|done].
    simpl. case_bool_decide as Hl; [|done]. intros [= <-]. subst l. constructor; [done|lia]. }
  destruct (String.eqb tok "object") eqn:E5; [|done].
  apply String.eqb_eq in E5 as ->. destruct ct as [| | |c]; try done.
  destruct (resolved c) eqn:H1; [|done].
  simpl. case_bool_decide as Hl; [|done]. intros [= <-]. subst l. by constructor.
Qed.

Lemma resolved_inv c :
  resolved c = true →
  isInitialized c = true ∧ fields c = Some (keys (schema c)) ∧
  NoDup (keys (schema c)) ∧ resolved_schema (schema c) 0 (objectLength c) = true.
Proof.
  destruct c as [s fs n i]; simpl. intros Hr.
  repeat (apply andb_true_iff in Hr as [Hr ?]).
  repeat split; try done; by eapply bool_decide_eq_true_1.
Qed.

Lemma resolved_nonneg :
  ∀ c, resolved c = true → 0 ≤ objectLength c.
Proof.
  apply (klass_mut
    (λ c, resolved c = true → 0 ≤ objectLength c)
    (λ s, ∀ off total, resolved_schema s off total = true → off ≤ total)
    (λ f, ∀ off len, resolved_field f off = Some len → 0 ≤ len)
    (λ _, True)
    (λ ct, match ct with
           | ArrayView c | ObjectViewClass c => resolved c = true → 0 ≤ objectLength c
           | _ => True
           end)); try done.
  - intros s IH fs n i Hr. apply resolved_inv in Hr as (_ & _ & _ & Hs). simpl in *.
    apply IH in Hs. lia.
  - intros off total. simpl. lia.
  - intros name f IHf rest IHr off total. simpl.
    destruct (resolved_field f off) as [len|] eqn:Hf; [|done].
    intros Hr. apply IHr in Hr. apply IHf in Hf. lia.
  - intros t _ sz le l st ct IHc sl off len Hf.
    apply resolved_field_shape in Hf. inversion Hf; subst; simpl in *.
    + apply Z.lt_le_incl, fieldSizes_pos.
    + done.
    + pose proof (fieldSizes_pos k). nia.
    + nia.
    + specialize (IHc ltac:(done)). nia.
    + by apply IHc.
Qed.

Lemma resolved_field_nonneg f off len : resolved_field f off = Some len → 0 ≤ len.
Proof.
  intros Hf. apply resolved_field_shape in Hf.
  inversion Hf; subst.
  - apply Z.lt_le_incl, fieldSizes_pos.
  - done.
  - pose proof (fieldSizes_pos k). nia.
  - nia.
  - pose proof (resolved_nonneg c ltac:(done)). nia.
  - by apply resolved_nonneg.
Qed.

Lemma resolved_schema_le s : ∀ off total,
  resolved_schema s off total = true → off ≤ total.
Proof.
  induction s as [|name f rest IH]; intros off total; simpl; [lia|].
  destruct (resolved_field f off) as [len|] eqn:Hf; [|done].
  intros Hr. apply IH in Hr. apply resolved_field_nonneg in Hf. lia.
Qed.

Lemma entry_of_bounds s : ∀ off0 total name f off len,
  resolved_schema s off0 total = true →
  entry_of s off0 name f off len →
  resolved_field f off = Some len ∧ off0 ≤ off ∧ 0 ≤ len ∧ off + len ≤ total.
Proof.
  induction s as [|name0 f0 rest IH]; intros off0 total name f off len Hs He;
    inversion He as [? ? ? ? ? Hf|? ? ? ? len0 ? ? ? ? Hf0 He']; subst; simpl in Hs.
  - rewrite Hf in Hs. pose proof (resolved_schema_le _ _ _ Hs).
    pose proof (resolved_field_nonneg _ _ _ Hf). repeat split; try done; lia.
  - rewrite Hf0 in Hs. pose proof (resolved_field_nonneg _ _ _ Hf0).
    destruct (IH _ _ _ _ _ _ Hs He') as (? & ? & ? & ?). repeat split; try done; lia.
Qed.

Lemma entry_of_lookup s : ∀ off0 name f off len,
  entry_of s off0 name f off len → name ∈ keys s.
Proof.
  induction s as [|name0 f0 rest IH]; intros off0 name f off len He;
    inversion He; subst; simpl.
  - left.
  - right. eauto.
Qed.

(** Two entries with different names do not overlap. *)
Lemma entry_of_disjoint s : ∀ off0 total n1 f1 o1 l1 n2 f2 o2 l2,
  resolved_schema s off0 total = true →
  entry_of s off0 n1 f1 o1 l1 → entry_of s off0 n2 f2 o2 l2 →
  n1 ≠ n2 →
  o1 + l1 ≤ o2 ∨ o2 + l2 ≤ o1.
Proof.
  induction s as [|name0 f0 rest IH];
    intros off0 total n1 f1 o1 l1 n2 f2 o2 l2 Hs H1 H2 Hne;
    inversion H1 as [? ? ? ? ? Hf1|? ? ? ? lenA ? ? ? ? HfA H1']; subst;
    inversion H2 as [? ? ? ? ? Hf2|? ? ? ? lenB ? ? ? ? HfB H2']; subst;
    simpl in Hs.
  - done.
  - rewrite Hf1 in Hs. assert (lenB = l1) as -> by congruence.
    destruct (entry_of_bounds _ _ _ _ _ _ _ Hs H2') as (? & ? & ? & ?). left. lia.
  - rewrite Hf2 in Hs. assert (lenA = l2) as -> by congruence.
    destruct (entry_of_bounds _ _ _ _ _ _ _ Hs H1') as (? & ? & ? & ?). right. lia.
  - rewrite HfA in Hs. assert (lenB = lenA) as -> by congruence.
    eapply IH; done.
Qed.

(** Looking a name up in a resolved schema gives its entry. *)
Lemma lookup_field_entry s : ∀ off0 total name f,
  resolved_schema s off0 total = true →
  lookup_field s name = Some f →
  ∃ off len, entry_of s off0 name f off len.
Proof.
  induction s as [|name0 f0 rest IH]; intros off0 total name f; simpl; [done|].
  destruct (resolved_field f0 off0) as [len0|] eqn:Hf0; [|done].
  intros Hs. destruct (String.eqb name0 name) eqn:E.
  - apply String.eqb_eq in E as ->. intros [= <-]. exists off0, len0. by constructor.
  - intros Hl. destruct (IH _ _ _ _ Hs Hl) as (off & len & He).
    exists off, len. by econstructor.
Qed.

Lemma entry_of_lookup_field s : ∀ off0 name f off len,
  NoDup (keys s) →
  entry_of s off0 name f off len → lookup_field s name = Some f.
Proof.
  induction s as [|name0 f0 rest IH]; intros off0 name f off len Hnd He;
    inversion He; subst; simpl.
  - by rewrite String.eqb_refl.
  - apply NoDup_cons in Hnd as [Hni Hnd].
    destruct (String.eqb name0 name) eqn:E.
    + apply String.eqb_eq in E as ->. exfalso. apply Hni. by eapply entry_of_lookup.
    + eauto.
Qed.

Lemma keys_entry s : ∀ off0 total name,
  resolved_schema s off0 total = true → name ∈ keys s →
  ∃ f off len, entry_of s off0 name f off len.
Proof.
  induction s as [|name0 f0 rest IH]; intros off0 total name; simpl.
  - intros _ Hin. by apply elem_of_nil in Hin.
  - destruct (resolved_field f0 off0) as [len0|] eqn:Hf0; [|done].
    intros Hs Hin. apply elem_of_cons in Hin as [->|Hin].
    + exists f0, off0, len0. by constructor.
    + destruct (IH _ _ _ Hs Hin) as (f & off & len & He).
      exists f, off, len. by econstructor.
Qed.

(** * Declared classes resolve *)

Section Declared.

Lemma getLength_objectLength k k' n :
  getLength k = (k', inr n) → objectLength k' = n ∧ getLength k' = (k', inr n).
Proof.
  destruct k as [s fs m i]; simpl. destruct i.
  - intros [= <- <-]. done.
  - destruct (initialize_schema s 0) as [s' [e|total]]; [done|].
    intros [= <- <-]. done.
Qed.

(** [getLength] resolves a declared class: it returns, and leaves the
    class resolved. *)
Lemma getLength_resolves :
  ∀ c, declared c = true →
       ∃ c' n, getLength c = (c', inr n) ∧ resolved c' = true.
Proof.
  apply (klass_mut
    (λ c, declared c = true → ∃ c' n, getLength c = (c', inr n) ∧ resolved c' = true)
    (λ s, ∀ off, declared_schema s = true →
          ∃ s' total, initialize_schema s off = (s', inr total) ∧
                      resolved_schema s' off total = true ∧ keys s' = keys s)
    (λ f, ∀ off, declared_field f = true →
          ∃ f' len, initialize_field f off = (f', inr len) ∧
                    resolved_field f' off = Some len)
    (λ t, match t with
          | TyClass c => declared c = true →
                         ∃ c' n, getLength c = (c', inr n) ∧ resolved c' = true
          | TyTok _ => True
          end)
    (λ _, True)); try done.
  - intros s IH fs n i Hd. destruct i.
    + exists (Klass s fs n true), n. done.
    + simpl in Hd. apply andb_true_iff in Hd as [Hnd Hd].
      destruct (IH 0 Hd) as (s' & total & Hs & Hr & Hk).
      exists (Klass s' (Some (keys s)) total true), total. simpl. rewrite Hs.
      split; [done|]. rewrite Hk, Hnd, Hr. by rewrite bool_decide_eq_true_2.
  - intros off _. exists SNil, off. simpl. split; [done|]. split; [lia|done].
  - intros name f IHf rest IHr off Hd. simpl in Hd.
    apply andb_true_iff in Hd as [Hf Hd].
    destruct (IHf off Hf) as (f' & len & Hif & Hrf).
    destruct (IHr (off + len) Hd) as (s' & total & Hs & Hr & Hk).
    exists (SCons name f' s'), total. simpl. rewrite Hif, Hs, Hrf.
    split; [done|]. split; [done|]. by rewrite Hk.
  - intros t IHt sz le l st ct _ sl off Hd. simpl in Hd.
    apply andb_true_iff in Hd as [Hsz Hd]. apply Z.leb_le in Hsz.
    destruct t as [tok|c].
    + destruct (numkind_of tok) as [k|] eqn:Hk.
      * apply Z.ltb_lt in Hd. simpl. rewrite Hk.
        destruct (Z.eqb_spec sz 0) as [->|Hne]; simpl.
        -- eexists _, _. split; [done|]. simpl. rewrite Hk.
           by rewrite !bool_decide_eq_true_2.
        -- eexists _, _. split; [done|]. simpl.
           unfold TypedArrayView_getLength.
           rewrite !bool_decide_eq_true_2 by done.
           destruct (Z.ltb_spec 0 sz); [|lia].
           destruct (Z.ltb_spec (sz * fieldSizes k) (2 ^ 31)); [done|lia].
      * apply andb_true_iff in Hd as [Hs Hl]. apply String.eqb_eq in Hs as ->.
        destruct l as [l|]; [|done]. apply Z.leb_le in Hl. simpl.
        destruct (Z.eqb_spec sz 0) as [->|Hne]; simpl.
        -- eexists _, _. split; [done|]. simpl.
           rewrite bool_decide_eq_true_2 by done.
           by destruct (Z.leb_spec 0 l); [|lia].
        -- eexists _, _. split; [done|]. simpl.
           unfold StringArrayView_getLength. simpl.
           rewrite !bool_decide_eq_true_2 by done.
           destruct (Z.leb_spec 0 l); [|lia]. by destruct (Z.ltb_spec 0 sz); [|lia].
    + destruct (IHt Hd) as (c' & n & Hc & Hrc).
      pose proof (getLength_objectLength _ _ _ Hc) as [Hn _].
      simpl initialize_field. rewrite Hc.
      destruct (Z.eqb_spec sz 0) as [->|Hne]; cbn [negb].
      * eexists _, _. split; [done|]. simpl. destruct c'. simpl in *.
        rewrite Hrc, Hn. by rewrite !bool_decide_eq_true_2.
      * eexists _, _. split; [done|]. simpl. destruct c'. simpl in *.
        unfold ArrayView_getLength. simpl.
        rewrite Hrc. rewrite !bool_decide_eq_true_2 by done.
        by destruct (Z.ltb_spec 0 sz); [|lia].
Qed.


End Declared.

(** * The footprint of the write path *)

Section Footprint.

Context `{Platform}.

Lemma setValue_lookup this name v s offset :
  setValue this name v s offset =
    match lookup_field s name with
    | Some f => setField this f v offset
    | None => throw (TypeError "Cannot destructure property of undefined")
    end.
Proof.
  induction s as [|name0 f0 rest IH]; simpl; [done|].
  by destruct (String.eqb name0 name).
Qed.

(** The dispatch of [setValue] on the resolved descriptors. *)
Lemma setField_number this tok k n le len off ct sl v x :
  numkind_of tok = Some k →
  setField this (Field (TyTok tok) n le len (Some off) ct sl) v (Some x) =
  setNumber k this (Some (x + off)) v le.
Proof. intros Hk. simpl. by rewrite Hk. Qed.

Lemma setField_string this n le len off ct sl v x :
  setField this (Field (TyTok "string") n le len (Some off) ct sl) v (Some x) =
  setString this (Some (x + off)) v len.
Proof. reflexivity. Qed.

Lemma setField_typedarray this n le len off ct sl v x :
  setField this (Field (TyTok "typedarray") n le len (Some off) ct sl) v (Some x) =
  setTypedArray this (Some (x + off)) v ct n.
Proof. reflexivity. Qed.

Lemma setField_stringarray this n le len off ct sl v x :
  setField this (Field (TyTok "stringarray") n le len (Some off) ct sl) v (Some x) =
  setStringArray this (Some (x + off)) v n len sl.
Proof. reflexivity. Qed.

Lemma setField_array this n le len off c sl v x :
  setField this (Field (TyTok "array") n le len (Some off) (ArrayView c) sl) v (Some x) =
  setArray this (Some (x + off)) v (ArrayView c) n.
Proof. reflexivity. Qed.

Lemma setField_object this n le len off c sl v x :
  setField this (Field (TyTok "object") n le len (Some off) (ObjectViewClass c) sl) v (Some x) =
  setObject this (Some (x + off)) v (ObjectViewClass c).
Proof. reflexivity. Qed.

Lemma entry_of_descriptor s : ∀ off0 name f off len,
  entry_of s off0 name f off len → f ∈ descriptors s.
Proof.
  induction s as [|name0 f0 rest IH]; intros off0 name f off len He;
    inversion He; subst; simpl.
  - left.
  - right. eauto.
Qed.

Lemma touches_setValue_entry c this name v x L f off len :
  fields_touch c → resolved c = true → view_ok this L →
  entry_of (schema c) 0 name f off len →
  touches (setValue this name v (schema c) (Some x)) L (byteOffset this + x + off) len.
Proof.
  intros Hc Hr Hv He. apply resolved_inv in Hr as (_ & _ & Hnd & Hs).
  rewrite setValue_lookup, (entry_of_lookup_field _ _ _ _ _ _ Hnd He).
  destruct (entry_of_bounds _ _ _ _ _ _ _ Hs He) as (Hf & _).
  apply Hc; [|done..]. by eapply entry_of_descriptor.
Qed.

Lemma touches_setValue_class c this name v x L :
  fields_touch c → resolved c = true → view_ok this L →
  touches (setValue this name v (schema c) (Some x)) L (byteOffset this + x) (objectLength c).
Proof.
  intros Hc Hr Hv. pose proof Hr as Hr'.
  apply resolved_inv in Hr' as (_ & _ & Hnd & Hs).
  rewrite setValue_lookup. destruct (lookup_field (schema c) name) as [f|] eqn:Hl;
    [|apply touches_throw].
  destruct (lookup_field_entry _ _ _ _ _ Hs Hl) as (off & len & He).
  destruct (entry_of_bounds _ _ _ _ _ _ _ Hs He) as (Hf & ? & ? & ?).
  eapply touches_mono; [| |apply Hc; [by eapply entry_of_descriptor|done..]]; lia.
Qed.

Lemma setObject_unfold this position v c :
  setObject this position v (ObjectViewClass c) =
    match fields c with
    | None => throw (TypeError "Cannot read property 'length' of undefined")
    | Some names =>
        for_each (λ name,
          eval (Reflect_has v name) (λ present,
            if present : bool
            then eval (js_prop v name) (λ x, setValue this name x (schema c) position)
            else skip))
          names
    end.
Proof. by destruct c. Qed.

Lemma setArray_unfold this position v c size :
  setArray this position v (ArrayView c) size =
    eval (js_length v) (λ n,
      for_each (λ i,
        match fields c with
        | None => throw (TypeError "Cannot read property 'length' of undefined")
        | Some names =>
            for_each (λ name,
              eval (rbind (js_index v i) (λ vi, js_prop vi name)) (λ x,
                setValue this name x (schema c) (padd position (i * objectLength c))))
              names
        end)
        (indices (loop_max size n))).
Proof. by destruct c. Qed.

Lemma touches_setObject_class c this v x L :
  fields_touch c → resolved c = true → view_ok this L →
  touches (setObject this (Some x) v (ObjectViewClass c)) L
          (byteOffset this + x) (objectLength c).
Proof.
  intros Hc Hr Hv. rewrite setObject_unfold.
  destruct (fields c) as [names|]; [|apply touches_throw].
  apply touches_for_each. intros name _. apply touches_eval. intros present _.
  destruct present; [|apply touches_skip].
  apply touches_eval. intros y _. by apply touches_setValue_class.
Qed.

Lemma touches_setArray_class c this v x size n L :
  fields_touch c → resolved c = true → view_ok this L →
  js_length v = inr n →
  touches (setArray this (Some x) v (ArrayView c) size) L
          (byteOffset this + x) (Z.max 0 (loop_max size n) * objectLength c).
Proof.
  intros Hc Hr Hv Hn. rewrite setArray_unfold, Hn. simpl.
  pose proof (resolved_nonneg c Hr).
  apply touches_for_each. intros i Hi. apply elem_of_indices in Hi.
  destruct (fields c) as [names|]; [|apply touches_throw].
  apply touches_for_each. intros name _. apply touches_eval. intros y _. simpl.
  eapply touches_mono; [| |by apply touches_setValue_class]; nia.
Qed.

Lemma loop_max_le size n : 0 < size → Z.max 0 (loop_max size n) ≤ size.
Proof. intros. destruct n as [m|]; [rewrite loop_max_min|simpl]; lia. Qed.

Lemma touches_setArray_field c this v x size L :
  fields_touch c → resolved c = true → 0 < size → view_ok this L →
  touches (setArray this (Some x) v (ArrayView c) size) L
          (byteOffset this + x) (size * objectLength c).
Proof.
  intros Hc Hr Hs Hv. destruct (js_length v) as [e|n] eqn:Hn.
  - rewrite setArray_unfold, Hn. apply touches_throw.
  - pose proof (loop_max_le size n Hs). pose proof (resolved_nonneg c Hr).
    eapply touches_mono; [| |by apply (touches_setArray_class c this v x size n)]; nia.
Qed.

Lemma touches_setTypedArray_field k le this v x size L :
  0 < size → size * fieldSizes k < 2 ^ 31 → view_ok this L →
  touches (setTypedArray this (Some x) v (TypedArrayView k le) size) L
          (byteOffset this + x) (size * fieldSizes k).
Proof.
  intros Hs Hb Hv. destruct (js_length v) as [e|n] eqn:Hn.
  - unfold setTypedArray. rewrite Hn. apply touches_throw.
  - pose proof (loop_max_le size n Hs). pose proof (fieldSizes_pos k).
    eapply touches_mono; [| |by apply (touches_setTypedArray this x v k le size n)]; nia.
Qed.

Theorem setField_touches : ∀ f, field_touches f.
Proof.
  apply (field_mut
    (λ c, fields_touch c)
    (λ s, ∀ f, f ∈ descriptors s → field_touches f)
    field_touches
    (λ _, True)
    (λ ct, match ct with
           | ArrayView c | ObjectViewClass c => fields_touch c
           | _ => True
           end)); try done.
  - intros f Hin. by apply elem_of_nil in Hin.
  - intros name f IHf rest IHr g Hin. simpl in Hin.
    apply elem_of_cons in Hin as [->|Hin]; eauto.
  - intros t _ sz le l st ct IHc sl off len this x v L Hf Hv.
    apply resolved_field_shape in Hf.
    inversion Hf as [tok k ? ? ? ? Hk| |? ? k le' ? ? ?|
                     |? ? c ? ? ?|? ? c ? ?]; subst; simpl.
    + rewrite Hk. eapply touches_mono; [| |by apply touches_setNumber]; simpl; lia.
    + eapply touches_mono; [| |apply touches_setString]; lia.
    + eapply touches_mono; [| |by apply touches_setTypedArray_field]; lia.
    + eapply touches_mono; [| |apply touches_setStringArray]; lia.
    + eapply touches_mono; [| |by apply touches_setArray_field]; lia.
    + eapply touches_mono; [| |by apply touches_setObject_class]; lia.
Qed.

Lemma all_fields_touch c : fields_touch c.
Proof. intros f _. apply setField_touches. Qed.

(** [setObject] on a resolved class changes at most the bytes of the
    struct. *)
Lemma setObject_touches c this v x L :
  resolved c = true → view_ok this L →
  touches (setObject this (Some x) v (ObjectViewClass c)) L
          (byteOffset this + x) (objectLength c).
Proof. apply touches_setObject_class, all_fields_touch. Qed.

Lemma setValue_touches c this name v x L f off len :
  resolved c = true → view_ok this L →
  entry_of (schema c) 0 name f off len →
  touches (setValue this name v (schema c) (Some x)) L (byteOffset this + x + off) len.
Proof. apply touches_setValue_entry, all_fields_touch. Qed.

Lemma setValue_touches_class c this name v x L :
  resolved c = true → view_ok this L →
  touches (setValue this name v (schema c) (Some x)) L (byteOffset this + x) (objectLength c).
Proof. apply touches_setValue_class, all_fields_touch. Qed.

Lemma setArray_touches c this v x size n L :
  resolved c = true → view_ok this L → js_length v = inr n →
  touches (setArray this (Some x) v (ArrayView c) size) L
          (byteOffset this + x) (Z.max 0 (loop_max size n) * objectLength c).
Proof. apply touches_setArray_class, all_fields_touch. Qed.

End Footprint.

(** * Writing objects: what is written and what is kept *)

Section Merge.

Context `{Platform}.

Lemma for_each_ext {A} (body body' : A → proc) (l : list A) b :
  (∀ x b, x ∈ l → body x b = body' x b) → for_each body l b = for_each body' l b.
Proof.
  revert b. induction l as [|x l IH]; intros b Hb; simpl; [done|].
  unfold seq. rewrite Hb by left. destruct (body' x b) as [b1 [e|]]; [done|].
  apply IH. intros y b2 Hy. apply Hb. by right.
Qed.

(** [setObject] skips the names the source object does not have. *)
Lemma setObject_present_only this position (m : gmap string value) c names b :
  fields c = Some names →
  setObject this position (VObj m) (ObjectViewClass c) b =
    for_each (λ name, setValue this name (default VUndef (m !! name)) (schema c) position)
             (filter (λ name, is_Some (m !! name)) names) b.
Proof.
  intros Hf. rewrite setObject_unfold, Hf. clear Hf. revert b.
  induction names as [|name names IH]; intros b; simpl; [done|].
  rewrite filter_cons. unfold seq at 1. case_bool_decide as Hm; simpl.
  - destruct (decide (is_Some (m !! name))) as [?|[]]; [|done].
    simpl. unfold seq.
    destruct (setValue this name (default VUndef (m !! name)) (schema c) position b)
      as [b1 [e|]]; [done|]. apply IH.
  - destruct (decide (is_Some (m !! name))) as [?|?]; [done|]. apply IH.
Qed.






End Merge.

(** * Array fields *)

Section Arrays.

Context `{Platform}.

Lemma eval_inr {A} (x : A) (k : A → proc) : eval (inr x) k = k x.
Proof. reflexivity. Qed.

Lemma js_length_VArr l : js_length (VArr l) = inr (Some (Z.of_nat (length l))).
Proof. reflexivity. Qed.

Lemma loop_max_take (n : Z) (l : list value) :
  0 ≤ n →
  loop_max n (Some (Z.of_nat (length (take (Z.to_nat n) l)))) =
  loop_max n (Some (Z.of_nat (length l))).
Proof. intros Hn. rewrite !loop_max_min, length_take. lia. Qed.

Lemma js_index_take (n : Z) (l : list value) i :
  0 ≤ i < n → js_index (VArr (take (Z.to_nat n) l)) i = js_index (VArr l) i.
Proof. intros Hi. simpl. rewrite lookup_take_lt by lia. done. Qed.

Lemma setTypedArray_take this position l ct n b :
  0 ≤ n →
  setTypedArray this position (VArr (take (Z.to_nat n) l)) ct n b =
  setTypedArray this position (VArr l) ct n b.
Proof.
  intros Hn. unfold setTypedArray. rewrite !js_length_VArr. rewrite !eval_inr.
  rewrite loop_max_take by done. apply for_each_ext. intros i b0 Hi.
  apply elem_of_indices in Hi. rewrite loop_max_min in Hi.
  destruct ct; try done. rewrite js_index_take by lia. done.
Qed.

Lemma setArray_take this position l c n b :
  0 ≤ n →
  setArray this position (VArr (take (Z.to_nat n) l)) (ArrayView c) n b =
  setArray this position (VArr l) (ArrayView c) n b.
Proof.
  intros Hn. rewrite !setArray_unfold, !js_length_VArr. rewrite !eval_inr.
  rewrite loop_max_take by done. apply for_each_ext. intros i b0 Hi.
  apply elem_of_indices in Hi. rewrite loop_max_min in Hi.
  destruct (fields c) as [names|]; [|done].
  apply for_each_ext. intros name b1 _. rewrite js_index_take by lia. done.
Qed.

Lemma setArray_elements this x l c n b :
  resolved c = true →
  setArray this (Some x) (VArr l) (ArrayView c) n b =
  for_each (λ i, setElement this c (default VUndef (l !! Z.to_nat i))
                            (Some (x + i * objectLength c)))
           (indices (Z.min n (Z.of_nat (length l)))) b.
Proof.
  intros Hr. apply resolved_inv in Hr as (_ & Hf & _).
  rewrite setArray_unfold, js_length_VArr, Hf. rewrite !eval_inr. rewrite loop_max_min.
  apply for_each_ext. intros i b0 _. done.
Qed.

Lemma touches_setElement this c e x L :
  resolved c = true → view_ok this L →
  touches (setElement this c e (Some x)) L (byteOffset this + x) (objectLength c).
Proof.
  intros Hr Hv. unfold setElement. apply touches_for_each. intros name _.
  apply touches_eval. intros y _. by apply setValue_touches_class.
Qed.

Lemma setNumber_success k this p v le b b' :
  view_ok this (length b) →
  setNumber k this (Some p) v le b = (b', None) →
  ∃ bs, number_bytes k le v = inr bs ∧ 0 ≤ p ∧ p + fieldSizes k ≤ byteLength this ∧
        b' = write_at b (byteOffset this + p) bs.
Proof.
  intros Hv. unfold setNumber, throw. change (ToIndex (Some p)) with p.
  destruct (p <? 0) eqn:Hp; [done|].
  destruct (number_bytes k le v) as [e|bs]; [done|].
  destruct (byteLength this <? p + fieldSizes k) eqn:Hw; [done|].
  intros [= <-]. exists bs. repeat split; try done; lia.
Qed.

Lemma setNumber_slice k this p v le b b' :
  view_ok this (length b) →
  setNumber k this (Some p) v le b = (b', None) →
  ∃ bs, number_bytes k le v = inr bs ∧ 0 ≤ p ∧
        slice b' (byteOffset this + p) (fieldSizes k) = bs.
Proof.
  intros Hv Hs. pose proof Hv as (? & ? & ?).
  destruct (setNumber_success _ _ _ _ _ _ _ Hv Hs) as (bs & Hbs & ? & ? & ->).
  exists bs. split; [done|]. split; [done|].
  rewrite <- (length_number_bytes _ _ _ _ Hbs).
  apply slice_write_at; [lia|]. rewrite (length_number_bytes _ _ _ _ Hbs). lia.
Qed.

Lemma setTypedArray_content this x k le n l b b' (i : nat) vi :
  view_ok this (length b) → 0 < n → n * fieldSizes k < 2 ^ 31 →
  setTypedArray this (Some x) (VArr l) (TypedArrayView k le) n b = (b', None) →
  l !! i = Some vi → Z.of_nat i < n →
  ∃ bs, number_bytes k le vi = inr bs ∧
        slice b' (byteOffset this + x + Z.of_nat i * fieldSizes k) (fieldSizes k) = bs.
Proof.
  intros Hv Hn Hb Hset Hi Hin.
  unfold setTypedArray in Hset. rewrite js_length_VArr, eval_inr, loop_max_min in Hset.
  pose proof (lookup_lt_Some _ _ _ Hi) as Hlt. pose proof (fieldSizes_pos k) as Hw.
  set (pos_of := λ y : Z, byteOffset this + x + y * fieldSizes k).
  assert (Hstep : ∀ y b0 b1, 0 ≤ y < n → length b0 = length b →
            eval (js_index (VArr l) y)
              (λ vy, setNumber k this (padd (Some x) (shl32 y (offset_of k))) vy le) b0
            = (b1, None) →
            ∃ bs, number_bytes k le (default VUndef (l !! Z.to_nat y)) = inr bs ∧
                  0 ≤ x + y * fieldSizes k ∧
                  slice b1 (pos_of y) (fieldSizes k) = bs).
  { intros y b0 b1 Hy Hl. simpl. rewrite (shl32_index y k n) by done.
    intros Hs. apply setNumber_slice in Hs; [|by rewrite Hl].
    unfold pos_of. by replace (byteOffset this + x + y * fieldSizes k)
      with (byteOffset this + (x + y * fieldSizes k)) by lia. }
  assert (Htouch : ∀ y, 0 ≤ y < n →
            touches (λ b0, eval (js_index (VArr l) y)
              (λ vy, setNumber k this (padd (Some x) (shl32 y (offset_of k))) vy le) b0)
              (length b) (pos_of y) (fieldSizes k)).
  { intros y Hy. apply touches_eval. intros vy _. simpl.
    rewrite (shl32_index y k n) by done.
    eapply touches_mono; [| |by apply touches_setNumber]; unfold pos_of; simpl; lia. }
  eapply (for_each_establishes _ _ (λ b0, length b0 = length b)
            (λ b0, ∃ bs, number_bytes k le vi = inr bs ∧
                         0 ≤ x + Z.of_nat i * fieldSizes k ∧
                         slice b0 (pos_of (Z.of_nat i)) (fieldSizes k) = bs)
            (Z.of_nat i)) in Hset; [| | | | |reflexivity].
  { destruct Hset as (bs & ? & _ & ?). by exists bs. }
  - apply elem_of_indices. lia.
  - intros y b0 b1 r Hy Hl Hb0. apply elem_of_indices in Hy.
    destruct (Htouch y ltac:(lia) b0 b1 r Hl Hb0) as [-> _]. done.
  - intros b0 b1 Hl Hb0. apply Hstep in Hb0; [|lia|done].
    by rewrite Nat2Z.id, Hi in Hb0.
  - intros y b0 b1 Hy Hl (bs & Hbs & Hpos & Hsl) Hb0. apply elem_of_indices in Hy.
    destruct (decide (y = Z.of_nat i)) as [->|Hne].
    + apply Hstep in Hb0; [|lia|done]. by rewrite Nat2Z.id, Hi in Hb0.
    + exists bs. split; [done|]. split; [done|]. rewrite <- Hsl.
      pose proof (Htouch y ltac:(lia) b0 b1 None Hl Hb0) as Hf.
      destruct Hv as (? & _).
      eapply frame_slice; [done|unfold pos_of; nia|unfold pos_of; nia].
Qed.

Lemma array_stride_inv f off len n stride :
  resolved_field f off = Some len → array_stride f = Some (n, stride) →
  0 < n ∧ 0 ≤ stride ∧ len = n * stride ∧
  ((∃ le k le' sl, stride = fieldSizes k ∧ n * fieldSizes k < 2 ^ 31 ∧
      f = Field (TyTok "typedarray") n le (Some len) (Some off) (TypedArrayView k le') sl) ∨
   (∃ le c sl, stride = objectLength c ∧ resolved c = true ∧
      f = Field (TyTok "array") n le (Some len) (Some off) (ArrayView c) sl)).
Proof.
  intros Hf Hs. apply resolved_field_shape in Hf.
  inversion Hf as [tok k ? ? ? ? Hk| |? ? k le' ? ? ?| |? ? c ? ? ?|? ? c ? ?]; subst;
    unfold array_stride in Hs; simpl in Hs; try discriminate.
  - destruct ctor as [|k' ?|c|]; try discriminate.
    + destruct (String.eqb tok "typedarray") eqn:E; [|done].
      apply String.eqb_eq in E as ->. discriminate.
    + destruct (String.eqb tok "array") eqn:E; [|done].
      apply String.eqb_eq in E as ->. discriminate.
  - destruct ctor; discriminate.
  - injection Hs as <- <-. pose proof (fieldSizes_pos k).
    split; [done|]. split; [lia|]. split; [done|]. left. by exists le, k, le', sl.
  - destruct ctor; discriminate.
  - injection Hs as <- <-. pose proof (resolved_nonneg c ltac:(done)).
    split; [done|]. split; [done|]. split; [done|]. right. by exists le, c, sl.
Qed.

(** An array-typed field changes at most the slots it copies. *)
Lemma setField_array_touches f off len n stride this l x L :
  resolved_field f off = Some len → array_stride f = Some (n, stride) →
  view_ok this L →
  touches (setField this f (VArr l) (Some x)) L (byteOffset this + x + off)
          (Z.min n (Z.of_nat (length l)) * stride).
Proof.
  intros Hf Hs Hv.
  destruct (array_stride_inv _ _ _ _ _ Hf Hs) as (Hn & Hst & Hlen & [Hc|Hc]).
  - destruct Hc as (le & k & le' & sl & -> & Hb & ->). rewrite setField_typedarray.
    eapply touches_mono;
      [| |apply (touches_setTypedArray this (x + off) (VArr l) k le' n _ L Hv Hb
                   (js_length_VArr l))];
      rewrite ?loop_max_min; lia.
  - destruct Hc as (le & c & sl & -> & Hr & ->). rewrite setField_array.
    eapply touches_mono;
      [| |apply (setArray_touches c this (VArr l) (x + off) n _ L Hr Hv
                   (js_length_VArr l))];
      rewrite ?loop_max_min; lia.
Qed.

Lemma getLength_resolved_id K :
  resolved K = true → getLength K = (K, inr (objectLength K)).
Proof.
  intros Hr. apply resolved_inv in Hr as (Hi & _). destruct K as [s fs n i].
  simpl in *. by rewrite Hi.
Qed.

Lemma from_fresh_unfold K object heap :
  resolved K = true →
  from K object None heap =
    let zeros := replicate (Z.to_nat (objectLength K)) 0 in
    let view := {| buffer := length heap;
                   window := {| byteOffset := 0; byteLength := objectLength K |};
                   constructor := K |} in
    let '(b', r) := setObject (window view) (Some 0) object (ObjectViewClass K) zeros in
    (K, <[length heap := b']> (heap ++ [zeros]),
     match r with Some e => inl e | None => inr view end).
Proof.
  intros Hr. unfold from. rewrite (getLength_resolved_id K Hr).
  pose proof (resolved_nonneg K Hr) as Hn.
  destruct (objectLength K <? 0) eqn:E; [lia|].
  unfold on_buffer. cbn [buffer window constructor].
  rewrite lookup_app_r by done. rewrite Nat.sub_diag.
  set (zeros := replicate (Z.to_nat (objectLength K)) 0).
  change ([zeros] !! 0%nat) with (Some zeros). cbv zeta. cbn [window].
  match goal with
  | |- context [setObject ?a ?p ?v ?c ?z] => by destruct (setObject a p v c z)
  end.
Qed.

(** C8: an array-typed field (a typed array of numbers or an array of
    structs) of declared size [n] occupies [n * stride] bytes; writing a
    source collection copies its first [min n (length l)] elements, one
    per stride, ignores the elements beyond [n] and leaves the other
    slots as they were; in a buffer made by [from] the slots the source
    did not supply are zero. *)
Theorem array_field_copies_min :
  (∀ (this : DataView) (f : field) (off len n stride x : Z) (l : list value)
     (b b' : list Z) (r : option error),
     resolved_field f off = Some len →
     array_stride f = Some (n, stride) →
     view_ok this (length b) →
     setField this f (VArr l) (Some x) b = (b', r) →
     len = n * stride ∧
     setField this f (VArr (take (Z.to_nat n) l)) (Some x) b = (b', r) ∧
     frame b b' (byteOffset this + x + off) (Z.min n (Z.of_nat (length l)) * stride) ∧
     (∀ k le (i : nat) vi,
        field_ctor f = TypedArrayView k le → r = None →
        l !! i = Some vi → Z.of_nat i < n →
        ∃ bs, number_bytes k le vi = inr bs ∧
              slice b' (byteOffset this + x + off + Z.of_nat i * stride) stride = bs) ∧
     (∀ c, field_ctor f = ArrayView c →
        setField this f (VArr l) (Some x) b =
          for_each (λ i, setElement this c (default VUndef (l !! Z.to_nat i))
                                    (Some (x + off + i * stride)))
                   (indices (Z.min n (Z.of_nat (length l)))) b ∧
        ∀ i e, touches (setElement this c e (Some (x + off + i * stride))) (length b)
                       (byteOffset this + (x + off + i * stride)) stride)) ∧
  (∀ (K K' : klass) (m : gmap string value) (heap heap' : list (list Z))
     (view : ObjectView) (fname : string) (f : field) (off len n stride : Z)
     (l : list value),
     resolved K = true →
     from K (VObj m) None heap = (K', heap', inr view) →
     entry_of (schema K) 0 fname f off len →
     array_stride f = Some (n, stride) →
     m !! fname = Some (VArr l) →
     ∃ b', heap' !! buffer view = Some b' ∧
           Z.of_nat (length b') = objectLength K ∧
           ∀ j : nat, off + Z.of_nat (length l) * stride ≤ Z.of_nat j < off + n * stride →
                      b' !! j = Some 0).
Proof.
  split.
  - intros this f off len n stride x l b b' r Hf Hs Hv Hset.
    destruct (array_stride_inv _ _ _ _ _ Hf Hs) as (Hn & Hst & Hlen & Hc).
    split; [done|]. split; [|split; [|split]].
    + rewrite <- Hset. destruct Hc as [Hc|Hc].
      * destruct Hc as (le & k & le' & sl & -> & Hb & ->).
        rewrite !setField_typedarray. apply setTypedArray_take. lia.
      * destruct Hc as (le & c & sl & -> & Hr & ->).
        rewrite !setField_array. apply setArray_take. lia.
    + by eapply (setField_array_touches f off len n stride this l x (length b)).
    + intros k le i vi Hct -> Hi Hin. destruct Hc as [Hc|Hc].
      * destruct Hc as (le0 & k0 & le' & sl & -> & Hb & ->). simpl in Hct.
        rewrite setField_typedarray in Hset. injection Hct as <- <-.
        destruct (setTypedArray_content this (x + off) k0 le' n l b b' i vi
                    Hv Hn Hb Hset Hi Hin) as (bs & Hbs & Hsl).
        exists bs. split; [done|]. rewrite <- Hsl. f_equal. lia.
      * destruct Hc as (le0 & c & sl & -> & Hr & ->). discriminate.
    + intros c Hct. destruct Hc as [Hc|Hc].
      * destruct Hc as (le0 & k0 & le' & sl & -> & Hb & ->). discriminate.
      * destruct Hc as (le0 & c0 & sl & -> & Hr & ->). simpl in Hct.
        injection Hct as <-. rewrite setField_array. split.
        -- rewrite (setArray_elements _ _ _ _ _ _ Hr). apply for_each_ext.
           intros i b0 _. do 2 f_equal.
        -- intros i e. by apply touches_setElement.
  - intros K K' m heap heap' view fname f off len n stride l Hr Hfrom He Hs Hm.
    rewrite (from_fresh_unfold K _ heap Hr) in Hfrom. cbn zeta in Hfrom.
    set (zeros := replicate (Z.to_nat (objectLength K)) 0) in *.
    set (this := {| byteOffset := 0; byteLength := objectLength K |}) in *.
    cbn [window] in Hfrom.
    destruct (setObject this (Some 0) (VObj m) (ObjectViewClass K) zeros)
      as [b' [e|]] eqn:Hset; [done|].
    injection Hfrom as <- <- <-. cbn [buffer].
    pose proof (resolved_nonneg K Hr) as HK.
    assert (length zeros = Z.to_nat (objectLength K)) as Hlz
      by (unfold zeros; apply length_replicate).
    assert (view_ok this (length zeros)) as Hv.
    { unfold view_ok, this. simpl. lia. }
    pose proof (resolved_inv _ Hr) as (_ & Hfs & Hnd & Hsch).
    destruct (entry_of_bounds _ _ _ _ _ _ _ Hsch He) as (Hf & Hoff & _ & Hend).
    destruct (array_stride_inv _ _ _ _ _ Hf Hs) as (Hn & Hst & Hlen & _).
    assert (respects (setObject this (Some 0) (VObj m) (ObjectViewClass K))
              (length zeros)
              (region (off + Z.of_nat (length l) * stride)
                      ((n - Z.of_nat (length l)) * stride))) as Hres.
    { rewrite setObject_unfold, Hfs. apply respects_for_each. intros name Hname.
      simpl. case_bool_decide as Hp; simpl; [|apply respects_skip].
      destruct (decide (name = fname)) as [->|Hne].
      - rewrite Hm. simpl.
        rewrite setValue_lookup, (entry_of_lookup_field _ _ _ _ _ _ Hnd He).
        eapply touches_respects;
          [|by apply (setField_array_touches f off len n stride this l 0)].
        intros j Hj. unfold region in Hj. simpl. nia.
      - destruct (keys_entry _ _ _ _ Hsch Hname) as (f' & off' & len' & He').
        eapply touches_respects; [|by eapply setValue_touches].
        intros j Hj. unfold region in Hj. simpl.
        destruct (entry_of_disjoint _ _ _ _ _ _ _ _ _ _ _ Hsch He' He Hne); nia. }
    destruct (Hres zeros b' None eq_refl Hset) as [Hl Hkeep].
    exists b'. split; [|split].
    + rewrite list_lookup_insert_eq; [done|]. rewrite length_app. simpl. lia.
    + rewrite Hl, Hlz. lia.
    + intros j Hj. rewrite Hkeep by (unfold region; nia).
      unfold zeros. apply lookup_replicate_2. nia.
Qed.

End Arrays.

(** * Elements of a struct array that lack a field *)

Section Elements.

Context `{Platform}.







End Elements.

(** * UTF-8: decoding what was encoded *)

Section Utf8.

Local Ltac divmod := Z.div_mod_to_equations; lia.

(** Decide the comparisons of the goal from the linear facts at hand. *)
Local Ltac decide_tests :=
  repeat match goal with
    | |- context [?a <=? ?b] => destruct (Z.leb_spec a b); try lia
    | |- context [?a <? ?b] => destruct (Z.ltb_spec a b); try lia
    | |- context [?a =? ?b] => destruct (Z.eqb_spec a b); try lia
    | _ => progress simpl
    end.

Lemma utf8_run_cp c rest :
  is_scalar c → utf8_run None (utf8_cp c ++ rest) = c :: utf8_run None rest.
Proof.
  intros Hc. unfold utf8_cp.
  destruct (Z.ltb_spec c 0x80) as [H1|H1].
  { simpl. unfold utf8_lead. assert (0 ≤ c) by (destruct Hc; lia).
    decide_tests. done. }
  destruct (Z.ltb_spec c 0x800) as [H2|H2].
  { assert (∃ a d, c / 64 = a ∧ c mod 64 = d ∧ c = a * 64 + d ∧ 2 ≤ a < 32 ∧ 0 ≤ d < 64)
      as (a & d & -> & -> & Hcd & ? & ?) by (eexists _, _; repeat split; divmod).
    simpl. unfold utf8_lead. decide_tests. f_equal. lia. }
  destruct (Z.ltb_spec c 0x10000) as [H3|H3].
  { assert ((0xD800 <=? c) && (c <? 0xE000) = false) as ->.
    { destruct Hc; [rewrite (proj2 (Z.leb_gt _ _))|rewrite (proj2 (Z.ltb_ge _ _)), andb_false_r];
        try done; lia. }
    assert (∃ a m d, c / 4096 = a ∧ (c / 64) mod 64 = m ∧ c mod 64 = d ∧
              c = a * 4096 + m * 64 + d ∧ 0 ≤ a < 16 ∧ 0 ≤ m < 64 ∧ 0 ≤ d < 64 ∧
              (a = 0 → 32 ≤ m) ∧ (a = 13 → m < 32))
      as (a & m & d & -> & -> & -> & Hcd & ? & ? & ? & ? & ?)
      by (eexists _, _, _; repeat split; destruct Hc; divmod).
    simpl. unfold utf8_lead. decide_tests; f_equal; lia. }
  assert (∃ a m1 m2 d, c / 262144 = a ∧ (c / 4096) mod 64 = m1 ∧
            (c / 64) mod 64 = m2 ∧ c mod 64 = d ∧
            c = a * 262144 + m1 * 4096 + m2 * 64 + d ∧ 0 ≤ a ≤ 4 ∧
            0 ≤ m1 < 64 ∧ 0 ≤ m2 < 64 ∧ 0 ≤ d < 64 ∧
            (a = 0 → 16 ≤ m1) ∧ (a = 4 → m1 < 16))
    as (a & m1 & m2 & d & -> & -> & -> & -> & Hcd & ? & ? & ? & ? & ? & ?)
    by (eexists _, _, _, _; repeat split; destruct Hc; divmod).
  simpl. unfold utf8_lead. decide_tests; f_equal; lia.
Qed.

Lemma utf8_run_encode s : ∀ rest,
  Forall is_scalar s → utf8_run None (utf8_encode s ++ rest) = s ++ utf8_run None rest.
Proof.
  induction s as [|c s IH]; intros rest Hs; [done|].
  apply Forall_cons in Hs as [Hc Hs].
  unfold utf8_encode. rewrite bind_cons, <- app_assoc, utf8_run_cp by done.
  simpl. f_equal. by apply IH.
Qed.

(** Decoding the encoding of a string of scalar values that does not
    begin with a byte order mark gives the string back. *)
Lemma utf8_decode_encode s :
  Forall is_scalar s → head s ≠ Some 0xFEFF → utf8_decode (utf8_encode s) = s.
Proof.
  intros Hs Hbom. unfold utf8_decode.
  rewrite <- (app_nil_r (utf8_encode s)), utf8_run_encode by done.
  simpl. rewrite app_nil_r. destruct s as [|c s]; [done|].
  simpl in Hbom. destruct (decide (c = 0xFEFF)) as [->|Hne]; [done|].
  destruct c as [|p|p]; try done.
  do 16 (destruct p as [p|p|]; try done).
Qed.

Lemma utf8_cp_length c : (1 ≤ length (utf8_cp c) ≤ 4)%nat.
Proof.
  unfold utf8_cp. repeat (destruct (_ <? _)); try destruct (_ && _); simpl; lia.
Qed.

Lemma utf8_cp_nonzero c : 0 < c → Forall (λ x, x ≠ 0) (utf8_cp c).
Proof.
  intros Hc. unfold utf8_cp.
  repeat (destruct (_ <? _)); try destruct (_ && _);
    repeat (apply Forall_cons; split; [divmod|]); by apply Forall_nil.
Qed.

Lemma utf8_encode_nonzero s :
  Forall (λ c, 0 < c) s → Forall (λ x, x ≠ 0) (utf8_encode s).
Proof.
  induction 1 as [|c s Hc Hs IH]; [constructor|].
  unfold utf8_encode. rewrite bind_cons. apply Forall_app. split; [|exact IH].
  by apply utf8_cp_nonzero.
Qed.

Lemma until_zero_padded bs n :
  Forall (λ x, x ≠ 0) bs → until_zero (bs ++ replicate n 0) = bs.
Proof.
  induction 1 as [|x bs Hx Hbs IH]; simpl.
  - by destruct n.
  - destruct (Z.eqb_spec x 0); [done|]. by rewrite IH.
Qed.

Lemma utf8_fit_whole s : ∀ n,
  Z.of_nat (length (utf8_encode s)) ≤ n → utf8_fit n s = utf8_encode s.
Proof.
  induction s as [|c s IH]; intros n; [done|].
  unfold utf8_encode. rewrite bind_cons, length_app. intros Hn. simpl.
  destruct (Z.leb_spec (Z.of_nat (length (utf8_cp c))) n); [|lia].
  f_equal. apply IH. unfold utf8_encode. lia.
Qed.

End Utf8.

(** * String fields *)

Section Strings.

Context `{Platform}.

Lemma write_at_overlay b o (n : nat) src :
  0 ≤ o → o + Z.of_nat n ≤ Z.of_nat (length b) → (length src ≤ n)%nat →
  write_at (write_at b o (replicate n 0)) o src =
  write_at b o (src ++ replicate (n - length src) 0).
Proof.
  intros Ho Hn Hs.
  assert (length (write_at b o (replicate n 0)) = length b) as Hl1
    by (apply length_write_at; rewrite ?length_replicate; lia).
  apply list_eq. intros j.
  destruct (decide (Z.of_nat j < o ∨ o + Z.of_nat n ≤ Z.of_nat j)) as [Hout|Hin].
  - rewrite !lookup_write_at_outside;
      rewrite ?Hl1, ?length_app, ?length_replicate; try lia. done.
  - replace j with (Z.to_nat o + (j - Z.to_nat o))%nat by lia.
    set (k := (j - Z.to_nat o)%nat). assert (k < n)%nat by lia.
    rewrite (lookup_write_at_inside b o (src ++ _))
      by (rewrite ?length_app, ?length_replicate; lia).
    destruct (decide (k < length src)%nat) as [Hk|Hk].
    + rewrite lookup_write_at_inside by (rewrite ?Hl1; lia).
      by rewrite lookup_app_l.
    + rewrite lookup_write_at_outside by (rewrite ?Hl1; lia).
      rewrite lookup_write_at_inside by (rewrite ?length_replicate; lia).
      rewrite lookup_app_r by lia.
      rewrite !lookup_replicate_2 by lia. done.
Qed.

(** [setString] when the encoding fits: the region is the encoding
    followed by zeros. *)
Lemma setString_fits this x (s : list Z) L b :
  0 ≤ byteOffset this + x →
  byteOffset this + x + L ≤ Z.of_nat (length b) →
  Z.of_nat (length (utf8_encode s)) ≤ L →
  setString this (Some x) (VStr s) (Some L) b =
    (write_at b (byteOffset this + x)
       (utf8_encode s ++ replicate (Z.to_nat L - length (utf8_encode s)) 0), None).
Proof.
  intros Ho Hb Hs. unfold setString, new_window. simpl ToIndex.
  destruct (Z.ltb_spec (x + byteOffset this) 0); [lia|].
  destruct (Z.ltb_spec L 0); [lia|].
  destruct (Z.ltb_spec (Z.of_nat (length b)) (x + byteOffset this + L)); [lia|].
  simpl. unfold seq, fill0, array_set. simpl.
  destruct (Z.ltb_spec L (Z.of_nat (length (utf8_encode s)) + 0)); [lia|].
  simpl. f_equal.
  replace (x + byteOffset this + 0) with (byteOffset this + x) by lia.
  replace (x + byteOffset this) with (byteOffset this + x) by lia.
  apply write_at_overlay; lia.
Qed.

(** [setString] when the encoding does not fit: the region is cleared
    and the copy throws. *)
Lemma setString_overflow this x (s : list Z) L b :
  0 ≤ byteOffset this + x → 0 ≤ L →
  byteOffset this + x + L ≤ Z.of_nat (length b) →
  L < Z.of_nat (length (utf8_encode s)) →
  setString this (Some x) (VStr s) (Some L) b =
    (write_at b (byteOffset this + x) (replicate (Z.to_nat L) 0), Some source_too_large).
Proof.
  intros Ho HL Hb Hs. unfold setString, new_window. simpl ToIndex.
  destruct (Z.ltb_spec (x + byteOffset this) 0); [lia|].
  destruct (Z.ltb_spec L 0); [lia|].
  destruct (Z.ltb_spec (Z.of_nat (length b)) (x + byteOffset this + L)); [lia|].
  simpl. unfold seq, fill0, array_set. simpl.
  destruct (Z.ltb_spec L (Z.of_nat (length (utf8_encode s)) + 0)); [|lia].
  simpl. unfold throw. do 2 f_equal. lia.
Qed.

Lemma toString_padded s n :
  plain_string s → toString (utf8_encode s ++ replicate n 0) = VStr s.
Proof.
  intros (Hs & Hz & Hb). unfold toString.
  rewrite until_zero_padded, utf8_decode_encode; try done.
  apply utf8_encode_nonzero. rewrite Forall_forall in *. intros c Hc.
  specialize (Hs c Hc). specialize (Hz c Hc). destruct Hs; lia.
Qed.

(** C3, as amended: [set] on a string field of byte length [L] never
    truncates.  When the UTF-8 encoding of the string has at most [L]
    bytes it does not throw: the field is cleared and the whole encoding
    is written at its start, so the field holds the encoding followed by
    zeros, no character is cut, and reading the field gives the string
    back.  When the encoding has more than [L] bytes the field is cleared
    and the copy throws the RangeError of [TypedArray.prototype.set]. *)
Theorem set_string_fits_or_throws (this : ObjectView) (name : string) (f : field)
    (off L : Z) (s : list Z) (b : list Z) :
  lookup_field (schema (constructor this)) name = Some f →
  field_type f = TyTok "string" →
  field_start f = Some off → field_length f = Some L →
  0 ≤ L →
  0 ≤ byteOffset (window this) + off →
  byteOffset (window this) + off + L ≤ Z.of_nat (length b) →
  let o := byteOffset (window this) + off in
  let bytes := utf8_encode s ++ replicate (Z.to_nat L - length (utf8_encode s)) 0 in
  (Z.of_nat (length (utf8_encode s)) ≤ L →
     set this name (VStr s) b = (write_at b o bytes, None) ∧
     slice (write_at b o bytes) o L = bytes ∧
     frame b (write_at b o bytes) o L ∧
     (plain_string s → toString (slice (write_at b o bytes) o L) = VStr s)) ∧
  (L < Z.of_nat (length (utf8_encode s)) →
     set this name (VStr s) b =
       (write_at b o (replicate (Z.to_nat L) 0), Some source_too_large)).
Proof.
  intros Hl Ht Hst Hlen HL Ho Hb o bytes.
  assert (set this name (VStr s) = setString (window this) (Some off) (VStr s) (Some L))
    as Hset.
  { unfold set. rewrite setValue_lookup, Hl. destruct f as [t sz le l st ct sl].
    simpl in Ht, Hst, Hlen. subst t st l. by rewrite setField_string. }
  split.
  - intros Hs.
    assert (Z.of_nat (length bytes) = L) as Hbytes.
    { unfold bytes. rewrite length_app, length_replicate. lia. }
    assert (slice (write_at b o bytes) o L = bytes) as Hslice.
    { rewrite <- Hbytes at 1. apply slice_write_at; lia. }
    split; [|split; [done|split]].
    + rewrite Hset. by apply setString_fits.
    + rewrite <- Hbytes. apply frame_write_at; lia.
    + intros Hp. rewrite Hslice. by apply toString_padded.
  - intros Hs. rewrite Hset. by apply setString_overflow.
Qed.

End Strings.

(** * Views made by [get] *)

Section Views.

Lemma getView_inv this b st l c w :
  rmap GotView (getView this b st l c) = inr (GotView w) →
  new_window b (padd st (byteOffset (window this))) l
    = inr (view_byteOffset w, view_length w) ∧
  view_buffer w = buffer this ∧
  ∀ b', length b' = length b →
    rmap GotView (getView this b' st l c) = inr (GotView w).
Proof.
  unfold getView.
  destruct (new_window b _ l) as [e|[o n]] eqn:Hw; [done|]. simpl.
  intros [= <-]. simpl. repeat split. intros b' Hlen.
  by rewrite (new_window_length b b' _ _ Hlen), Hw.
Qed.

Lemma get_view_inv this fname heap w :
  get this fname heap = inr (GotView w) →
  ∃ f b,
    lookup_field (schema (constructor this)) fname = Some f ∧
    heap !! buffer this = Some b ∧
    new_window b (padd (field_start f) (byteOffset (window this))) (field_length f)
      = inr (view_byteOffset w, view_length w) ∧
    view_buffer w = buffer this ∧
    (∀ (heap' : list (list Z)) b',
       heap' !! buffer this = Some b' → length b' = length b →
       get this fname heap' = inr (GotView w)).
Proof.
  unfold get. destruct (lookup_field _ fname) as [f|] eqn:Hl; [|done].
  destruct f as [t sz le l st ct sl].
  destruct (heap !! buffer this) as [b|] eqn:Hb; [|done].
  intros Hg. exists (Field t sz le l st ct sl), b. simpl.
  pose proof (getView_inv this b st l) as Hview.
  destruct t as [tok|c].
  - destruct (numkind_of tok) as [k|] eqn:Hk.
    { destruct (getNumber k _ st le b); done. }
    destruct (String.eqb tok "stringarray") eqn:E.
    + destruct (new_window b _ l) as [e|[o n]] eqn:Hw; [done|].
      injection Hg as <-. simpl. repeat split.
      intros heap' b' Hb' Hlen. rewrite Hb'.
      by rewrite (new_window_length b b' _ _ Hlen), Hw.
    + destruct (Hview ct w Hg) as (Hw & Hbuf & Hre). repeat split; try done.
      intros heap' b' Hb' Hlen. rewrite Hb'. by eapply Hre.
  - destruct (Hview ct w Hg) as (Hw & Hbuf & Hre). repeat split; try done.
    intros heap' b' Hb' Hlen. rewrite Hb'. by eapply Hre.
Qed.

(** A store through the view [get] returned is a store into the buffer
    of the struct, and reading the field again gives the same window. *)
Lemma get_view_writes (this : ObjectView) (fname : string)
    (heap : list (list Z)) (w : View) (i : Z) (bs : list Z) :
  get this fname heap = inr (GotView w) →
  0 ≤ i → i + Z.of_nat (length bs) ≤ view_length w →
  ∃ f b,
    lookup_field (schema (constructor this)) fname = Some f ∧
    heap !! buffer this = Some b ∧
    view_buffer w = buffer this ∧
    view_byteOffset w = ToIndex (padd (field_start f) (byteOffset (window this))) ∧
    (∀ (p : proc) (o : ObjectView), buffer o = view_buffer w →
       (on_buffer o p heap).1 !! buffer this = Some (p b).1) ∧
    let heap' := view_write w i bs heap in
    let b' := write_at b (view_byteOffset w + i) bs in
    heap' !! buffer this = Some b' ∧
    slice b' (view_byteOffset w + i) (Z.of_nat (length bs)) = bs ∧
    frame b b' (view_byteOffset w + i) (Z.of_nat (length bs)) ∧
    get this fname heap' = inr (GotView w) ∧
    view_bytes w heap' = write_at (view_bytes w heap) i bs.
Proof.
  intros Hg Hi Hn.
  destruct (get_view_inv _ _ _ _ Hg) as (f & b & Hl & Hb & Hw & Hbuf & Hre).
  apply new_window_inv in Hw as (Ho & Ho0 & Hn0 & Hon & _).
  exists f, b. do 4 (split; [done|]). split.
  { intros p ob Hob. unfold on_buffer. rewrite Hob, Hbuf, Hb.
    destruct (p b) as [b1 r]. simpl. rewrite list_lookup_insert_eq; [done|].
    by eapply lookup_lt_Some. }
  cbv zeta. destruct w as [wc wb wo wl].
  cbn [view_buffer view_byteOffset view_length] in *. subst wb.
  split; [|split; [|split; [|split]]].
  - unfold view_write. cbn [view_buffer view_byteOffset view_length]. rewrite Hb. rewrite list_lookup_insert_eq; [done|].
    by eapply lookup_lt_Some.
  - apply slice_write_at; lia.
  - apply frame_write_at; lia.
  - apply (Hre _ (write_at b (wo + i) bs)); [|apply length_write_at; lia].
    unfold view_write. cbn [view_buffer view_byteOffset view_length]. rewrite Hb.
    rewrite list_lookup_insert_eq; [done|]. by eapply lookup_lt_Some.
  - unfold view_bytes, view_write. cbn [view_buffer view_byteOffset view_length]. rewrite Hb.
    rewrite list_lookup_insert_eq by (by eapply lookup_lt_Some).
    unfold slice, write_at.
    set (o' := Z.to_nat wo). set (n := Z.to_nat wl).
    set (k := Z.to_nat i).
    replace (Z.to_nat (wo + i)) with (o' + k)%nat by lia.
    assert (o' + n ≤ length b)%nat by lia. assert (k + length bs ≤ n)%nat by lia.
    apply list_eq. intros j.
    destruct (decide (j < n)%nat) as [Hj|Hj].
    2:{ rewrite lookup_take_ge by lia. symmetry. apply lookup_ge_None.
        rewrite !length_app, !length_take, !length_drop, length_take, length_drop. lia. }
    rewrite lookup_take_lt, lookup_drop by done.
    destruct (decide (j < k)%nat) as [Hjk|Hjk].
    { rewrite lookup_app_l by (rewrite length_take; lia).
      rewrite lookup_take_lt by lia.
      rewrite lookup_app_l by (rewrite !length_take, length_drop; lia).
      rewrite !lookup_take_lt, lookup_drop by lia. done. }
    rewrite lookup_app_r by (rewrite length_take; lia).
    rewrite (lookup_app_r (take k _)) by (rewrite !length_take, length_drop; lia).
    rewrite !length_take, length_drop.
    replace (o' + j - (o' + k) `min` length b)%nat with (j - k)%nat by lia.
    replace (j - k `min` (n `min` (length b - o')))%nat with (j - k)%nat by lia.
    destruct (decide (j - k < length bs)%nat) as [Hjb|Hjb].
    { rewrite !lookup_app_l by done. done. }
    rewrite !lookup_app_r by lia.
    rewrite !lookup_drop, lookup_take_lt, lookup_drop by lia. f_equal. lia.
Qed.

(** [get] on a composite field of a resolved class returns a view: the
    window of the field. *)
Lemma get_composite this fname f off len heap b :
  resolved (constructor this) = true →
  entry_of (schema (constructor this)) 0 fname f off len →
  composite f = true →
  heap !! buffer this = Some b →
  view_ok (window this) (length b) →
  objectLength (constructor this) ≤ byteLength (window this) →
  ∃ w, get this fname heap = inr (GotView w) ∧
       view_buffer w = buffer this ∧
       view_byteOffset w = byteOffset (window this) + off ∧
       view_length w = len.
Proof.
  intros Hr He Hc Hb (Hbo & Hbl & Hbuf) Hfit.
  pose proof (resolved_inv _ Hr) as (_ & _ & Hnd & Hs).
  pose proof (entry_of_lookup_field _ _ _ _ _ _ Hnd He) as Hl.
  destruct (entry_of_bounds _ _ _ _ _ _ _ Hs He) as (Hf & Hoff & Hlen & Hend).
  assert (new_window b (Some (off + byteOffset (window this))) (Some len)
          = inr (byteOffset (window this) + off, len)) as Hw.
  { unfold new_window. simpl ToIndex.
    destruct (Z.ltb_spec (off + byteOffset (window this)) 0); [lia|].
    destruct (Z.ltb_spec len 0); [lia|].
    destruct (Z.ltb_spec (Z.of_nat (length b)) (off + byteOffset (window this) + len));
      [lia|]. simpl. do 2 f_equal. lia. }
  unfold get. rewrite Hl, Hb. apply resolved_field_shape in Hf.
  inversion Hf as [tok k ? ? ? ? Hk|? ? ? ? ? ?|? ? k le' ? ? ?|? ? ? sl0 ? ?
                   |? ? c ? ? ?|? ? c ? ?]; subst.
  - unfold composite in Hc. simpl in Hc. by rewrite Hk in Hc.
  - simpl. unfold getView. simpl padd. rewrite Hw. eauto.
  - simpl. unfold getView. simpl padd. rewrite Hw. eauto.
  - simpl. simpl padd. rewrite Hw. eauto.
  - simpl. unfold getView. simpl padd. rewrite Hw. eauto.
  - simpl. unfold getView. simpl padd. rewrite Hw. eauto.
Qed.

(** C6: [get] on a composite field (a string, a string array, a typed
    array, an array of structs, a nested struct) of a struct returns a
    view, and the view is a window on the buffer of the struct at the
    offset of the field: whatever is run on the buffer of the view is run
    on the buffer of the struct, a store through the view is a store into
    the struct at [byteOffset + start + i], and reading the field again
    gives the same window, which shows the bytes stored. *)
Theorem get_view_aliases (this : ObjectView) (fname : string) (f : field)
    (off len : Z) (heap : list (list Z)) (b : list Z) :
  resolved (constructor this) = true →
  entry_of (schema (constructor this)) 0 fname f off len →
  composite f = true →
  heap !! buffer this = Some b →
  view_ok (window this) (length b) →
  objectLength (constructor this) ≤ byteLength (window this) →
  ∃ w,
    get this fname heap = inr (GotView w) ∧
    view_buffer w = buffer this ∧
    view_byteOffset w = byteOffset (window this) + off ∧
    view_length w = len ∧
    (∀ (p : proc) (o : ObjectView), buffer o = view_buffer w →
       (on_buffer o p heap).1 !! buffer this = Some (p b).1) ∧
    ∀ (i : Z) (bs : list Z), 0 ≤ i → i + Z.of_nat (length bs) ≤ len →
      let heap' := view_write w i bs heap in
      let b' := write_at b (byteOffset (window this) + off + i) bs in
      heap' !! buffer this = Some b' ∧
      slice b' (byteOffset (window this) + off + i) (Z.of_nat (length bs)) = bs ∧
      frame b b' (byteOffset (window this) + off + i) (Z.of_nat (length bs)) ∧
      get this fname heap' = inr (GotView w) ∧
      view_bytes w heap' = write_at (view_bytes w heap) i bs.
Proof.
  intros Hr He Hc Hb Hv Hfit.
  destruct (get_composite _ _ _ _ _ _ _ Hr He Hc Hb Hv Hfit)
    as (w & Hg & Hwb & Hwo & Hwl).
  pose proof (resolved_inv _ Hr) as (_ & _ & _ & Hs).
  destruct (entry_of_bounds _ _ _ _ _ _ _ Hs He) as (_ & _ & Hlen & _).
  exists w. do 4 (split; [done|]). split.
  - intros p o Ho.
    destruct (get_view_writes this fname heap w 0 [] Hg ltac:(lia)
                ltac:(simpl; lia)) as (f' & b0 & _ & Hb0 & _ & _ & Hp & _).
    rewrite Hb in Hb0. injection Hb0 as <-. by apply Hp.
  - intros i bs Hi Hn. cbv zeta.
    destruct (get_view_writes this fname heap w i bs Hg Hi ltac:(lia))
      as (f' & b0 & _ & Hb0 & _ & _ & _ & Hrest).
    rewrite Hb in Hb0. injection Hb0 as <-. cbv zeta in Hrest.
    by rewrite Hwo in Hrest.
Qed.

End Views.

(** * Writing several disjoint regions, then reading them *)

Section Loops.

(** A loop whose iterations each write their own region, every one
    returning: the loop returns, it changes nothing outside the regions,
    and what an iteration established about its region still holds at the
    end. *)
Lemma for_each_regions {A} (W : A → proc) (P : A → list Z → Prop)
    (lo len : A → Z) (js : list A) (L : nat) :
  NoDup js →
  (∀ i j, i ∈ js → j ∈ js → i ≠ j → lo i + len i ≤ lo j ∨ lo j + len j ≤ lo i) →
  (∀ j b, j ∈ js → length b = L →
     ∃ b', W j b = (b', None) ∧ frame b b' (lo j) (len j) ∧ P j b') →
  (∀ j b b', P j b → agree_on (region (lo j) (len j)) b b' → P j b') →
  ∀ b, length b = L →
    ∃ b', for_each W js b = (b', None) ∧ length b' = L ∧
          (∀ keep : nat → Prop,
             (∀ j k, j ∈ js → keep k → Z.of_nat k < lo j ∨ lo j + len j ≤ Z.of_nat k) →
             agree_on keep b b') ∧
          ∀ j, j ∈ js → P j b'.
Proof.
  intros Hnd Hdis HW Hstable. induction js as [|i js IH]; intros b Hb.
  - exists b. simpl. repeat split; try done. intros j Hj. by apply elem_of_nil in Hj.
  - apply NoDup_cons in Hnd as [Hni Hnd].
    destruct (HW i b ltac:(left) Hb) as (b1 & HWi & Hf1 & HP1).
    assert (length b1 = L) as Hb1 by (destruct Hf1 as [-> _]; done).
    destruct (IH Hnd) with (b := b1) as (b' & Hrest & Hl' & Hkeep & HP); try done.
    { intros x y Hx Hy. apply Hdis; by right. }
    { intros j b0 Hj. apply HW. by right. }
    exists b'. simpl. unfold seq. rewrite HWi. split; [done|]. split; [done|]. split.
    + intros keep Hk. eapply agree_on_trans.
      * eapply frame_agree_on; [|exact Hf1]. intros k Hkk. apply (Hk i k); [left|done].
      * apply Hkeep. intros j k Hj. apply Hk. by right.
    + intros j Hj. apply elem_of_cons in Hj as [->|Hj]; [|by apply HP].
      eapply Hstable; [exact HP1|]. apply Hkeep. intros j k Hj Hk.
      unfold region in Hk.
      destruct (Hdis i j ltac:(left) ltac:(by right) ltac:(by intros ->)); lia.
Qed.

Lemma collect_all {A B} (f : A → res B) (vals : A → B) (js : list A) :
  (∀ j, j ∈ js → f j = inr (vals j)) → collect f js = inr (vals <$> js).
Proof.
  induction js as [|j js IH]; intros Hf; simpl; [done|].
  rewrite Hf by left. rewrite IH; [done|]. intros k Hk. apply Hf. by right.
Qed.

Lemma indices_lookup_default {A} (l : list A) (d : A) :
  (λ i, default d (l !! Z.to_nat i)) <$> indices (Z.of_nat (length l)) = l.
Proof.
  unfold indices. apply list_eq. intros k. rewrite list_lookup_fmap.
  destruct (decide (k < length l)%nat) as [Hk|Hk].
  - rewrite lookup_seqZ_lt by lia. simpl.
    replace (Z.to_nat (0 + Z.of_nat k)) with k by lia.
    destruct (lookup_lt_is_Some_2 l k Hk) as [x Hx]. by rewrite Hx.
  - rewrite lookup_seqZ_ge by lia. simpl. symmetry. apply lookup_ge_None. lia.
Qed.

Lemma NoDup_indices n : NoDup (indices n).
Proof. apply NoDup_seqZ. Qed.

End Loops.

(** * Round trip: values of the exact shape of the schema *)

Section RoundTrip.

Context `{Platform}.

Lemma reads_back_stable {A} (read : list Z → res A) v lo len b b' :
  reads_back read v lo len b → agree_on (region lo len) b b' →
  reads_back read v lo len b'.
Proof. intros Hr Ha b'' Ha'. apply Hr. by eapply agree_on_trans. Qed.

Lemma reads_back_mono {A} (read : list Z → res A) v lo len lo' len' b :
  lo' ≤ lo → lo + len ≤ lo' + len' →
  reads_back read v lo len b → reads_back read v lo' len' b.
Proof.
  intros H1 H2 Hr b' Ha. apply Hr. eapply agree_on_weaken; [|exact Ha].
  unfold region. intros j Hj. lia.
Qed.

Lemma getNumber_slice k this p le b :
  0 ≤ p → p + fieldSizes k ≤ byteLength this →
  getNumber k this (Some p) le b =
    inr (bytes_number k le (slice b (byteOffset this + p) (fieldSizes k))).
Proof.
  intros Hp Hw. unfold getNumber. change (ToIndex (Some p)) with p.
  destruct (Z.ltb_spec p 0); [lia|].
  destruct (Z.ltb_spec (byteLength this) (p + fieldSizes k)); [lia|]. done.
Qed.

Lemma written_number k this p v le b :
  view_ok this (length b) → 0 ≤ p → p + fieldSizes k ≤ byteLength this →
  number_fits k le v →
  written (setNumber k this (Some p) v le) (getNumber k this (Some p) le) v
          (byteOffset this + p) (fieldSizes k) b.
Proof.
  intros Hv Hp Hw (bs & Hbs & Hback). pose proof Hv as (? & ? & ?).
  pose proof (length_number_bytes _ _ _ _ Hbs) as Hlen.
  exists (write_at b (byteOffset this + p) bs). split; [|split].
  - unfold setNumber. change (ToIndex (Some p)) with p.
    destruct (Z.ltb_spec p 0); [lia|]. rewrite Hbs.
    destruct (Z.ltb_spec (byteLength this) (p + fieldSizes k)); [lia|]. done.
  - rewrite <- Hlen. apply frame_write_at; lia.
  - intros b' Ha. rewrite getNumber_slice by done.
    rewrite (agree_on_slice _ _ (byteOffset this + p) _ ltac:(lia) Ha).
    rewrite <- Hlen, slice_write_at by lia. by rewrite Hback.
Qed.

Lemma getString_slice this x L b :
  0 ≤ byteOffset this + x → 0 ≤ L →
  byteOffset this + x + L ≤ Z.of_nat (length b) →
  getString this b (Some x) (Some L) = inr (toString (slice b (byteOffset this + x) L)).
Proof.
  intros Ho HL Hb. unfold getString, new_window. simpl ToIndex.
  destruct (Z.ltb_spec (x + byteOffset this) 0); [lia|].
  destruct (Z.ltb_spec L 0); [lia|].
  destruct (Z.ltb_spec (Z.of_nat (length b)) (x + byteOffset this + L)); [lia|].
  simpl. by replace (x + byteOffset this) with (byteOffset this + x) by lia.
Qed.

Lemma written_string this x v L b :
  0 ≤ byteOffset this + x →
  byteOffset this + x + L ≤ Z.of_nat (length b) →
  string_fits L v →
  written (setString this (Some x) v (Some L)) (λ b, getString this b (Some x) (Some L)) v
          (byteOffset this + x) L b.
Proof.
  intros Ho Hb (s & -> & Hp & Hs).
  set (bytes := utf8_encode s ++ replicate (Z.to_nat L - length (utf8_encode s)) 0).
  assert (Z.of_nat (length bytes) = L) as Hbytes.
  { unfold bytes. rewrite length_app, length_replicate. lia. }
  exists (write_at b (byteOffset this + x) bytes). split; [|split].
  - by apply setString_fits.
  - rewrite <- Hbytes. apply frame_write_at; lia.
  - intros b' Ha. pose proof Ha as [Hl _].
    rewrite length_write_at in Hl by lia.
    rewrite getString_slice by lia.
    rewrite (agree_on_slice _ _ (byteOffset this + x) _ ltac:(lia) Ha).
    rewrite <- Hbytes at 1. rewrite slice_write_at by lia.
    f_equal. by apply toString_padded.
Qed.

Lemma written_ext {A} (w w' : proc) (r r' : list Z → res A) v lo len b :
  (∀ b0, w b0 = w' b0) → (∀ b0, r b0 = r' b0) →
  written w r v lo len b → written w' r' v lo len b.
Proof.
  intros Hw Hr (b' & Hwb & Hf & Hrb). exists b'. rewrite <- Hw.
  split; [done|]. split; [done|]. intros b'' Ha. rewrite <- Hr. by apply Hrb.
Qed.

Lemma written_mono {A} (w : proc) (r : list Z → res A) v lo len lo' len' b :
  lo' ≤ lo → lo + len ≤ lo' + len' →
  written w r v lo len b → written w r v lo' len' b.
Proof.
  intros H1 H2 (b' & Hwb & Hf & Hrb). exists b'. split; [done|]. split.
  - by eapply frame_mono.
  - by eapply reads_back_mono.
Qed.

Lemma written_rmap {A B} (g : A → B) (w : proc) (r : list Z → res A) v lo len b :
  written w r v lo len b → written w (λ b, rmap g (r b)) (g v) lo len b.
Proof.
  intros (b' & Hwb & Hf & Hrb). exists b'. split; [done|]. split; [done|].
  intros b'' Ha. by rewrite (Hrb b'' Ha).
Qed.

(** A loop over the [n] slots of an array, each iteration writing its
    slot. *)
Lemma written_slots {B} (W : Z → proc) (R : Z → list Z → res B) (vals : Z → B)
    (base stride n : Z) (b : list Z) :
  0 ≤ stride →
  (∀ i b0, 0 ≤ i < n → length b0 = length b →
     written (W i) (R i) (vals i) (base + i * stride) stride b0) →
  written (for_each W (indices n)) (λ b, collect (λ i, R i b) (indices n))
          (vals <$> indices n) base (Z.max 0 n * stride) b.
Proof.
  intros Hst HW.
  destruct (for_each_regions W
              (λ i, reads_back (R i) (vals i) (base + i * stride) stride)
              (λ i, base + i * stride) (λ _, stride) (indices n) (length b))
    with (b := b) as (b' & Hloop & Hl & Hkeep & HP); try done.
  - apply NoDup_indices.
  - intros i j _ _ Hne. nia.
  - intros j b0 Hj Hb0. apply elem_of_indices in Hj. by apply HW.
  - intros j b0 b1. apply reads_back_stable.
  - exists b'. split; [done|]. split.
    + destruct (Hkeep (λ k, Z.of_nat k < base ∨ base + Z.max 0 n * stride ≤ Z.of_nat k))
        as [Hlen Hout]; [|by split].
      intros j k Hj Hk. apply elem_of_indices in Hj. nia.
    + intros b'' Ha. apply collect_all. intros j Hj. apply (HP j Hj).
      apply elem_of_indices in Hj. eapply agree_on_weaken; [|exact Ha].
      unfold region. intros k Hk. nia.
Qed.

Lemma written_typedarray this x k le n l b :
  view_ok this (length b) → 0 < n → n * fieldSizes k < 2 ^ 31 →
  0 ≤ x → x + n * fieldSizes k ≤ byteLength this →
  Z.of_nat (length l) = n → Forall (number_fits k le) l →
  written (setTypedArray this (Some x) (VArr l) (TypedArrayView k le) n)
          (λ b, rmap VArr (getTypedArray this b (Some x) (TypedArrayView k le) n))
          (VArr l) (byteOffset this + x) (n * fieldSizes k) b.
Proof.
  intros Hv Hn Hb Hx Hend Hlen Hfit. pose proof (fieldSizes_pos k) as Hw.
  assert ((λ i, default VUndef (l !! Z.to_nat i)) <$> indices n = l) as Hl
    by (rewrite <- Hlen; apply indices_lookup_default).
  enough (written (setTypedArray this (Some x) (VArr l) (TypedArrayView k le) n)
            (λ b, rmap VArr (getTypedArray this b (Some x) (TypedArrayView k le) n))
            (VArr ((λ i, default VUndef (l !! Z.to_nat i)) <$> indices n))
            (byteOffset this + x) (n * fieldSizes k) b) as Hw' by (by rewrite Hl in Hw').
  eapply written_ext; [| |apply (written_rmap VArr)].
  3:{ eapply written_mono; [| |apply (written_slots
           (λ i, eval (js_index (VArr l) i)
                   (λ vi, setNumber k this (Some (x + i * fieldSizes k)) vi le))
           (λ i, getNumber k this (Some (x + i * fieldSizes k)) le)
           (λ i, default VUndef (l !! Z.to_nat i))
           (byteOffset this + x) (fieldSizes k) n b)]; [lia| |lia|].
      - lia.
      - intros i b0 Hi Hb0. simpl.
        destruct (lookup_lt_is_Some_2 l (Z.to_nat i) ltac:(lia)) as [vi Hvi].
        rewrite Hvi. simpl.
        replace (byteOffset this + x + i * fieldSizes k)
          with (byteOffset this + (x + i * fieldSizes k)) by lia.
        apply written_number; [by rewrite Hb0|nia|nia|].
        rewrite Forall_forall in Hfit. apply Hfit. by eapply list_elem_of_lookup_2. }
  - intros b0. unfold setTypedArray.
    rewrite js_length_VArr, eval_inr, loop_max_min, Hlen, Z.min_id.
    apply for_each_ext. intros i b1 Hi. apply elem_of_indices in Hi.
    simpl. by rewrite (shl32_index i k n).
  - intros b0. unfold getTypedArray, new_Array.
    destruct (Z.ltb_spec n 0); [lia|]. f_equal.
    clear -Hb Hn. assert (∀ i, i ∈ indices n → 0 ≤ i < n) as Hin
      by (intros i; apply elem_of_indices).
    induction (indices n) as [|i js IH]; simpl; [done|].
    rewrite (shl32_index i k n (Hin i ltac:(left)) Hb). simpl.
    destruct (getNumber k this _ le b0); [done|].
    rewrite IH; [done|]. intros j Hj. apply Hin. by right.
Qed.

Lemma new_window_ok b o L :
  0 ≤ o → 0 ≤ L → o + L ≤ Z.of_nat (length b) →
  new_window b (Some o) (Some L) = inr (o, L).
Proof.
  intros Ho HL Hb. unfold new_window. simpl ToIndex.
  destruct (Z.ltb_spec o 0); [lia|]. destruct (Z.ltb_spec L 0); [lia|].
  destruct (Z.ltb_spec (Z.of_nat (length b)) (o + L)); [lia|]. done.
Qed.

Lemma array_set_ok o n src off b :
  0 ≤ off → Z.of_nat (length src) + off ≤ n →
  array_set (o, n) src off b = (write_at b (o + off) src, None).
Proof.
  intros Hoff Hn. unfold array_set. cbn [fst snd].
  destruct (Z.ltb_spec off 0); [lia|].
  destruct (Z.ltb_spec n (Z.of_nat (length src) + off)); [lia|]. done.
Qed.

Lemma fromString_fits s sl :
  Z.of_nat (length (utf8_encode s)) ≤ sl →
  fromString (VStr s) (Some sl) =
    utf8_encode s ++ replicate (Z.to_nat sl - length (utf8_encode s)) 0 ∧
  Z.of_nat (length (fromString (VStr s) (Some sl))) = sl.
Proof.
  intros Hs. unfold fromString. simpl string_of. rewrite utf8_fit_whole by done.
  split; [done|]. rewrite length_app, length_replicate. lia.
Qed.

Lemma written_stringarray this x n sl l b :
  0 ≤ byteOffset this + x → byteOffset this + x + n * sl ≤ Z.of_nat (length b) →
  0 < n → 0 ≤ sl →
  Z.of_nat (length l) = n → Forall (string_fits sl) l →
  written (setStringArray this (Some x) (VArr l) n (Some (n * sl)) (Some sl))
          (λ b, rmap VArr (getStringArray this b (Some x) n (Some (n * sl)) (Some sl)))
          (VArr l) (byteOffset this + x) (n * sl) b.
Proof.
  intros Ho Hb Hn Hsl Hlen Hfit.
  assert ((λ i, default VUndef (l !! Z.to_nat i)) <$> indices n = l) as Hl
    by (rewrite <- Hlen; apply indices_lookup_default).
  set (o := byteOffset this + x).
  set (b0 := write_at b o (replicate (Z.to_nat (n * sl)) 0)).
  assert (frame b b0 o (n * sl)) as Hf0.
  { unfold b0. replace (n * sl) with (Z.of_nat (length (replicate (Z.to_nat (n * sl)) 0)))
      at 2 by (rewrite length_replicate; nia).
    apply frame_write_at; rewrite ?length_replicate; unfold o; nia. }
  pose proof Hf0 as [Hlen0 _].
  destruct (written_slots
              (λ i, eval (js_index (VArr l) i)
                      (λ vi, array_set (o, n * sl) (fromString vi (Some sl)) (i * sl)))
              (λ i b1, match new_window b1 (Some (o + i * sl)) (Some sl) with
                       | inl e => inl e
                       | inr (o', n') => inr (toString (slice b1 o' n'))
                       end)
              (λ i, default VUndef (l !! Z.to_nat i)) o sl n b0 Hsl)
    as (b' & Hloop & Hf & Hrb).
  { intros i b1 Hi Hb1. simpl.
    destruct (lookup_lt_is_Some_2 l (Z.to_nat i) ltac:(lia)) as [vi Hvi].
    rewrite Hvi. simpl.
    rewrite Forall_forall in Hfit.
    destruct (Hfit vi ltac:(by eapply list_elem_of_lookup_2)) as (s & -> & Hp & Hs).
    destruct (fromString_fits s sl Hs) as [Hbytes Hblen].
    exists (write_at b1 (o + i * sl) (fromString (VStr s) (Some sl))).
    split; [|split].
    - apply array_set_ok; [nia|]. rewrite Hblen. nia.
    - apply frame_write_at_len; rewrite ?Hb1, ?Hlen0; [done|unfold o; nia..].
    - intros b2 Ha. pose proof Ha as [Hl2 _].
      rewrite length_write_at in Hl2 by (rewrite ?Hblen, ?Hb1, ?Hlen0; unfold o; nia).
      rewrite new_window_ok by (rewrite ?Hl2, ?Hb1, ?Hlen0; unfold o; nia).
      rewrite (agree_on_slice _ _ (o + i * sl) _ ltac:(unfold o; nia) Ha).
      rewrite (slice_write_at_len _ _ _ _ Hblen)
        by (rewrite ?Hb1, ?Hlen0; unfold o; nia).
      rewrite Hbytes. f_equal. by apply toString_padded. }
  rewrite Z.max_r in Hf, Hrb by lia.
  exists b'. split; [|split].
  - unfold setStringArray. simpl padd.
    replace (x + byteOffset this) with o by (unfold o; lia).
    rewrite new_window_ok by (unfold o; nia). rewrite eval_inr.
    unfold seq, fill0. simpl fst. simpl snd. fold b0.
    rewrite js_length_VArr, eval_inr, loop_max_min, Hlen, Z.min_id.
    rewrite <- Hloop. apply for_each_ext. intros i b1 _. done.
  - by eapply frame_trans.
  - intros b2 Ha. specialize (Hrb b2 Ha). unfold getStringArray, new_Array.
    destruct (Z.ltb_spec n 0); [lia|].
    match goal with
    | |- rmap VArr (collect ?f _) = _ =>
        assert (collect f (indices n)
                = collect (λ i, match new_window b2 (Some (o + i * sl)) (Some sl) with
                                | inl e => inl e
                                | inr (o', n') => inr (toString (slice b2 o' n'))
                                end) (indices n)) as ->
    end.
    { clear. simpl. induction (indices n) as [|i js IH]; simpl; [done|].
      replace (x + byteOffset this + i * sl) with (byteOffset this + x + i * sl) by lia.
      fold o. destruct (new_window b2 (Some (o + i * sl)) (Some sl)) as [e|[o' n']];
        [done|]. by rewrite IH. }
    rewrite Hrb. simpl. by rewrite Hl.
Qed.

End RoundTrip.

(** * Numbers a field holds exactly *)

Section Numbers.

Context `{Platform}.

Lemma le_value_le_bytes n : ∀ z, le_value (le_bytes n z) = z mod 256 ^ Z.of_nat n.
Proof.
  induction n as [|n IH]; intros z.
  - simpl. by rewrite Z.mod_1_r.
  - cbn [le_bytes le_value]. rewrite IH, Nat2Z.inj_succ, Z.pow_succ_r by lia.
    assert (0 < 256 ^ Z.of_nat n) by (apply Z.pow_pos_nonneg; lia).
    rewrite (Z.rem_mul_r z 256 (256 ^ Z.of_nat n)) by lia. lia.
Qed.

Lemma bytes_int_int_bytes w le z :
  bytes_int le (int_bytes w le z) = z mod 256 ^ Z.of_nat w.
Proof.
  unfold bytes_int, int_bytes. destruct le; [|rewrite reverse_involutive];
    apply le_value_le_bytes.
Qed.

(** An integer below 2^53 in magnitude is a Number, and its integer part
    is the integer. *)
Local Ltac divs :=
  change (0 / 2 ^ 52) with 0; change (2 ^ 63 / 2 ^ 52) with 2048;
  change (0 / 2 ^ 63) with 0; change (2 ^ 63 / 2 ^ 63) with 1;
  change (2048 / 2 ^ 63) with 0.

Lemma trunc_of_Z_exact z :
  - 2 ^ 53 < z < 2 ^ 53 → Number.trunc (Number.of_Z z) = z.
Proof.
  intros Hz. unfold Number.of_Z.
  destruct (Z.eqb_spec z 0) as [->|Hne]; [reflexivity|].
  set (a := Z.abs z). set (k := Z.log2 a).
  assert (0 < a < 2 ^ 53) as Ha by (unfold a; lia).
  assert (0 ≤ k ≤ 52) as Hk.
  { split; [apply Z.log2_nonneg|].
    assert (k < 53); [|lia]. apply Z.log2_lt_pow2; lia. }
  destruct (Z.log2_spec a ltac:(lia)) as [Hlo Hhi]. fold k in Hlo, Hhi.
  destruct (Z.leb_spec k 52); [|lia].
  set (p := 2 ^ (52 - k)). set (q := 2 ^ k) in *.
  assert (q * p = 2 ^ 52) as Hqp.
  { unfold p, q. rewrite <- Z.pow_add_r by lia. f_equal. lia. }
  assert (0 < p) as Hp by (apply Z.pow_pos_nonneg; lia).
  assert (0 < q) as Hq by (apply Z.pow_pos_nonneg; lia).
  replace (2 ^ Z.succ k) with (2 * q) in Hhi
    by (unfold q; rewrite Z.pow_succ_r; lia).
  set (m := a * p).
  assert (2 ^ 52 ≤ m < 2 ^ 53) as Hm.
  { unfold m. change (2 ^ 53) with (2 * 2 ^ 52). rewrite <- Hqp. nia. }
  assert (m = a * p) as Hmdef by done. clearbody m.
  set (S := if z <? 0 then 2 ^ 63 else 0).
  assert (S = 0 ∧ 0 < z ∨ S = 2 ^ 63 ∧ z < 0) as HS
    by (unfold S; destruct (Z.ltb_spec z 0); lia).
  assert (S = if z <? 0 then 2 ^ 63 else 0) as HSdef by done. clearbody S.
  set (d := S + (k + 1023) * 2 ^ 52 + (m - 2 ^ 52)).
  assert (p = 2 ^ (52 - k)) as Hp' by done.
  assert (a = Z.abs z) as Ha' by done.
  clearbody p q a. clearbody k.
  assert (Number.frac d = m - 2 ^ 52) as Hfrac.
  { unfold Number.frac. symmetry.
    apply (Z.mod_unique _ _ (S / 2 ^ 52 + k + 1023)); [clear -Hm; lia|].
    unfold d. destruct HS as [[-> _]|[-> _]]; divs; lia. }
  assert (Number.expo d = k + 1023) as Hexpo.
  { unfold Number.expo.
    assert (d / 2 ^ 52 = S / 2 ^ 52 + k + 1023) as ->.
    { symmetry. apply (Z.div_unique _ _ _ (m - 2 ^ 52)); [lia|].
      unfold d. destruct HS as [[-> _]|[-> _]]; divs; lia. }
    symmetry. apply (Z.mod_unique _ _ (S / 2 ^ 63)); [lia|].
    destruct HS as [[-> _]|[-> _]]; divs; lia. }
  assert (Number.sign d = if z <? 0 then 1 else 0) as Hsign.
  { unfold Number.sign.
    assert (d / 2 ^ 63 = S / 2 ^ 63) as ->.
    { symmetry. apply (Z.div_unique _ _ _ ((k + 1023) * 2 ^ 52 + (m - 2 ^ 52)));
        [lia|]. unfold d. destruct HS as [[-> _]|[-> _]]; divs; lia. }
    rewrite HSdef. by destruct (Z.ltb_spec z 0). }
  unfold Number.trunc. cbv zeta. rewrite Hexpo, Hfrac, Hsign.
  destruct (Z.eqb_spec (k + 1023) 2047); [lia|].
  destruct (Z.eqb_spec (k + 1023) 0); [lia|]. cbn [orb].
  replace (2 ^ 52 + (m - 2 ^ 52)) with m by lia.
  assert ((if 1075 <=? k + 1023 then m * 2 ^ (k + 1023 - 1075)
           else m / 2 ^ (1075 - (k + 1023))) = a) as ->.
  { destruct (Z.leb_spec 1075 (k + 1023)).
    - assert (k = 52) as Hk52 by lia. subst k. simpl in *. lia.
    - replace (1075 - (k + 1023)) with (52 - k) by lia. rewrite <- Hp', Hmdef.
      by rewrite Z.div_mul by lia. }
  rewrite Ha'. destruct (Z.ltb_spec z 0); simpl; lia.
Qed.

Lemma to_signed_mod (w : nat) z :
  (0 < w)%nat → - 2 ^ (8 * Z.of_nat w - 1) ≤ z < 2 ^ (8 * Z.of_nat w - 1) →
  to_signed w (z mod 2 ^ (8 * Z.of_nat w)) = z.
Proof.
  intros Hw Hz. unfold to_signed.
  set (h := 2 ^ (8 * Z.of_nat w - 1)) in *.
  assert (2 ^ (8 * Z.of_nat w) = 2 * h) as ->.
  { unfold h. rewrite <- Z.pow_succ_r by lia. f_equal. lia. }
  assert (0 < h) by (apply Z.pow_pos_nonneg; lia).
  destruct (Z.le_gt_cases 0 z).
  - rewrite Z.mod_small by lia. destruct (Z.ltb_spec z h); lia.
  - assert (z mod (2 * h) = z + 2 * h) as ->
      by (symmetry; apply (Z.mod_unique _ _ (-1)); lia).
    destruct (Z.ltb_spec (z + 2 * h) h); lia.
Qed.

Lemma pow_256 (w : nat) : 256 ^ Z.of_nat w = 2 ^ (8 * Z.of_nat w).
Proof. change 256 with (2 ^ 8). rewrite <- Z.pow_mul_r by lia. done. Qed.

(** Every integer of the kind is held exactly by a field of the kind, in
    both byte orders. *)
Lemma number_fits_integer k le z :
  is_int_kind k = true → in_range k z → number_fits k le (VNum (Number.of_Z z)).
Proof.
  intros Hk Hz.
  assert (- 2 ^ 53 < z < 2 ^ 53) as Hz53 by (destruct k; simpl in Hz; try done; lia).
  exists (int_bytes (width k) le z). split.
  { destruct k; try done; simpl; by rewrite trunc_of_Z_exact. }
  destruct k; try done; unfold bytes_number; rewrite bytes_int_int_bytes; do 2 f_equal.
  1,3,5: rewrite pow_256; apply to_signed_mod; [cbv; lia|exact Hz].
  all: apply Z.mod_small; exact Hz.
Qed.

Lemma number_fits_bigint k le z :
  k = BigInt64 ∨ k = BigUint64 → in_range k z → number_fits k le (VBig z).
Proof.
  intros Hk Hz. exists (int_bytes 8 le z). split; [by destruct Hk as [->| ->]|].
  destruct Hk as [->| ->]; unfold bytes_number; rewrite bytes_int_int_bytes; f_equal;
    simpl in Hz.
  - rewrite pow_256. apply to_signed_mod; [lia|exact Hz].
  - apply Z.mod_small. exact Hz.
Qed.

(** A Number is held exactly by a float64 field. *)
Lemma number_fits_float64 le d :
  0 ≤ d < 2 ^ 64 → Number.of_f64 d = d → number_fits Float64 le (VNum d).
Proof.
  intros Hd Hn. exists (int_bytes 8 le d). split; [done|].
  unfold bytes_number. rewrite bytes_int_int_bytes, Z.mod_small by exact Hd.
  by rewrite Hn.
Qed.

End Numbers.

(** * Round trip of objects *)

Section Objects.

Context `{Platform}.

Lemma resolved_field_start_length f off len :
  resolved_field f off = Some len →
  field_start f = Some off ∧ field_length f = Some len.
Proof.
  intros Hf. apply resolved_field_shape in Hf. by inversion Hf.
Qed.

Lemma full_class_unfold c m :
  full_class c m ↔
  full_schema (schema c) m ∧ ∀ name, is_Some (m !! name) → name ∈ keys (schema c).
Proof. by destruct c. Qed.

Lemma full_schema_entry s : ∀ off0 m name f off len,
  full_schema s m → entry_of s off0 name f off len →
  ∃ v, m !! name = Some v ∧ full_field f v.
Proof.
  induction s as [|name0 f0 rest IH]; intros off0 m name f off len Hfull He;
    inversion He; subst; destruct Hfull as [Hv Hrest]; [done|]. eauto.
Qed.

Lemma getObject_entries this b x (vals : string → value) s : ∀ off0 total acc,
  resolved_schema s off0 total = true →
  (∀ name f off len, entry_of s off0 name f off len →
                     getField this b f (Some x) = inr (vals name)) →
  getObject this b s (Some x) acc =
    inr (foldl (λ a name, <[name := vals name]> a) acc (keys s)).
Proof.
  induction s as [|name f rest IH]; intros off0 total acc Hs Hget; [done|].
  simpl in Hs. destruct (resolved_field f off0) as [len|] eqn:Hf; [|done].
  cbn [getObject keys foldl].
  rewrite (Hget name f off0 len) by (by constructor).
  apply (IH (off0 + len) total); [done|].
  intros name' f' off' len' He. eapply Hget. by econstructor.
Qed.

Lemma foldl_insert_lookup (vals : string → value) names : ∀ (acc : gmap string value) k,
  foldl (λ a name, <[name := vals name]> a) acc names !! k =
    if decide (k ∈ names) then Some (vals k) else acc !! k.
Proof.
  induction names as [|n names IH]; intros acc k; simpl.
  - destruct (decide (k ∈ [])) as [Hk|_]; [by apply elem_of_nil in Hk|done].
  - rewrite IH. destruct (decide (k ∈ names)) as [Hk|Hk].
    + rewrite decide_True by (by right). done.
    + destruct (decide (k = n)) as [->|Hne].
      * rewrite decide_True by left. by rewrite lookup_insert_eq.
      * rewrite decide_False by (rewrite elem_of_cons; tauto).
        by rewrite lookup_insert_ne.
Qed.

Lemma class_of_fields c :
  (∀ f, f ∈ descriptors (schema c) → field_round_trips f) → class_round_trips c.
Proof.
  intros Hfields this x m b Hr Hv Hx Hend Hfull.
  pose proof (resolved_inv _ Hr) as (_ & _ & Hnd & Hs).
  apply full_class_unfold in Hfull as [Hfull Hdom].
  set (s := schema c) in *.
  set (start_of := λ name, default 0 (lookup_field s name ≫= field_start)).
  set (length_of := λ name, default 0 (lookup_field s name ≫= field_length)).
  assert (Hentry : ∀ name, name ∈ keys s →
            ∃ f, lookup_field s name = Some f ∧
                 entry_of s 0 name f (start_of name) (length_of name)).
  { intros name Hname. destruct (keys_entry _ _ _ _ Hs Hname) as (f & off & len & He).
    pose proof (entry_of_lookup_field _ _ _ _ _ _ Hnd He) as Hl.
    destruct (entry_of_bounds _ _ _ _ _ _ _ Hs He) as (Hf & _).
    apply resolved_field_start_length in Hf as [Hst Hlen].
    exists f. split; [done|]. unfold start_of, length_of. rewrite Hl. simpl.
    by rewrite Hst, Hlen. }
  destruct (for_each_regions
              (λ name, setValue this name (default VUndef (m !! name)) s (Some x))
              (λ name b0, ∀ f, lookup_field s name = Some f →
                 reads_back (λ b, getField this b f (Some x)) (default VUndef (m !! name))
                            (byteOffset this + x + start_of name) (length_of name) b0)
              (λ name, byteOffset this + x + start_of name) length_of
              (keys s) (length b))
    with (b := b) as (b' & Hloop & Hl & Hkeep & HP); try done.
  - intros i j Hi Hj Hne.
    destruct (Hentry i Hi) as (fi & _ & Hei). destruct (Hentry j Hj) as (fj & _ & Hej).
    destruct (entry_of_disjoint _ _ _ _ _ _ _ _ _ _ _ Hs Hei Hej Hne); lia.
  - intros name b0 Hname Hb0. destruct (Hentry name Hname) as (f & Hlk & He).
    destruct (entry_of_bounds _ _ _ _ _ _ _ Hs He) as (Hf & ? & ? & ?).
    destruct (full_schema_entry _ _ _ _ _ _ _ Hfull He) as (v & Hmv & Hfv).
    rewrite setValue_lookup, Hlk, Hmv. simpl.
    destruct (Hfields f ltac:(by eapply entry_of_descriptor) _ _ this x v b0 Hf
                ltac:(by rewrite Hb0) ltac:(lia) ltac:(lia) Hfv)
      as (b1 & Hw & Hfr & Hrb).
    exists b1. split; [done|]. split; [done|]. intros f' Hf'.
    assert (f' = f) as -> by congruence. done.
  - intros name b0 b1 HP0 Ha f Hf. eapply reads_back_stable; [by apply HP0|done].
  - exists b'. split; [done|]. split.
    + destruct (Hkeep (λ k, Z.of_nat k < byteOffset this + x
                            ∨ byteOffset this + x + objectLength c ≤ Z.of_nat k))
        as [Hlen Hout]; [|by split].
      intros name k Hname Hk. destruct (Hentry name Hname) as (f & _ & He).
      destruct (entry_of_bounds _ _ _ _ _ _ _ Hs He) as (_ & ? & ? & ?). lia.
    + intros b'' Ha.
      rewrite (getObject_entries this b'' x (λ name, default VUndef (m !! name))
                 s 0 (objectLength c) ∅ Hs).
      * f_equal. apply map_eq. intros k. rewrite foldl_insert_lookup.
        destruct (decide (k ∈ keys s)) as [Hk|Hk].
        -- destruct (Hentry k Hk) as (f & _ & He).
           destruct (full_schema_entry _ _ _ _ _ _ _ Hfull He) as (v & Hmv & _).
           by rewrite Hmv.
        -- rewrite lookup_empty. symmetry. apply eq_None_not_Some. intros Hsome.
           by apply Hk, Hdom.
      * intros name f off len He.
        pose proof (entry_of_lookup _ _ _ _ _ _ He) as Hname.
        pose proof (entry_of_lookup_field _ _ _ _ _ _ Hnd He) as Hlk.
        apply (HP name Hname f Hlk).
        destruct (Hentry name Hname) as (f' & _ & He').
        destruct (entry_of_bounds _ _ _ _ _ _ _ Hs He') as (_ & ? & ? & ?).
        eapply agree_on_weaken; [|exact Ha]. unfold region. intros k Hk. lia.
Qed.

End Objects.

Section Exact.

Context `{Platform}.

(** The dispatch of [getObject] on the resolved descriptors. *)
Lemma getField_number this b tok k n le len off ct sl x :
  numkind_of tok = Some k →
  getField this b (Field (TyTok tok) n le len (Some off) ct sl) (Some x) =
  getNumber k this (Some (x + off)) le b.
Proof. intros Hk. simpl. by rewrite Hk. Qed.

Lemma getField_string this b n le len off ct sl x :
  getField this b (Field (TyTok "string") n le len (Some off) ct sl) (Some x) =
  getString this b (Some (x + off)) len.
Proof. reflexivity. Qed.

Lemma getField_typedarray this b n le len off ct sl x :
  getField this b (Field (TyTok "typedarray") n le len (Some off) ct sl) (Some x) =
  rmap VArr (getTypedArray this b (Some (x + off)) ct n).
Proof. reflexivity. Qed.

Lemma getField_stringarray this b n le len off ct sl x :
  getField this b (Field (TyTok "stringarray") n le len (Some off) ct sl) (Some x) =
  rmap VArr (getStringArray this b (Some (x + off)) n len sl).
Proof. reflexivity. Qed.

Lemma getField_array this b n le len off c sl x :
  getField this b (Field (TyTok "array") n le len (Some off) (ArrayView c) sl) (Some x) =
  rmap VArr (getArray this b (Some (x + off)) (ArrayView c) n).
Proof. by destruct c. Qed.

Lemma getField_object this b n le len off c sl x :
  getField this b (Field (TyTok "object") n le len (Some off) (ObjectViewClass c) sl)
           (Some x) =
  rmap VObj (getObject this b (schema c) (Some (x + off)) ∅).
Proof. by destruct c. Qed.

Lemma filter_present_all (m : gmap string value) (names : list string) :
  (∀ name, name ∈ names → is_Some (m !! name)) →
  filter (λ name, is_Some (m !! name)) names = names.
Proof.
  induction names as [|n ns IH]; intros Hall; [done|].
  rewrite filter_cons. destruct (decide _) as [_|Hn].
  - f_equal. apply IH. intros name Hname. apply Hall. by right.
  - exfalso. apply Hn, Hall. left.
Qed.

Lemma full_class_present c m name :
  resolved c = true → full_class c m → name ∈ keys (schema c) → is_Some (m !! name).
Proof.
  intros Hr Hfull Hname. pose proof (resolved_inv _ Hr) as (_ & _ & _ & Hs).
  apply full_class_unfold in Hfull as [Hfull _].
  destruct (keys_entry _ _ _ _ Hs Hname) as (f & off & len & He).
  destruct (full_schema_entry _ _ _ _ _ _ _ Hfull He) as (v & -> & _). eauto.
Qed.

Lemma setObject_full this position m c b :
  resolved c = true → full_class c m →
  setObject this position (VObj m) (ObjectViewClass c) b = write_fields this c m position b.
Proof.
  intros Hr Hfull. pose proof (resolved_inv _ Hr) as (_ & Hf & _).
  rewrite (setObject_present_only _ _ _ _ _ _ Hf).
  rewrite filter_present_all; [done|].
  intros name. by apply full_class_present.
Qed.

Lemma setElement_object this c m position b :
  setElement this c (VObj m) position b = write_fields this c m position b.
Proof. reflexivity. Qed.

Theorem setField_round_trips : ∀ f, field_round_trips f.
Proof.
  apply (field_mut
    class_round_trips
    (λ s, ∀ f, f ∈ descriptors s → field_round_trips f)
    field_round_trips
    (λ _, True)
    (λ ct, match ct with
           | ArrayView c | ObjectViewClass c => class_round_trips c
           | _ => True
           end)); try done.
  - intros s IH fs n i. by apply class_of_fields.
  - intros f Hin. by apply elem_of_nil in Hin.
  - intros name f IHf rest IHr g Hin. simpl in Hin.
    apply elem_of_cons in Hin as [->|Hin]; eauto.
  - intros t _ sz le l st ct IHc sl off len this x v b Hf Hv Hlo Hhi Hfull.
    pose proof Hv as (Hbo & Hbl & Hbuf).
    apply resolved_field_shape in Hf.
    inversion Hf as [tok k ? ? ? ? Hk|? ? l0 ? ? Hl0|? ? k le' ? Hsz Hb|
                     ? ? ? sl0 Hsl Hsz|? ? c ? Hrc Hsz|? ? c ? Hrc]; subst.
    + simpl in Hfull. rewrite Hk in Hfull.
      apply (written_ext (setNumber k this (Some (x + off)) v le) _
                         (getNumber k this (Some (x + off)) le)).
      { intros b0. by rewrite (setField_number _ _ _ _ _ _ _ _ _ _ _ Hk). }
      { intros b0. by rewrite (getField_number _ _ _ _ _ _ _ _ _ _ _ Hk). }
      eapply written_mono; [| |apply written_number]; try done; lia.
    + simpl in Hfull.
      apply (written_ext (setString this (Some (x + off)) v (Some len)) _
                         (λ b0, getString this b0 (Some (x + off)) (Some len))).
      { intros b0. by rewrite setField_string. }
      { intros b0. by rewrite getField_string. }
      eapply written_mono; [| |apply written_string]; try done; lia.
    + simpl in Hfull. destruct Hfull as (l1 & -> & Hlen & Hfit).
      apply (written_ext
               (setTypedArray this (Some (x + off)) (VArr l1) (TypedArrayView k le') sz) _
               (λ b0, rmap VArr (getTypedArray this b0 (Some (x + off))
                                   (TypedArrayView k le') sz))).
      { intros b0. by rewrite setField_typedarray. }
      { intros b0. by rewrite getField_typedarray. }
      eapply written_mono; [| |apply written_typedarray]; try done; lia.
    + simpl in Hfull. destruct Hfull as (l1 & -> & Hlen & Hfit).
      apply (written_ext
               (setStringArray this (Some (x + off)) (VArr l1) sz
                               (Some (sz * sl0)) (Some sl0)) _
               (λ b0, rmap VArr (getStringArray this b0 (Some (x + off)) sz
                                   (Some (sz * sl0)) (Some sl0)))).
      { intros b0. by rewrite setField_stringarray. }
      { intros b0. by rewrite getField_stringarray. }
      eapply written_mono; [| |apply written_stringarray]; try done; nia.
    + simpl in Hfull. destruct Hfull as (l1 & -> & Hlen & Hfit).
      pose proof (resolved_nonneg c Hrc) as Hol.
      assert ((λ i, default VUndef (l1 !! Z.to_nat i)) <$> indices sz = l1) as Hl1
        by (rewrite <- Hlen; apply indices_lookup_default).
      rewrite <- Hl1 at 2.
      eapply written_ext; [| |apply (written_rmap VArr)].
      3:{ eapply written_mono; [| |apply (written_slots
               (λ i, setElement this c (default VUndef (l1 !! Z.to_nat i))
                                (Some (x + off + i * objectLength c)))
               (λ i b0, rmap VObj (getObject this b0 (schema c)
                                     (Some (x + off + i * objectLength c)) ∅))
               (λ i, default VUndef (l1 !! Z.to_nat i))
               (byteOffset this + x + off) (objectLength c) sz b Hol)]; [lia|lia|].
          intros i b0 Hi Hb0.
          destruct (lookup_lt_is_Some_2 l1 (Z.to_nat i) ltac:(lia)) as [vi Hvi].
          rewrite Hvi. simpl default. rewrite Forall_forall in Hfit.
          destruct (Hfit vi ltac:(by eapply list_elem_of_lookup_2)) as (mi & -> & Hmi).
          apply (written_rmap VObj).
          eapply written_ext;
            [intros b1; symmetry; apply setElement_object|done|].
          eapply written_mono; [| |apply (IHc this (x + off + i * objectLength c) mi b0)];
            try done; try nia. by rewrite Hb0. }
      * intros b0. rewrite setField_array, (setArray_elements _ _ _ _ _ _ Hrc).
        by rewrite Hlen, Z.min_id.
      * intros b0. rewrite getField_array. unfold getArray, new_Array.
        by destruct (Z.ltb_spec sz 0); [lia|].
    + simpl in Hfull. destruct Hfull as (m & -> & Hm).
      eapply written_ext; [intros b0; symmetry; rewrite setField_object;
                             by apply setObject_full
                          |intros b0; symmetry; apply getField_object|].
      apply (written_rmap VObj).
      eapply written_mono; [| |apply (IHc this (x + off) m b)]; try done; lia.
Qed.


(** [from] on a class that resolves is [from] on the resolved class. *)
Lemma from_getLength K0 K n object heap :
  getLength K0 = (K, inr n) → from K0 object None heap = from K object None heap.
Proof.
  intros Hg. destruct (getLength_objectLength _ _ _ Hg) as [_ Hg'].
  unfold from. by rewrite Hg, Hg'.
Qed.


End Exact.

(** * Reading: what the read path looks at *)

Section Reads.

Context `{Platform}.

Lemma collect_ext {A B} (f g : A → res B) (js : list A) :
  (∀ j, j ∈ js → f j = g j) → collect f js = collect g js.
Proof.
  induction js as [|j js IH]; intros Hfg; simpl; [done|].
  rewrite (Hfg j) by left. destruct (g j); [done|].
  rewrite IH; [done|]. intros k Hk. apply Hfg. by right.
Qed.

Lemma reads_back_rmap {A B} (g : A → B) (r : list Z → res A) v lo len b :
  reads_back r v lo len b → reads_back (λ b, rmap g (r b)) (g v) lo len b.
Proof. intros Hr b' Ha. by rewrite (Hr b' Ha). Qed.

Lemma reads_back_ext {A} (r r' : list Z → res A) v lo len b :
  (∀ b', length b' = length b → r b' = r' b') →
  reads_back r v lo len b → reads_back r' v lo len b.
Proof. intros He Hr b' Ha. rewrite <- He by apply Ha. by apply Hr. Qed.

(** The loop over the slots of an array. *)
Lemma reads_slots {B} (R : Z → list Z → res B) (base stride n : Z) (b : list Z) :
  0 ≤ stride →
  (∀ i, 0 ≤ i < n → ∃ v, reads_back (R i) v (base + i * stride) stride b) →
  ∃ vs, reads_back (λ b, collect (λ i, R i b) (indices n)) vs
                   base (Z.max 0 n * stride) b.
Proof.
  intros Hst HR.
  assert (∀ js, (∀ i, i ∈ js → 0 ≤ i < n) →
            ∃ vs, ∀ b', agree_on (region base (Z.max 0 n * stride)) b b' →
                        collect (λ i, R i b') js = inr vs) as Hjs.
  { induction js as [|j js IH]; intros Hin.
    - exists []. done.
    - destruct (HR j (Hin j ltac:(left))) as [v Hv].
      destruct IH as [vs Hvs]; [intros i Hi; apply Hin; by right|].
      exists (v :: vs). intros b' Ha. simpl.
      rewrite (Hv b'), (Hvs b' Ha); [done|].
      pose proof (Hin j ltac:(left)).
      eapply agree_on_weaken; [|exact Ha]. unfold region. intros k Hk. nia. }
  apply Hjs. intros i. apply elem_of_indices.
Qed.

Lemma reads_number k this p le b :
  0 ≤ byteOffset this → 0 ≤ p → p + fieldSizes k ≤ byteLength this →
  ∃ v, reads_back (getNumber k this (Some p) le) v (byteOffset this + p) (fieldSizes k) b.
Proof.
  intros Hbo Hp Hw. eexists. intros b' Ha.
  rewrite getNumber_slice by done.
  by rewrite (agree_on_slice b b' (byteOffset this + p) (fieldSizes k) ltac:(lia) Ha).
Qed.

Lemma reads_string this x L b :
  0 ≤ byteOffset this + x → 0 ≤ L →
  byteOffset this + x + L ≤ Z.of_nat (length b) →
  ∃ v, reads_back (λ b, getString this b (Some x) (Some L)) v (byteOffset this + x) L b.
Proof.
  intros Ho HL Hb. eexists. intros b' Ha. pose proof Ha as [Hl _].
  rewrite getString_slice by (rewrite ?Hl; done).
  by rewrite (agree_on_slice _ _ _ _ Ho Ha).
Qed.

Lemma reads_typedarray this x k le n b :
  view_ok this (length b) → 0 < n → n * fieldSizes k < 2 ^ 31 →
  0 ≤ x → x + n * fieldSizes k ≤ byteLength this →
  ∃ vs, reads_back (λ b, getTypedArray this b (Some x) (TypedArrayView k le) n) vs
                   (byteOffset this + x) (n * fieldSizes k) b.
Proof.
  intros (Hbo & Hbl & Hbuf) Hn Hb Hx Hend. pose proof (fieldSizes_pos k) as Hw.
  destruct (reads_slots (λ i, getNumber k this (Some (x + i * fieldSizes k)) le)
              (byteOffset this + x) (fieldSizes k) n b ltac:(lia)) as [vs Hvs].
  { intros i Hi.
    replace (byteOffset this + x + i * fieldSizes k)
      with (byteOffset this + (x + i * fieldSizes k)) by lia.
    apply reads_number; [done|nia|nia]. }
  rewrite Z.max_r in Hvs by lia.
  exists vs. eapply reads_back_ext; [|exact Hvs].
  intros b' _. unfold getTypedArray, new_Array.
  destruct (Z.ltb_spec n 0); [lia|]. apply collect_ext.
  intros i Hi. apply elem_of_indices in Hi. simpl.
  by rewrite (shl32_index i k n).
Qed.

Lemma reads_stringarray this x n sl b :
  0 ≤ byteOffset this + x → byteOffset this + x + n * sl ≤ Z.of_nat (length b) →
  0 < n → 0 ≤ sl →
  ∃ vs, reads_back (λ b, getStringArray this b (Some x) n (Some (n * sl)) (Some sl)) vs
                   (byteOffset this + x) (n * sl) b.
Proof.
  intros Ho Hb Hn Hsl.
  destruct (reads_slots
              (λ i b1, match new_window b1 (Some (byteOffset this + x + i * sl)) (Some sl) with
                       | inl e => inl e
                       | inr (o', n') => inr (toString (slice b1 o' n'))
                       end)
              (byteOffset this + x) sl n b Hsl) as [vs Hvs].
  { intros i Hi. eexists. intros b' Ha. pose proof Ha as [Hl _].
    rewrite new_window_ok by (rewrite ?Hl; nia).
    by rewrite (agree_on_slice b b' (byteOffset this + x + i * sl) sl ltac:(nia) Ha). }
  rewrite Z.max_r in Hvs by lia.
  exists vs. eapply reads_back_ext; [|exact Hvs].
  intros b' _. unfold getStringArray, new_Array.
  destruct (Z.ltb_spec n 0); [lia|]. apply collect_ext.
  intros i _. simpl.
  by replace (x + byteOffset this + i * sl) with (byteOffset this + x + i * sl) by lia.
Qed.

(** The loop of [getObject] over a resolved schema. *)
Lemma schema_reads s : ∀ off0 total acc this x b,
  resolved_schema s off0 total = true → NoDup (keys s) →
  (∀ f, f ∈ descriptors s → field_reads f) →
  view_ok this (length b) → 0 ≤ x + off0 → x + total ≤ byteLength this →
  ∃ m, reads_back (λ b, getObject this b s (Some x) acc) m
                  (byteOffset this + x + off0) (total - off0) b ∧
       (∀ name, name ∉ keys s → m !! name = acc !! name) ∧
       (∀ name f off len,
          entry_of s off0 name f off len →
          ∃ v, m !! name = Some v ∧
               reads_back (λ b, getField this b f (Some x)) v
                          (byteOffset this + x + off) len b).
Proof.
  induction s as [|name f rest IH]; intros off0 total acc this x b Hs Hnd Hf Hv Hlo Hhi.
  - exists acc. split; [by intros b' _|]. split; [done|].
    intros name f off len He. inversion He.
  - simpl in Hs. destruct (resolved_field f off0) as [len|] eqn:Hrf; [|done].
    pose proof (resolved_schema_le _ _ _ Hs) as Hle.
    pose proof (resolved_field_nonneg _ _ _ Hrf) as Hlen.
    simpl in Hnd. apply NoDup_cons in Hnd as [Hname Hnd].
    destruct (Hf f ltac:(left) off0 len this x b Hrf Hv Hlo ltac:(lia)) as [v Hrv].
    destruct (IH (off0 + len) total (<[name := v]> acc) this x b Hs Hnd
                ltac:(intros g Hg; apply Hf; by right) Hv ltac:(lia) Hhi)
      as (m & Hm & Hout & Hent).
    exists m. split; [|split].
    + intros b' Ha. cbn [getObject]. rewrite (Hrv b').
      * apply Hm. eapply agree_on_weaken; [|exact Ha]. unfold region. intros j Hj. lia.
      * eapply agree_on_weaken; [|exact Ha]. unfold region. intros j Hj. lia.
    + intros name' Hn'. simpl in Hn'. apply not_elem_of_cons in Hn' as [Hne Hn'].
      rewrite (Hout name' Hn'). by rewrite lookup_insert_ne.
    + intros name' f' off' len' He.
      inversion He as [? ? ? ? ? Hrf'|? ? ? ? len0 ? ? ? ? Hrf' He']; subst.
      * rewrite Hrf in Hrf'. injection Hrf' as <-.
        exists v. split; [|done]. rewrite (Hout name' Hname). by rewrite lookup_insert_eq.
      * rewrite Hrf in Hrf'. injection Hrf' as <-. by apply Hent.
Qed.

Lemma class_reads_fields c :
  (∀ f, f ∈ descriptors (schema c) → field_reads f) → class_reads c.
Proof.
  intros Hf this x b Hr Hv Hx Hend.
  pose proof (resolved_inv _ Hr) as (_ & _ & Hnd & Hs).
  destruct (schema_reads (schema c) 0 (objectLength c) ∅ this x b Hs Hnd Hf Hv
              ltac:(lia) Hend) as (m & Hm & Hout & Hent).
  exists m. split; [|split; [|done]].
  - replace (byteOffset this + x) with (byteOffset this + x + 0) by lia.
    by replace (objectLength c) with (objectLength c - 0) by lia.
  - intros name. split.
    + intros Hsome. destruct (decide (name ∈ keys (schema c))) as [|Hn]; [done|].
      rewrite (Hout name Hn) in Hsome. by destruct Hsome.
    + intros Hin. destruct (keys_entry _ _ _ _ Hs Hin) as (f & off & len & He).
      destruct (Hent _ _ _ _ He) as (v & -> & _). eauto.
Qed.

Lemma getField_reads : ∀ f, field_reads f.
Proof.
  apply (field_mut
    class_reads
    (λ s, ∀ f, f ∈ descriptors s → field_reads f)
    field_reads
    (λ _, True)
    (λ ct, match ct with
           | ArrayView c | ObjectViewClass c => class_reads c
           | _ => True
           end)); try done.
  - intros s IH fs n i. by apply class_reads_fields.
  - intros f Hin. by apply elem_of_nil in Hin.
  - intros name f IHf rest IHr g Hin. simpl in Hin.
    apply elem_of_cons in Hin as [->|Hin]; eauto.
  - intros t _ sz le l st ct IHc sl off len this x b Hf Hv Hlo Hhi.
    pose proof Hv as (Hbo & Hbl & Hbuf).
    apply resolved_field_shape in Hf.
    inversion Hf as [tok k ? ? ? ? Hk|? ? l0 ? ? Hl0|? ? k le' ? Hsz Hb|
                     ? ? ? sl0 Hsl Hsz|? ? c ? Hrc Hsz|? ? c ? Hrc]; subst.
    + destruct (reads_number k this (x + off) le b Hbo Hlo Hhi) as [v Hr].
      exists v. eapply reads_back_ext; [|eapply reads_back_mono; [| |exact Hr]]; [|lia..].
      intros b' _. by rewrite (getField_number _ _ _ _ _ _ _ _ _ _ _ Hk).
    + destruct (reads_string this (x + off) len b ltac:(lia) Hl0 ltac:(lia)) as [v Hr].
      exists v. eapply reads_back_ext; [|eapply reads_back_mono; [| |exact Hr]]; [|lia..].
      intros b' _. by rewrite getField_string.
    + destruct (reads_typedarray this (x + off) k le' sz b Hv Hsz Hb Hlo Hhi) as [vs Hr].
      exists (VArr vs).
      eapply reads_back_ext;
        [|eapply reads_back_mono; [| |exact (reads_back_rmap VArr _ _ _ _ _ Hr)]]; [|lia..].
      intros b' _. by rewrite getField_typedarray.
    + destruct (reads_stringarray this (x + off) sz sl0 b ltac:(lia) ltac:(nia) Hsz Hsl)
        as [vs Hr].
      exists (VArr vs).
      eapply reads_back_ext;
        [|eapply reads_back_mono; [| |exact (reads_back_rmap VArr _ _ _ _ _ Hr)]]; [|lia..].
      intros b' _. by rewrite getField_stringarray.
    + pose proof (resolved_nonneg c Hrc) as Hol.
      destruct (reads_slots
                  (λ i b0, rmap VObj (getObject this b0 (schema c)
                                        (Some (x + off + i * objectLength c)) ∅))
                  (byteOffset this + x + off) (objectLength c) sz b Hol) as [vs Hr].
      { intros i Hi.
        destruct (IHc this (x + off + i * objectLength c) b Hrc Hv ltac:(nia) ltac:(nia))
          as (m & Hm & _).
        exists (VObj m). apply (reads_back_rmap VObj).
        eapply reads_back_mono; [| |exact Hm]; lia. }
      rewrite Z.max_r in Hr by lia.
      exists (VArr vs).
      eapply reads_back_ext; [|exact (reads_back_rmap VArr _ _ _ _ _ Hr)].
      intros b' _. rewrite getField_array. unfold getArray, new_Array.
      by destruct (Z.ltb_spec sz 0); [lia|].
    + destruct (IHc this (x + off) b Hrc Hv Hlo Hhi) as (m & Hm & _).
      exists (VObj m).
      eapply reads_back_ext;
        [|eapply reads_back_mono; [| |exact (reads_back_rmap VObj _ _ _ _ _ Hm)]]; [|lia..].
      intros b' _. by rewrite getField_object.
Qed.

Lemma getObject_reads c : class_reads c.
Proof. apply class_reads_fields. intros f _. apply getField_reads. Qed.

End Reads.

(** * Fields of a struct: [set], [get] and [toObject] together *)

Section Fields.

Context `{Platform}.

Lemma int_value_fits k le z : in_range k z → number_fits k le (int_value k z).
Proof.
  intros Hz. destruct k; try done;
    solve [by apply number_fits_integer | apply number_fits_bigint; [tauto|done]].
Qed.

Lemma getNumber_slice_eq k this p le b b' :
  slice b' (byteOffset this + ToIndex p) (fieldSizes k)
    = slice b (byteOffset this + ToIndex p) (fieldSizes k) →
  getNumber k this p le b' = getNumber k this p le b.
Proof. intros Hs. unfold getNumber. cbv zeta. by rewrite Hs. Qed.


Lemma set_entry this fname f off len v :
  resolved (constructor this) = true →
  entry_of (schema (constructor this)) 0 fname f off len →
  set this fname v = setField (window this) f v (Some 0).
Proof.
  intros Hr He. pose proof (resolved_inv _ Hr) as (_ & _ & Hnd & _).
  unfold set. by rewrite setValue_lookup, (entry_of_lookup_field _ _ _ _ _ _ Hnd He).
Qed.

(** The bytes [get] looks at: those of the field, and the length of the
    buffer. *)
Lemma get_field_bytes this g fg og lg heap heap' b b' :
  resolved (constructor this) = true →
  entry_of (schema (constructor this)) 0 g fg og lg →
  heap !! buffer this = Some b → heap' !! buffer this = Some b' →
  length b' = length b →
  slice b' (byteOffset (window this) + og) lg = slice b (byteOffset (window this) + og) lg →
  get this g heap' = get this g heap.
Proof.
  intros Hr He Hb Hb' Hl Hs. pose proof (resolved_inv _ Hr) as (_ & _ & Hnd & Hrs).
  destruct (entry_of_bounds _ _ _ _ _ _ _ Hrs He) as (Hf & _).
  unfold get. rewrite (entry_of_lookup_field _ _ _ _ _ _ Hnd He), Hb, Hb'.
  apply resolved_field_shape in Hf.
  inversion Hf as [tok k ? ? ? ? Hk|? ? ? ? ? ?|? ? k le' ? ? ?|? ? ? sl0 ? ?
                   |? ? c ? ? ?|? ? c ? ?]; subst.
  - rewrite Hk. f_equal. by apply getNumber_slice_eq.
  - simpl. unfold getView. by rewrite (new_window_length b b').
  - simpl. unfold getView. by rewrite (new_window_length b b').
  - simpl. by rewrite (new_window_length b b').
  - simpl. unfold getView. by rewrite (new_window_length b b').
  - simpl. unfold getView. by rewrite (new_window_length b b').
Qed.

(** X1: [set] changes no byte outside the field it is given: whatever the
    value, and whether it returns or throws, the buffer keeps its length
    and every byte before the start of the field or from its end on. *)
Theorem set_writes_only_its_field (this : ObjectView) (fname : string) (f : field)
    (off len : Z) (v : value) (b b' : list Z) (r : option error) :
  resolved (constructor this) = true →
  entry_of (schema (constructor this)) 0 fname f off len →
  view_ok (window this) (length b) →
  set this fname v b = (b', r) →
  length b' = length b ∧
  ∀ j : nat,
    Z.of_nat j < byteOffset (window this) + off ∨
    byteOffset (window this) + off + len ≤ Z.of_nat j →
    b' !! j = b !! j.
Proof.
  intros Hr He Hv Hset.
  pose proof (setValue_touches (constructor this) (window this) fname v 0 (length b)
                f off len Hr Hv He b b' r eq_refl Hset) as Hfr.
  by replace (byteOffset (window this) + 0 + off)
    with (byteOffset (window this) + off) in Hfr by lia.
Qed.

(** X2: [set] on one field leaves every other field as it was: its bytes, and
    what [get] returns for it. *)
Theorem set_keeps_other_fields (this : ObjectView) (fname g : string) (f fg : field)
    (off len og lg : Z) (v : value) (heap : list (list Z)) (b b' : list Z)
    (r : option error) :
  resolved (constructor this) = true →
  entry_of (schema (constructor this)) 0 fname f off len →
  entry_of (schema (constructor this)) 0 g fg og lg →
  g ≠ fname →
  heap !! buffer this = Some b →
  view_ok (window this) (length b) →
  set this fname v b = (b', r) →
  slice b' (byteOffset (window this) + og) lg
    = slice b (byteOffset (window this) + og) lg ∧
  get this g (<[buffer this := b']> heap) = get this g heap.
Proof.
  intros Hr He Hg Hne Hb Hv Hset.
  pose proof (resolved_inv _ Hr) as (_ & _ & _ & Hs).
  pose proof (setValue_touches (constructor this) (window this) fname v 0 (length b)
                f off len Hr Hv He b b' r eq_refl Hset) as Hfr.
  destruct (entry_of_bounds _ _ _ _ _ _ _ Hs Hg) as (_ & Hog & _).
  pose proof (entry_of_disjoint _ _ _ _ _ _ _ _ _ _ _ Hs Hg He Hne) as Hd.
  destruct Hv as (Hbo & _).
  assert (slice b' (byteOffset (window this) + og) lg
          = slice b (byteOffset (window this) + og) lg) as Hsl
    by (eapply frame_slice; [exact Hfr|lia|lia]).
  split; [done|].
  assert (<[buffer this := b']> heap !! buffer this = Some b') as Hins
    by (apply list_lookup_insert_eq; by eapply lookup_lt_Some).
  destruct Hfr as [Hlen _].
  exact (get_field_bytes this g fg og lg heap _ b b' Hr Hg Hb Hins Hlen Hsl).
Qed.

(** X3: An integer in the range of its field is stored exactly: [set] returns
    and [get] gives the integer back. *)
Theorem set_get_integer (this : ObjectView) (fname tok : string) (f : field)
    (off len : Z) (k : numkind) (z : Z) (heap : list (list Z)) (b : list Z) :
  resolved (constructor this) = true →
  entry_of (schema (constructor this)) 0 fname f off len →
  field_type f = TyTok tok → numkind_of tok = Some k →
  in_range k z →
  heap !! buffer this = Some b →
  view_ok (window this) (length b) →
  objectLength (constructor this) ≤ byteLength (window this) →
  ∃ b', set this fname (int_value k z) b = (b', None) ∧
        get this fname (<[buffer this := b']> heap) = inr (GotValue (int_value k z)).
Proof.
  intros Hr He Ht Hk Hz Hb Hv Hfit.
  pose proof (resolved_inv _ Hr) as (_ & _ & Hnd & Hs).
  destruct (entry_of_bounds _ _ _ _ _ _ _ Hs He) as (Hf & Hoff & _ & Hend).
  pose proof (entry_of_lookup_field _ _ _ _ _ _ Hnd He) as Hl.
  apply resolved_field_shape in Hf. destruct f as [t sz le l st ct sl].
  simpl in Ht. subst t.
  inversion Hf as [tok' k' ? ? ? ? Hk'| | | | |]; subst;
    try (by rewrite ?numkind_of_string in Hk; vm_compute in Hk).
  rewrite Hk in Hk'. injection Hk' as <-.
  destruct (written_number k (window this) off (int_value k z) le b Hv Hoff
              ltac:(lia) (int_value_fits k le z Hz)) as (b' & Hw & _ & Hrb).
  exists b'. split.
  - rewrite (set_entry _ _ _ _ _ _ Hr He).
    by rewrite (setField_number _ _ _ _ _ _ _ _ _ _ _ Hk).
  - unfold get. rewrite Hl, Hk.
    rewrite list_lookup_insert_eq by (by eapply lookup_lt_Some).
    by rewrite (Hrb b' (agree_on_refl _ _)).
Qed.

(** X4: A numeric field that does not end inside the window of the view is
    out of bounds: [get] throws the RangeError of the DataView getter, and
    [set] throws (the conversion error of the value, or the RangeError)
    without writing. *)
Theorem numeric_field_out_of_bounds (this : ObjectView) (fname tok : string) (f : field)
    (off len : Z) (k : numkind) (v : value) (heap : list (list Z)) (b : list Z) :
  resolved (constructor this) = true →
  entry_of (schema (constructor this)) 0 fname f off len →
  field_type f = TyTok tok → numkind_of tok = Some k →
  heap !! buffer this = Some b →
  byteLength (window this) < off + len →
  get this fname heap = inl out_of_bounds ∧
  set this fname v b =
    (b, Some match number_bytes k (field_littleEndian f) v with
             | inl e => e
             | inr _ => out_of_bounds
             end).
Proof.
  intros Hr He Ht Hk Hb Hshort.
  pose proof (resolved_inv _ Hr) as (_ & _ & Hnd & Hs).
  destruct (entry_of_bounds _ _ _ _ _ _ _ Hs He) as (Hf & Hoff & _ & _).
  pose proof (entry_of_lookup_field _ _ _ _ _ _ Hnd He) as Hl.
  apply resolved_field_shape in Hf. destruct f as [t sz le l st ct sl].
  simpl in Ht. subst t.
  inversion Hf as [tok' k' ? ? ? ? Hk'| | | | |]; subst;
    try (by rewrite ?numkind_of_string in Hk; vm_compute in Hk).
  rewrite Hk in Hk'. injection Hk' as <-. split.
  - unfold get. rewrite Hl, Hb, Hk. unfold getNumber.
    change (ToIndex (Some off)) with off.
    destruct (Z.ltb_spec off 0); [lia|].
    by destruct (Z.ltb_spec (byteLength (window this)) (off + fieldSizes k)); [|lia].
  - rewrite (set_entry _ _ _ _ _ _ Hr He).
    rewrite (setField_number _ _ _ _ _ _ _ _ _ _ _ Hk).
    unfold setNumber. change (ToIndex (Some (0 + off))) with off.
    cbn [field_littleEndian].
    destruct (Z.ltb_spec off 0); [lia|].
    destruct (number_bytes k le v) as [e|bs]; [done|].
    by destruct (Z.ltb_spec (byteLength (window this)) (off + fieldSizes k)); [|lia].
Qed.


End Fields.

(** * Decoding a struct *)

Section Decoding.

Context `{Platform}.

(** X6: [toObject] on a view that contains the struct returns, whatever the
    bytes are, and the object it returns has exactly the keys of the
    schema. *)
Theorem toObject_returns_schema_keys (this : ObjectView) (b : list Z) :
  resolved (constructor this) = true →
  view_ok (window this) (length b) →
  objectLength (constructor this) ≤ byteLength (window this) →
  ∃ m, toObject this b = inr (VObj m) ∧
       ∀ name, is_Some (m !! name) ↔ name ∈ keys (schema (constructor this)).
Proof.
  intros Hr Hv Hfit.
  destruct (getObject_reads (constructor this) (window this) 0 b Hr Hv ltac:(lia)
              ltac:(lia)) as (m & Hm & Hkeys & _).
  exists m. split; [|done]. unfold toObject.
  by rewrite (Hm b (agree_on_refl _ _)).
Qed.

(** X7: [toObject] looks at the bytes of the struct only: two buffers of the
    same length that hold the same bytes in the window of the struct
    decode to the same object. *)
Theorem toObject_reads_only_the_struct (this : ObjectView) (b b' : list Z) :
  resolved (constructor this) = true →
  view_ok (window this) (length b) →
  objectLength (constructor this) ≤ byteLength (window this) →
  length b' = length b →
  slice b' (byteOffset (window this)) (objectLength (constructor this))
    = slice b (byteOffset (window this)) (objectLength (constructor this)) →
  toObject this b' = toObject this b.
Proof.
  intros Hr Hv Hfit Hl Hs. pose proof Hv as (Hbo & Hbl & Hbuf).
  destruct (getObject_reads (constructor this) (window this) 0 b Hr Hv ltac:(lia)
              ltac:(lia)) as (m & Hm & _).
  unfold toObject. rewrite (Hm b (agree_on_refl _ _)).
  rewrite (Hm b'); [done|]. split; [done|].
  intros j Hj. unfold region in Hj.
  assert (slice b' (byteOffset (window this)) (objectLength (constructor this))
            !! (j - Z.to_nat (byteOffset (window this)))%nat
          = slice b (byteOffset (window this)) (objectLength (constructor this))
            !! (j - Z.to_nat (byteOffset (window this)))%nat) as Hjj by (by rewrite Hs).
  unfold slice in Hjj. rewrite !lookup_take_lt, !lookup_drop in Hjj by lia.
  by replace (Z.to_nat (byteOffset (window this)) + (j - Z.to_nat (byteOffset (window this))))%nat
    with j in Hjj by lia.
Qed.

(** X8: [set] on one field changes one key of the decoded object: after the
    call, returned or thrown, [toObject] gives the same value as before
    for every other key. *)
Theorem set_changes_one_key (this : ObjectView) (fname : string) (f : field)
    (off len : Z) (v : value) (b b' : list Z) (r : option error)
    (m : gmap string value) :
  resolved (constructor this) = true →
  entry_of (schema (constructor this)) 0 fname f off len →
  view_ok (window this) (length b) →
  objectLength (constructor this) ≤ byteLength (window this) →
  set this fname v b = (b', r) →
  toObject this b = inr (VObj m) →
  ∃ m', toObject this b' = inr (VObj m') ∧
        ∀ g, g ≠ fname → m' !! g = m !! g.
Proof.
  intros Hr He Hv Hfit Hset Hto.
  pose proof (resolved_inv _ Hr) as (_ & _ & _ & Hs).
  pose proof (setValue_touches (constructor this) (window this) fname v 0 (length b)
                f off len Hr Hv He b b' r eq_refl Hset) as Hfr.
  pose proof Hfr as [Hlen _].
  assert (view_ok (window this) (length b')) as Hv' by (by rewrite Hlen).
  destruct (getObject_reads (constructor this) (window this) 0 b Hr Hv ltac:(lia)
              ltac:(lia)) as (m0 & Hm0 & Hk0 & Hent0).
  destruct (getObject_reads (constructor this) (window this) 0 b' Hr Hv' ltac:(lia)
              ltac:(lia)) as (m' & Hm' & Hk' & Hent').
  unfold toObject in Hto. rewrite (Hm0 b (agree_on_refl _ _)) in Hto.
  injection Hto as <-.
  exists m'. split; [unfold toObject; by rewrite (Hm' b' (agree_on_refl _ _))|].
  intros g Hne.
  destruct (decide (g ∈ keys (schema (constructor this)))) as [Hin|Hin].
  - destruct (keys_entry _ _ _ _ Hs Hin) as (fg & og & lg & Hg).
    destruct (Hent0 _ _ _ _ Hg) as (v0 & Hv0 & Hr0).
    destruct (Hent' _ _ _ _ Hg) as (v' & Hv'' & Hr').
    rewrite Hv0, Hv''. f_equal.
    pose proof (entry_of_disjoint _ _ _ _ _ _ _ _ _ _ _ Hs Hg He Hne) as Hd.
    assert (agree_on (region (byteOffset (window this) + 0 + og) lg) b b') as Ha.
    { eapply frame_agree_on; [|exact Hfr]. unfold region. intros j Hj. lia. }
    pose proof (Hr0 b' Ha) as H1. pose proof (Hr' b' (agree_on_refl _ _)) as H2.
    cbv beta in H1, H2. congruence.
  - destruct (m0 !! g) as [x|] eqn:E0; [exfalso; apply Hin, Hk0; eauto|].
    destruct (m' !! g) as [x|] eqn:E'; [exfalso; apply Hin, Hk'; eauto|]. done.
Qed.

(** X9: [set] then [toObject]: a value of the exact shape of the field is
    stored without error, and decoding the struct gives it back under
    the name of the field. *)
Theorem set_then_toObject (this : ObjectView) (fname : string) (f : field)
    (off len : Z) (v : value) (b : list Z) :
  resolved (constructor this) = true →
  entry_of (schema (constructor this)) 0 fname f off len →
  view_ok (window this) (length b) →
  objectLength (constructor this) ≤ byteLength (window this) →
  full_field f v →
  ∃ b' m', set this fname v b = (b', None) ∧
           toObject this b' = inr (VObj m') ∧
           m' !! fname = Some v.
Proof.
  intros Hr He Hv Hfit Hfull.
  pose proof (resolved_inv _ Hr) as (_ & _ & _ & Hs).
  destruct (entry_of_bounds _ _ _ _ _ _ _ Hs He) as (Hf & Hoff & _ & Hend).
  destruct (setField_round_trips f off len (window this) 0 v b Hf Hv ltac:(lia)
              ltac:(lia) Hfull) as (b' & Hw & Hfr & Hrb).
  pose proof Hfr as [Hlen _].
  assert (view_ok (window this) (length b')) as Hv' by (by rewrite Hlen).
  destruct (getObject_reads (constructor this) (window this) 0 b' Hr Hv' ltac:(lia)
              ltac:(lia)) as (m' & Hm' & _ & Hent').
  exists b', m'. split; [by rewrite (set_entry _ _ _ _ _ _ Hr He)|].
  split; [unfold toObject; by rewrite (Hm' b' (agree_on_refl _ _))|].
  destruct (Hent' _ _ _ _ He) as (v' & Hv'' & Hr').
  rewrite Hv''. f_equal.
  pose proof (Hr' b' (agree_on_refl _ _)) as H1.
  pose proof (Hrb b' (agree_on_refl _ _)) as H2.
  cbv beta in H1, H2. congruence.
Qed.

End Decoding.

(** * Copying a view into a field, and allocating a struct *)

Section Copying.

Context `{Platform}.

Lemma write_at_slice_id (b : list Z) (o n : Z) :
  0 ≤ o → 0 ≤ n → o + n ≤ Z.of_nat (length b) → write_at b o (slice b o n) = b.
Proof.
  intros Ho Hn Hb. unfold write_at, slice.
  rewrite length_take, length_drop.
  replace (Z.to_nat o + Z.to_nat n `min` (length b - Z.to_nat o))%nat
    with (Z.to_nat o + Z.to_nat n)%nat by lia.
  rewrite <- drop_drop, take_drop. apply take_drop.
Qed.


Lemma insert_snoc {A} (l : list A) (x y : A) : <[length l := y]> (l ++ [x]) = l ++ [y].
Proof. by rewrite insert_app_r_alt, Nat.sub_diag by done. Qed.

(** X12: [setView] copies the bytes of the view over the struct from the start
    of the field, and the only bound it has is the end of the window of
    the struct, not the end of the field: when the view ends inside the
    window the bytes are copied (a view longer than the field runs over
    the fields that follow); otherwise nothing is written and the copy
    throws a RangeError. *)
Theorem setView_copies_or_throws (this : ObjectView) (fname : string) (f : field)
    (off len : Z) (w : View) (heap : list (list Z)) (b bv : list Z) :
  resolved (constructor this) = true →
  entry_of (schema (constructor this)) 0 fname f off len →
  heap !! buffer this = Some b →
  view_ok (window this) (length b) →
  heap !! view_buffer w = Some bv →
  0 ≤ view_byteOffset w → 0 ≤ view_length w →
  view_byteOffset w + view_length w ≤ Z.of_nat (length bv) →
  let src := slice bv (view_byteOffset w) (view_length w) in
  let o := byteOffset (window this) + off in
  (off + view_length w ≤ byteLength (window this) →
     setView this fname w heap = (<[buffer this := write_at b o src]> heap, None) ∧
     slice (write_at b o src) o (view_length w) = src ∧
     frame b (write_at b o src) o (view_length w)) ∧
  (byteLength (window this) < off + view_length w →
     setView this fname w heap = (heap, Some source_too_large)).
Proof.
  intros Hr He Hb (Hbo & Hbl & Hbuf) Hbv Hwo Hwl Hwb src o.
  pose proof (resolved_inv _ Hr) as (_ & _ & Hnd & Hs).
  destruct (entry_of_bounds _ _ _ _ _ _ _ Hs He) as (Hf & Hoff & _ & _).
  destruct (resolved_field_start_length _ _ _ Hf) as [Hst _].
  assert (Z.of_nat (length src) = view_length w) as Hsrc
    by (unfold src; by apply length_slice).
  assert (setView this fname w heap =
          let '(b', r) := array_set (byteOffset (window this), byteLength (window this))
                            src off b in
          (<[buffer this := b']> heap, r)) as ->.
  { unfold setView.
    rewrite (entry_of_lookup_field _ _ _ _ _ _ Hnd He), Hb, Hbv.
    rewrite !new_window_ok by done. by rewrite Hst. }
  split.
  - intros Hfit. rewrite array_set_ok by lia. split; [done|]. split.
    + rewrite <- Hsrc. apply slice_write_at; unfold o; lia.
    + rewrite <- Hsrc. apply frame_write_at; unfold o; lia.
  - intros Hover. unfold array_set. cbn [fst snd].
    destruct (Z.ltb_spec off 0); [lia|].
    destruct (Z.ltb_spec (byteLength (window this)) (Z.of_nat (length src) + off)); [|lia].
    simpl. unfold throw. by rewrite list_insert_id.
Qed.

(** X13: Copying the view of a field over the field changes nothing: [setView]
    of what [get] returned leaves the heap as it was, without error. *)
Theorem setView_of_get_is_identity (this : ObjectView) (fname : string) (f : field)
    (off len : Z) (w : View) (heap : list (list Z)) (b : list Z) :
  resolved (constructor this) = true →
  entry_of (schema (constructor this)) 0 fname f off len →
  heap !! buffer this = Some b →
  view_ok (window this) (length b) →
  objectLength (constructor this) ≤ byteLength (window this) →
  get this fname heap = inr (GotView w) →
  setView this fname w heap = (heap, None).
Proof.
  intros Hr He Hb Hv Hfit Hg. pose proof Hv as (Hbo & Hbl & Hbuf).
  pose proof (resolved_inv _ Hr) as (_ & _ & Hnd & Hs).
  destruct (entry_of_bounds _ _ _ _ _ _ _ Hs He) as (Hf & Hoff & Hlen & Hend).
  destruct (resolved_field_start_length _ _ _ Hf) as [Hst Hfl].
  destruct (get_view_inv _ _ _ _ Hg) as (f' & b0 & Hl & Hb0 & Hw & Hwb & _).
  rewrite (entry_of_lookup_field _ _ _ _ _ _ Hnd He) in Hl. injection Hl as <-.
  rewrite Hb in Hb0. injection Hb0 as <-.
  rewrite Hst, Hfl in Hw. simpl in Hw.
  apply new_window_inv in Hw as (Ho & Ho0 & Hn0 & Hon & Hn). simpl in Ho.
  specialize (Hn len eq_refl).
  unfold setView.
  rewrite (entry_of_lookup_field _ _ _ _ _ _ Hnd He), Hwb, Hb.
  rewrite !new_window_ok by lia. rewrite Hst. simpl ToIndex.
  rewrite array_set_ok by (rewrite ?length_slice; lia).
  rewrite Ho, Hn.
  replace (byteOffset (window this) + off) with (off + byteOffset (window this)) by lia.
  rewrite write_at_slice_id by lia. by rewrite list_insert_id.
Qed.

(** X14: [from] without a view, on a declared class: the class is resolved, one
    buffer of [getLength] bytes is added to the heap and no other buffer is
    touched, whether the copy returns or throws; the view returned is the
    whole of the new buffer. *)
Theorem from_allocates_one_buffer (K0 K' : klass) (object : value)
    (heap heap' : list (list Z)) (r : res ObjectView) :
  declared K0 = true →
  from K0 object None heap = (K', heap', r) →
  ∃ n b',
    getLength K0 = (K', inr n) ∧
    heap' = heap ++ [b'] ∧
    Z.of_nat (length b') = n ∧
    ∀ view, r = inr view →
            view = {| buffer := length heap;
                      window := {| byteOffset := 0; byteLength := n |};
                      constructor := K' |}.
Proof.
  intros Hd Hfrom.
  destruct (getLength_resolves K0 Hd) as (K & n & Hg & Hr).
  destruct (getLength_objectLength _ _ _ Hg) as [Hn _].
  pose proof (resolved_nonneg K Hr) as HK.
  rewrite (from_getLength _ _ _ _ _ Hg), (from_fresh_unfold K _ heap Hr) in Hfrom.
  cbv zeta in Hfrom. cbn [window] in Hfrom.
  set (zeros := replicate (Z.to_nat (objectLength K)) 0) in *.
  set (this := {| byteOffset := 0; byteLength := objectLength K |}) in *.
  destruct (setObject this (Some 0) object (ObjectViewClass K) zeros) as [b' e] eqn:Hset.
  injection Hfrom as <- <- <-.
  assert (view_ok this (length zeros)) as Hv
    by (unfold view_ok, this, zeros; rewrite length_replicate; simpl; lia).
  destruct (setObject_touches K this object 0 (length zeros) Hr Hv zeros b' e eq_refl Hset)
    as [Hlen _].
  exists n, b'. split; [done|]. split; [apply insert_snoc|]. split.
  - rewrite Hlen. unfold zeros. rewrite length_replicate. lia.
  - intros view Hview. destruct e; [done|]. injection Hview as <-.
    unfold this. by rewrite Hn.
Qed.


End Copying.

(** * The layout and the errors of resolution *)

Section Layout.





(** X17: The fields of a resolved class do not overlap: [getLength] on a
    declared class gives every field a start and a length inside
    [0, objectLength), and two fields of different names occupy disjoint
    byte ranges. *)
Theorem getLength_fields_disjoint (k k' : klass) (n : Z) (g1 g2 : string)
    (f1 f2 : field) :
  declared k = true →
  getLength k = (k', inr n) →
  lookup_field (schema k') g1 = Some f1 →
  lookup_field (schema k') g2 = Some f2 →
  g1 ≠ g2 →
  ∃ o1 l1 o2 l2,
    field_start f1 = Some o1 ∧ field_length f1 = Some l1 ∧
    field_start f2 = Some o2 ∧ field_length f2 = Some l2 ∧
    0 ≤ o1 ∧ 0 ≤ l1 ∧ o1 + l1 ≤ n ∧
    0 ≤ o2 ∧ 0 ≤ l2 ∧ o2 + l2 ≤ n ∧
    (o1 + l1 ≤ o2 ∨ o2 + l2 ≤ o1).
Proof.
  intros Hd Hg H1 H2 Hne.
  destruct (getLength_resolves k Hd) as (c' & n' & Hg' & Hr).
  rewrite Hg in Hg'. injection Hg' as <- <-.
  destruct (getLength_objectLength _ _ _ Hg) as [Hn _].
  pose proof (resolved_inv _ Hr) as (_ & _ & _ & Hs). rewrite Hn in Hs.
  destruct (lookup_field_entry _ _ _ _ _ Hs H1) as (o1 & l1 & He1).
  destruct (lookup_field_entry _ _ _ _ _ Hs H2) as (o2 & l2 & He2).
  destruct (entry_of_bounds _ _ _ _ _ _ _ Hs He1) as (Hf1 & ? & ? & ?).
  destruct (entry_of_bounds _ _ _ _ _ _ _ Hs He2) as (Hf2 & ? & ? & ?).
  destruct (resolved_field_start_length _ _ _ Hf1) as [? ?].
  destruct (resolved_field_start_length _ _ _ Hf2) as [? ?].
  exists o1, l1, o2, l2. repeat split; try done.
  exact (entry_of_disjoint _ _ _ _ _ _ _ _ _ _ _ Hs He1 He2 Hne).
Qed.

(** X18: Resolution rewrites the descriptors of composite fields: after
    [getLength] on a declared class no field has a class as its type; a
    nested struct has type "object", its class in [ctor], resolved, and the
    byte length of that class; an array of structs has type "array" and
    [size] times the byte length of its resolved element class; a typed
    array has [size] times the width of its numbers. *)
Theorem getLength_rewrites_types (k k' : klass) (n : Z) (g : string) (f : field) :
  declared k = true →
  getLength k = (k', inr n) →
  lookup_field (schema k') g = Some f →
  (∃ tok, field_type f = TyTok tok) ∧
  (field_type f = TyTok "object" →
     ∃ c, field_ctor f = ObjectViewClass c ∧ isInitialized c = true ∧
          fields c = Some (keys (schema c)) ∧
          field_length f = Some (objectLength c)) ∧
  (field_type f = TyTok "array" →
     ∃ c, field_ctor f = ArrayView c ∧ isInitialized c = true ∧
          fields c = Some (keys (schema c)) ∧
          field_length f = Some (field_size f * objectLength c)) ∧
  (field_type f = TyTok "typedarray" →
     ∃ kind le, field_ctor f = TypedArrayView kind le ∧
                field_length f = Some (field_size f * fieldSizes kind)).
Proof.
  intros Hd Hg Hl.
  destruct (getLength_resolves k Hd) as (c' & n' & Hg' & Hr).
  rewrite Hg in Hg'. injection Hg' as <- <-.
  pose proof (resolved_inv _ Hr) as (_ & _ & _ & Hs).
  destruct (lookup_field_entry _ _ _ _ _ Hs Hl) as (o & l & He).
  destruct (entry_of_bounds _ _ _ _ _ _ _ Hs He) as (Hf & _).
  apply resolved_field_shape in Hf.
  inversion Hf as [tok kind ? ? ? ? Hk|? ? ? ? ? ?|? ? kind le' ? ? ?|? ? ? sl0 ? ?
                   |? ? c ? Hrc ?|? ? c ? Hrc]; subst; simpl.
  - split; [eauto|]. repeat split; intros [= ->]; by vm_compute in Hk.
  - split; [eauto|]. repeat split; intros [=].
  - split; [eauto|]. repeat split; try (by intros [=]). intros _. eauto.
  - split; [eauto|]. repeat split; intros [=].
  - split; [eauto|]. repeat split; try (by intros [=]). intros _.
    pose proof (resolved_inv _ Hrc) as (? & ? & _). eauto.
  - split; [eauto|]. repeat split; try (by intros [=]). intros _.
    pose proof (resolved_inv _ Hrc) as (? & ? & _). eauto.
Qed.

End Layout.

(** * Array fields, decoded and emptied *)

Section ArrayFields.

Context `{Platform}.

Lemma collect_length {A B} (f : A → res B) (js : list A) (vs : list B) :
  collect f js = inr vs → length vs = length js.
Proof.
  revert vs. induction js as [|j js IH]; intros vs; simpl; [by intros [= <-]|].
  destruct (f j) as [e|y]; [done|].
  destruct (collect f js) as [e|ys]; [done|].
  intros [= <-]. simpl. f_equal. by apply IH.
Qed.

Lemma new_Array_length {A} (size : Z) (body : Z → res A) (vs : list A) :
  new_Array size body = inr vs → Z.of_nat (length vs) = size.
Proof.
  unfold new_Array. destruct (Z.ltb_spec size 0); [done|].
  intros Hc. apply collect_length in Hc. rewrite Hc. unfold indices.
  rewrite length_seqZ. lia.
Qed.

Lemma rmap_inr {A B} (g : A → B) (r : res A) (y : B) :
  rmap g r = inr y → ∃ x, r = inr x ∧ y = g x.
Proof. destruct r as [e|x]; [done|]. intros [= <-]. eauto. Qed.

(** X10: [toObject] gives every array field an array of exactly the declared
    size, whatever the struct was made from. *)
Theorem toObject_arrays_have_declared_size (this : ObjectView) (fname : string)
    (f : field) (off len : Z) (b : list Z) :
  resolved (constructor this) = true →
  entry_of (schema (constructor this)) 0 fname f off len →
  array_field f = true →
  view_ok (window this) (length b) →
  objectLength (constructor this) ≤ byteLength (window this) →
  ∃ m l, toObject this b = inr (VObj m) ∧
         m !! fname = Some (VArr l) ∧
         Z.of_nat (length l) = field_size f.
Proof.
  intros Hr He Ha Hv Hfit.
  pose proof (resolved_inv _ Hr) as (_ & _ & _ & Hs).
  destruct (entry_of_bounds _ _ _ _ _ _ _ Hs He) as (Hf & _).
  destruct (getObject_reads (constructor this) (window this) 0 b Hr Hv ltac:(lia)
              ltac:(lia)) as (m & Hm & _ & Hent).
  destruct (Hent _ _ _ _ He) as (v & Hmv & Hrv).
  pose proof (Hrv b (agree_on_refl _ _)) as Hget. cbv beta in Hget.
  assert (∃ l, v = VArr l ∧ Z.of_nat (length l) = field_size f) as (l & -> & Hl).
  { apply resolved_field_shape in Hf.
    inversion Hf as [tok k ? ? ? ? Hk|? ? ? ? ? ?|? ? k le' ? ? ?|? ? ? sl0 ? ?
                     |? ? c ? ? ?|? ? c ? ?]; subst.
    - unfold array_field in Ha. simpl in Ha.
      destruct (String.eqb_spec tok "typedarray") as [->|_]; [done|].
      destruct (String.eqb_spec tok "array") as [->|_]; [done|].
      by destruct (String.eqb_spec tok "stringarray") as [->|_].
    - done.
    - rewrite getField_typedarray in Hget.
      apply rmap_inr in Hget as (vs & Hvs & ->).
      exists vs. split; [done|]. by apply new_Array_length in Hvs.
    - rewrite getField_stringarray in Hget.
      apply rmap_inr in Hget as (vs & Hvs & ->).
      exists vs. split; [done|]. by apply new_Array_length in Hvs.
    - rewrite getField_array in Hget.
      apply rmap_inr in Hget as (vs & Hvs & ->).
      exists vs. split; [done|]. by apply new_Array_length in Hvs.
    - done. }
  exists m, l. split; [|done]. unfold toObject.
  by rewrite (Hm b (agree_on_refl _ _)).
Qed.

(** X11: [set] with an empty array: a field of strings is cleared (it is
    zero-filled before the copy), a typed array or an array of structs
    keeps its bytes (only the slots supplied are written). *)
Theorem set_empty_array (this : ObjectView) (fname : string) (f : field)
    (off len : Z) (b : list Z) :
  resolved (constructor this) = true →
  entry_of (schema (constructor this)) 0 fname f off len →
  view_ok (window this) (length b) →
  objectLength (constructor this) ≤ byteLength (window this) →
  (field_type f = TyTok "stringarray" →
     set this fname (VArr []) b =
       (write_at b (byteOffset (window this) + off) (replicate (Z.to_nat len) 0), None)) ∧
  (field_type f = TyTok "typedarray" ∨ field_type f = TyTok "array" →
     set this fname (VArr []) b = (b, None)).
Proof.
  intros Hr He (Hbo & Hbl & Hbuf) Hfit.
  pose proof (resolved_inv _ Hr) as (_ & _ & _ & Hs).
  destruct (entry_of_bounds _ _ _ _ _ _ _ Hs He) as (Hf & Hoff & Hlen & Hend).
  rewrite (set_entry _ _ _ _ _ _ Hr He).
  apply resolved_field_shape in Hf.
  inversion Hf as [tok k ? ? ? ? Hk|? ? ? ? ? ?|? ? k le' ? Hsz ?|? ? ? sl0 ? Hsz
                   |? ? c ? Hrc Hsz|? ? c ? ?]; subst; simpl field_type.
  - split; [intros [= ->]; by vm_compute in Hk|].
    intros [[= ->]|[= ->]]; by vm_compute in Hk.
  - split; [done|]. by intros [|].
  - split; [done|]. intros _. rewrite setField_typedarray.
    unfold setTypedArray. rewrite js_length_VArr, eval_inr, loop_max_min.
    simpl length. by rewrite Z.min_r by lia.
  - split; [|by intros [|]]. intros _. rewrite setField_stringarray.
    unfold setStringArray. simpl padd.
    rewrite new_window_ok by lia. rewrite eval_inr.
    unfold seq, fill0. cbn [fst snd].
    rewrite js_length_VArr, eval_inr, loop_max_min. simpl length.
    rewrite Z.min_r by lia. simpl.
    by replace (0 + off + byteOffset (window this))
      with (byteOffset (window this) + off) by lia.
  - split; [done|]. intros _. rewrite setField_array.
    rewrite (setArray_elements _ _ _ _ _ _ Hrc). simpl length.
    by rewrite Z.min_r by lia.
  - split; [done|]. by intros [|].
Qed.

End ArrayFields.

(** * The examples, checked *)

Example from_home :
  from House (VObj home) None [] = (resolve House, [home_bytes], inr house_view).
Proof. vm_compute. reflexivity. Qed.

Example toObject_home : toObject house_view home_bytes = inr (VObj home).
Proof. vm_compute. reflexivity. Qed.

(** ** Resolution *)




Lemma getLength_rejects_unrecognized_witness :
  ∃ k' tok', getLength Bad = (k', inl (invalid_type tok')) ∧ isInitialized k' = false.
Proof.
  apply (getLength_rejects_unrecognized Bad (declare (TyTok "bogus") 0 false None) "bogus").
  - reflexivity.
  - simpl. apply elem_of_cons. right. apply elem_of_cons. by left.
  - reflexivity.
  - split; [reflexivity|discriminate].
Defined.

(** ** Strings *)

(** ["Arthur Dent"] has 11 bytes, the field 10: [set] clears the field and
    throws the RangeError of [TypedArray.prototype.set]. *)
Lemma set_string_overlong_throws :
  set person_view "name" (VStr [65; 114; 116; 104; 117; 114; 32; 68; 101; 110; 116])
      [0; 0; 0; 1; 90; 97; 112; 104; 111; 100; 0; 0; 0; 0] =
  ([0; 0; 0; 1; 0; 0; 0; 0; 0; 0; 0; 0; 0; 0], Some source_too_large).
Proof. vm_compute. reflexivity. Qed.

Lemma set_string_fits_or_throws_witness :
  set person_view "name" (VStr [65; 114; 116; 104; 117; 114])
      [0; 0; 0; 1; 90; 97; 112; 104; 111; 100; 33; 33; 33; 33] =
    ([0; 0; 0; 1; 65; 114; 116; 104; 117; 114; 0; 0; 0; 0], None) ∧
  set person_view "name" (VStr [65; 114; 116; 104; 117; 114; 32; 68; 101; 110; 116])
      [0; 0; 0; 1; 90; 97; 112; 104; 111; 100; 33; 33; 33; 33] =
    ([0; 0; 0; 1; 0; 0; 0; 0; 0; 0; 0; 0; 0; 0], Some source_too_large).
Proof.
  split.
  - refine (proj1 (proj1 (set_string_fits_or_throws person_view "name" name_field 4 10
                            [65; 114; 116; 104; 117; 114]
                            [0; 0; 0; 1; 90; 97; 112; 104; 111; 100; 33; 33; 33; 33]
                            eq_refl eq_refl eq_refl eq_refl _ _ _) _)); by vm_compute.
  - refine (proj2 (set_string_fits_or_throws person_view "name" name_field 4 10
                     [65; 114; 116; 104; 117; 114; 32; 68; 101; 110; 116]
                     [0; 0; 0; 1; 90; 97; 112; 104; 111; 100; 33; 33; 33; 33]
                     eq_refl eq_refl eq_refl eq_refl _ _ _) _); by vm_compute.
Defined.

(** ** Views *)

Lemma get_view_aliases_witness :
  ∃ w, get house_view "pets" [home_bytes] = inr (GotView w) ∧
       view_byteOffset w = 17 ∧ view_length w = 4 ∧
       let heap' := view_write w 1 [6] [home_bytes] in
       heap' !! buffer house_view = Some (write_at home_bytes 18 [6]) ∧
       get house_view "pets" heap' = inr (GotView w) ∧
       view_bytes w heap' = write_at (view_bytes w [home_bytes]) 1 [6].
Proof.
  destruct (get_view_aliases house_view "pets" pets_field 17 4 [home_bytes] home_bytes
              eq_refl
              (entry_later _ owner_field _ 0 14 _ _ _ _ eq_refl
                 (entry_later _ rooms_field _ 14 3 _ _ _ _ eq_refl
                    (entry_here _ pets_field _ 17 4 eq_refl)))
              eq_refl eq_refl ltac:(unfold view_ok; simpl; lia) ltac:(by vm_compute))
    as (w & Hg & _ & Hwo & Hwl & _ & Hst).
  exists w. split; [exact Hg|]. split; [exact Hwo|]. split; [exact Hwl|].
  destruct (Hst 1 [6] ltac:(lia) ltac:(simpl; lia)) as (Hh & _ & _ & Hg' & Hvb).
  split; [exact Hh|]. split; [exact Hg'|exact Hvb].
Defined.

(** ** Merging *)



(** ** Arrays *)

(** [House.from({ rooms: [9] })]: one room of three is supplied. *)
Example from_rooms_only :
  from (resolve House) (VObj {[ "rooms" := VArr [num 9] ]}) None [] =
  (resolve House,
   [[0; 0; 0; 0; 0; 0; 0; 0; 0; 0; 0; 0; 0; 0; 9; 0; 0; 0; 0; 0; 0; 0; 0; 0; 0; 0; 0; 0; 0]],
   inr house_view).
Proof. vm_compute. reflexivity. Qed.

Lemma array_field_copies_min_witness :
  (let five := [num 1; num 2; num 3; num 4; num 5] in
   let b' := [0; 0; 0; 1; 65; 114; 116; 104; 117; 114; 0; 0; 0; 0; 1; 2; 3; 3; 4; 1; 2;
              97; 98; 0; 0; 99; 0; 0; 0] in
   setField (window house_view) rooms_field (VArr five) (Some 0) home_bytes = (b', None) ∧
   setField (window house_view) rooms_field (VArr (take 3 five)) (Some 0) home_bytes
     = (b', None) ∧
   frame home_bytes b' 14 3) ∧
  (∃ b', from (resolve House) (VObj {[ "rooms" := VArr [num 9] ]}) None []
           = (resolve House, [b'], inr house_view) ∧
         Z.of_nat (length b') = 29 ∧
         ∀ j : nat, 15 ≤ Z.of_nat j < 17 → b' !! j = Some 0).
Proof.
  split.
  - intros five b'.
    destruct (proj1 array_field_copies_min (window house_view) rooms_field 14 3 3 1 0
                five home_bytes b' None eq_refl eq_refl
                ltac:(unfold view_ok; simpl; lia) eq_refl)
      as (_ & Htake & Hframe & _).
    split; [reflexivity|]. split; [exact Htake|exact Hframe].
  - destruct (proj2 array_field_copies_min (resolve House) (resolve House)
                {[ "rooms" := VArr [num 9] ]} []
                [[0; 0; 0; 0; 0; 0; 0; 0; 0; 0; 0; 0; 0; 0; 9; 0; 0; 0; 0; 0; 0;
                  0; 0; 0; 0; 0; 0; 0; 0]]
                house_view "rooms" rooms_field 14 3 3 1 [num 9]
                eq_refl from_rooms_only
                (entry_later _ owner_field _ 0 14 _ _ _ _ eq_refl
                   (entry_here _ rooms_field _ 14 3 eq_refl))
                eq_refl eq_refl)
      as (b' & Hb' & Hlen & Hzero).
    injection Hb' as <-. eexists. split; [reflexivity|]. split; [exact Hlen|].
    intros j Hj. apply Hzero. simpl. lia.
Defined.


(** ** Round trips *)









(** ** Fields *)

Lemma entry_owner : entry_of (schema (resolve House)) 0 "owner" owner_field 0 14.
Proof. exact (entry_here _ owner_field _ 0 14 eq_refl). Qed.

Lemma entry_rooms : entry_of (schema (resolve House)) 0 "rooms" rooms_field 14 3.
Proof.
  exact (entry_later _ owner_field _ 0 14 _ _ _ _ eq_refl
           (entry_here _ rooms_field _ 14 3 eq_refl)).
Qed.

Lemma entry_pets : entry_of (schema (resolve House)) 0 "pets" pets_field 17 4.
Proof.
  exact (entry_later _ owner_field _ 0 14 _ _ _ _ eq_refl
           (entry_later _ rooms_field _ 14 3 _ _ _ _ eq_refl
              (entry_here _ pets_field _ 17 4 eq_refl))).
Qed.

Lemma entry_tags : entry_of (schema (resolve House)) 0 "tags" tags_field 21 8.
Proof.
  exact (entry_later _ owner_field _ 0 14 _ _ _ _ eq_refl
           (entry_later _ rooms_field _ 14 3 _ _ _ _ eq_refl
              (entry_later _ pets_field _ 17 4 _ _ _ _ eq_refl
                 (entry_here _ tags_field _ 21 8 eq_refl)))).
Qed.

Lemma entry_id : entry_of (schema (resolve Person)) 0 "id" id_field 0 4.
Proof. exact (entry_here _ id_field _ 0 4 eq_refl). Qed.

Lemma house_view_ok : view_ok (window house_view) (length home_bytes).
Proof. unfold view_ok. simpl. lia. Qed.

(** The second room is a BigInt: the first room is written, then the
    setter throws; no byte outside the three rooms has changed. *)
Example set_rooms_throws :
  set house_view "rooms" (VArr [num 1; VBig 5; num 3]) home_bytes =
  ([0; 0; 0; 1; 65; 114; 116; 104; 117; 114; 0; 0; 0; 0; 1; 12; 7; 3; 4; 1; 2;
    97; 98; 0; 0; 99; 0; 0; 0],
   Some (TypeError "Cannot convert a BigInt value to a number")).
Proof. vm_compute. reflexivity. Qed.

Lemma set_writes_only_its_field_witness :
  let b' := [0; 0; 0; 1; 65; 114; 116; 104; 117; 114; 0; 0; 0; 0; 1; 12; 7; 3; 4; 1; 2;
             97; 98; 0; 0; 99; 0; 0; 0] in
  length b' = length home_bytes ∧
  ∀ j : nat, Z.of_nat j < 14 ∨ 17 ≤ Z.of_nat j → b' !! j = home_bytes !! j.
Proof.
  exact (set_writes_only_its_field house_view "rooms" rooms_field 14 3
           (VArr [num 1; VBig 5; num 3]) home_bytes _ _
           eq_refl entry_rooms house_view_ok set_rooms_throws).
Defined.

Lemma set_keeps_other_fields_witness :
  let b' := [0; 0; 0; 1; 65; 114; 116; 104; 117; 114; 0; 0; 0; 0; 1; 12; 7; 3; 4; 1; 2;
             97; 98; 0; 0; 99; 0; 0; 0] in
  slice b' 17 4 = slice home_bytes 17 4 ∧
  get house_view "pets" (<[buffer house_view := b']> [home_bytes])
    = get house_view "pets" [home_bytes].
Proof.
  exact (set_keeps_other_fields house_view "rooms" "pets" rooms_field pets_field
           14 3 17 4 (VArr [num 1; VBig 5; num 3]) [home_bytes] home_bytes _ _
           eq_refl entry_rooms entry_pets ltac:(discriminate) eq_refl house_view_ok
           set_rooms_throws).
Defined.

Lemma set_get_integer_witness :
  ∃ b', set person_view "id" (num 4000000000) ford_bytes = (b', None) ∧
        get person_view "id" (<[buffer person_view := b']> [ford_bytes])
          = inr (GotValue (num 4000000000)).
Proof.
  exact (set_get_integer person_view "id" "uint32" id_field 0 4 Uint32 4000000000
           [ford_bytes] ford_bytes eq_refl entry_id eq_refl eq_refl
           ltac:(simpl; lia) eq_refl ltac:(unfold view_ok; simpl; lia)
           ltac:(by vm_compute)).
Defined.

Lemma numeric_field_out_of_bounds_witness :
  get short_view "id" [ford_bytes] = inl out_of_bounds ∧
  set short_view "id" (num 7) ford_bytes = (ford_bytes, Some out_of_bounds).
Proof.
  exact (numeric_field_out_of_bounds short_view "id" "uint32" id_field 0 4 Uint32
           (num 7) [ford_bytes] ford_bytes eq_refl entry_id eq_refl eq_refl eq_refl
           ltac:(simpl; lia)).
Defined.


(** ** Decoding *)

Lemma toObject_returns_schema_keys_witness :
  ∃ m, toObject house_view (replicate 29 255) = inr (VObj m) ∧
       ∀ name, is_Some (m !! name) ↔ name ∈ ["owner"; "rooms"; "pets"; "tags"].
Proof.
  exact (toObject_returns_schema_keys house_view (replicate 29 255) eq_refl
           ltac:(unfold view_ok; simpl; lia) ltac:(by vm_compute)).
Defined.

Lemma toObject_reads_only_the_struct_witness :
  toObject owner_window (write_at home_bytes 20 [99]) = toObject owner_window home_bytes.
Proof.
  exact (toObject_reads_only_the_struct owner_window home_bytes
           (write_at home_bytes 20 [99]) eq_refl
           ltac:(unfold view_ok; simpl; lia) ltac:(by vm_compute) eq_refl eq_refl).
Defined.

Lemma set_changes_one_key_witness :
  let b' := [0; 0; 0; 1; 65; 114; 116; 104; 117; 114; 0; 0; 0; 0; 1; 12; 7; 3; 4; 1; 2;
             97; 98; 0; 0; 99; 0; 0; 0] in
  ∃ m', toObject house_view b' = inr (VObj m') ∧
        ∀ g, g ≠ "rooms" → m' !! g = home !! g.
Proof.
  exact (set_changes_one_key house_view "rooms" rooms_field 14 3
           (VArr [num 1; VBig 5; num 3]) home_bytes _ _ home
           eq_refl entry_rooms house_view_ok ltac:(by vm_compute)
           set_rooms_throws toObject_home).
Defined.

Lemma full_field_rooms : full_field rooms_field (VArr [num 1; num 2; num 3]).
Proof.
  eexists. split; [reflexivity|]. split; [reflexivity|].
  repeat constructor; (apply number_fits_integer; [done|simpl; lia]).
Qed.

Lemma set_then_toObject_witness :
  ∃ b' m', set house_view "rooms" (VArr [num 1; num 2; num 3]) home_bytes = (b', None) ∧
           toObject house_view b' = inr (VObj m') ∧
           m' !! "rooms" = Some (VArr [num 1; num 2; num 3]).
Proof.
  exact (set_then_toObject house_view "rooms" rooms_field 14 3
           (VArr [num 1; num 2; num 3]) home_bytes
           eq_refl entry_rooms house_view_ok ltac:(by vm_compute) full_field_rooms).
Defined.

Lemma toObject_arrays_have_declared_size_witness :
  ∃ m l, toObject house_view home_bytes = inr (VObj m) ∧
         m !! "pets" = Some (VArr l) ∧ Z.of_nat (length l) = 2.
Proof.
  exact (toObject_arrays_have_declared_size house_view "pets" pets_field 17 4 home_bytes
           eq_refl entry_pets eq_refl house_view_ok ltac:(by vm_compute)).
Defined.

Lemma set_empty_array_witness :
  set house_view "tags" (VArr []) home_bytes =
    ([0; 0; 0; 1; 65; 114; 116; 104; 117; 114; 0; 0; 0; 0; 9; 12; 7; 3; 4; 1; 2;
      0; 0; 0; 0; 0; 0; 0; 0], None) ∧
  set house_view "rooms" (VArr []) home_bytes = (home_bytes, None).
Proof.
  split.
  - exact (proj1 (set_empty_array house_view "tags" tags_field 21 8 home_bytes
                    eq_refl entry_tags house_view_ok ltac:(by vm_compute)) eq_refl).
  - exact (proj2 (set_empty_array house_view "rooms" rooms_field 14 3 home_bytes
                    eq_refl entry_rooms house_view_ok ltac:(by vm_compute))
                 (or_introl eq_refl)).
Defined.

(** ** Views and allocation *)

Lemma setView_copies_or_throws_witness :
  setView house_view "owner" ford_view [home_bytes; ford_bytes] =
    ([[0; 0; 0; 2; 70; 111; 114; 100; 0; 0; 0; 0; 0; 0; 9; 12; 7; 3; 4; 1; 2;
       97; 98; 0; 0; 99; 0; 0; 0]; ford_bytes], None) ∧
  setView house_view "pets" ford_view [home_bytes; ford_bytes] =
    ([home_bytes; ford_bytes], Some source_too_large).
Proof.
  split.
  - exact (proj1 (proj1 (setView_copies_or_throws house_view "owner" owner_field 0 14
                           ford_view [home_bytes; ford_bytes] home_bytes ford_bytes
                           eq_refl entry_owner eq_refl house_view_ok eq_refl
                           ltac:(simpl; lia) ltac:(simpl; lia) ltac:(simpl; lia))
                        ltac:(simpl; lia))).
  - exact (proj2 (setView_copies_or_throws house_view "pets" pets_field 17 4
                    ford_view [home_bytes; ford_bytes] home_bytes ford_bytes
                    eq_refl entry_pets eq_refl house_view_ok eq_refl
                    ltac:(simpl; lia) ltac:(simpl; lia) ltac:(simpl; lia))
                 ltac:(simpl; lia)).
Defined.

Lemma setView_of_get_is_identity_witness :
  get house_view "owner" [home_bytes] = inr (GotView owner_view) ∧
  setView house_view "owner" owner_view [home_bytes] = ([home_bytes], None).
Proof.
  split; [reflexivity|].
  exact (setView_of_get_is_identity house_view "owner" owner_field 0 14 owner_view
           [home_bytes] home_bytes eq_refl entry_owner eq_refl house_view_ok
           ltac:(by vm_compute) eq_refl).
Defined.

Example declared_House : declared House = true.
Proof. vm_compute. reflexivity. Qed.


Lemma from_allocates_one_buffer_witness :
  ∃ n b',
    getLength House = (resolve House, inr n) ∧
    [home_bytes] = [] ++ [b'] ∧
    Z.of_nat (length b') = n ∧
    ∀ view, (inr house_view : res ObjectView) = inr view →
            view = {| buffer := 0;
                      window := {| byteOffset := 0; byteLength := n |};
                      constructor := resolve House |}.
Proof.
  exact (from_allocates_one_buffer House (resolve House) (VObj home) [] [home_bytes]
           (inr house_view) declared_House from_home).
Defined.


(** ** Resolution *)


Lemma getLength_fields_disjoint_witness :
  ∃ o1 l1 o2 l2,
    field_start rooms_field = Some o1 ∧ field_length rooms_field = Some l1 ∧
    field_start pets_field = Some o2 ∧ field_length pets_field = Some l2 ∧
    0 ≤ o1 ∧ 0 ≤ l1 ∧ o1 + l1 ≤ 29 ∧
    0 ≤ o2 ∧ 0 ≤ l2 ∧ o2 + l2 ≤ 29 ∧
    (o1 + l1 ≤ o2 ∨ o2 + l2 ≤ o1).
Proof.
  exact (getLength_fields_disjoint House (resolve House) 29 "rooms" "pets"
           rooms_field pets_field declared_House eq_refl eq_refl eq_refl
           ltac:(discriminate)).
Defined.

Lemma getLength_rewrites_types_witness :
  (∃ tok, field_type owner_field = TyTok tok) ∧
  ∃ c, field_ctor owner_field = ObjectViewClass c ∧ isInitialized c = true ∧
       fields c = Some (keys (schema c)) ∧
       field_length owner_field = Some (objectLength c).
Proof.
  destruct (getLength_rewrites_types House (resolve House) 29 "owner" owner_field
              declared_House eq_refl eq_refl) as (Htok & Hobj & _).
  split; [exact Htok|exact (Hobj eq_refl)].
Defined.
